(** * Navigation module of the control unit (nav.py): model and properties

    The module turns a geo-referenced field of currents into a directed
    graph (networkx), indexes the grid coordinates with a k-d tree (scipy)
    and answers shortest-path queries (networkx Dijkstra).

    Numbers: the floating-point values of the program (coordinates,
    currents, distances, azimuths, weights) are modelled by the real
    numbers of the Standard Library, so rounding, infinities and NaN are
    outside the model.  Python integers are modelled by [Z]. *)

From Stdlib Require Import List ZArith Lia Bool.
From Stdlib.Strings Require Import String Ascii Byte.
From Stdlib Require Import DecimalString.
From Stdlib Require Import Reals Lra.
Import ListNotations.

Local Open Scope Z_scope.

(** ** Exceptions and fallible results *)

(** The exceptions a call of this module can end with.  The first group is
    raised by Python, numpy, struct and networkx on the paths modelled
    below; [DegenerateRoute] is the error kind that the design document
    names for a route from a cell to itself. *)
Inductive exn : Type :=
| IndexError          (* list or array index out of range *)
| ValueError          (* numpy unravel_index, networkx contradictory paths *)
| KeyError            (* dict lookup *)
| StructError         (* struct.error *)
| NodeNotFound        (* networkx.NodeNotFound *)
| NetworkXNoPath      (* networkx.NetworkXNoPath *)
| AttributeError      (* attribute read before __init__ binds it *)
| ZeroDivisionError
| DegenerateRoute.    (* named by the design only *)

Inductive result (A : Type) : Type :=
| Ok (a : A)
| Err (e : exn).
Arguments Ok {A} a.
Arguments Err {A} e.

Definition bind {A B} (m : result A) (k : A -> result B) : result B :=
  match m with
  | Ok a => k a
  | Err e => Err e
  end.

Notation "x <- m ;; k" := (bind m (fun x => k))
  (at level 61, m at next level, right associativity).
Notation "' p <- m ;; k" := (bind m (fun p => k))
  (at level 61, p pattern, m at next level, right associativity).

(** [[f(a) for a in l]] where [f] may raise. *)
Fixpoint mapM {A B} (f : A -> result B) (l : list A) : result (list B) :=
  match l with
  | [] => Ok []
  | a :: l' => b <- f a ;; bs <- mapM f l' ;; Ok (b :: bs)
  end.

(** [range(n)] *)
Definition range (n : Z) : list Z := map Z.of_nat (seq 0 (Z.to_nat n)).

(** ** struct.pack / struct.unpack with format 'II'

    Two native unsigned ints, 4 bytes each, no padding between them; the
    byte order is the machine's, little-endian on the supported targets. *)

Definition bytes := list byte.

Definition bytes_eq_dec : forall a b : bytes, {a = b} + {a <> b} :=
  list_eq_dec Byte.byte_eq_dec.

Definition byte_of_Z (z : Z) : byte :=
  match Byte.of_N (Z.to_N (z mod 256)) with
  | Some b => b
  | None => x00
  end.

Definition Z_of_byte (b : byte) : Z := Z.of_N (Byte.to_N b).

Definition pack_I (n : Z) : bytes :=
  [byte_of_Z n; byte_of_Z (n / 256); byte_of_Z (n / 65536); byte_of_Z (n / 16777216)].

Definition unpack_I (b0 b1 b2 b3 : byte) : Z :=
  Z_of_byte b0 + 256 * Z_of_byte b1 + 65536 * Z_of_byte b2 + 16777216 * Z_of_byte b3.

Definition UINT_MAX : Z := 4294967295.

Definition fits_I (n : Z) : bool := (0 <=? n) && (n <=? UINT_MAX).

(** [struct.pack('II', y, x)]: struct.error when an argument is out of the
    range of an unsigned int. *)
Definition struct_pack_II (y x : Z) : result bytes :=
  if fits_I y && fits_I x then Ok (pack_I y ++ pack_I x) else Err StructError.

(** [struct.unpack('II', raw)]: struct.error unless [raw] has 8 bytes. *)
Definition struct_unpack_II (raw : bytes) : result (Z * Z) :=
  match raw with
  | [a0; a1; a2; a3; b0; b1; b2; b3] => Ok (unpack_I a0 a1 a2 a3, unpack_I b0 b1 b2 b3)
  | _ => Err StructError
  end.

(** ** Node ids *)

Definition NodeId := bytes.

Definition _encode_node_id (idx_pos : Z * Z) : result NodeId :=
  let '(y, x) := idx_pos in struct_pack_II y x.

Definition _decode_node_id (raw : NodeId) : result (Z * Z) :=
  struct_unpack_II raw.

(** ** Candidate and valid neighbours of a cell (from [_get_neighbors]) *)

Definition neighbors (ys xs : Z) : list (Z * Z) :=
  [(ys + 0, xs + 1); (ys + 1, xs + 1);
   (ys + 1, xs + 0); (ys + 1, xs - 1);
   (ys + 0, xs - 1); (ys - 1, xs - 1);
   (ys - 1, xs + 0); (ys - 1, xs + 1)].

Definition in_bounds (dims : Z * Z) (p : Z * Z) : bool :=
  let '(y_dim, x_dim) := dims in
  let '(yd, xd) := p in
  ((0 <=? yd) && (yd <? y_dim)) && ((0 <=? xd) && (xd <? x_dim)).

Definition valid_neighbors (ys xs : Z) (dims : Z * Z) : list (Z * Z) :=
  filter (in_bounds dims) (neighbors ys xs).

(** The cells of a grid of dimensions [dims]. *)
Definition cell_in_grid (dims : Z * Z) (p : Z * Z) : Prop :=
  0 <= fst p < fst dims /\ 0 <= snd p < snd dims.

(** ** Output and the monad of the code that prints *)

Definition stdout := list string.

(** A computation that may print and may raise: it maps the text printed
    so far to the text printed afterwards and a result. *)
Definition IO (A : Type) : Type := stdout -> stdout * result A.

Definition io_ret {A} (a : A) : IO A := fun out => (out, Ok a).

Definition io_bind {A B} (m : IO A) (k : A -> IO B) : IO B :=
  fun out =>
    match m out with
    | (out', Ok a) => k a out'
    | (out', Err e) => (out', Err e)
    end.

Definition io_lift {A} (r : result A) : IO A := fun out => (out, r).

Notation "x <~ m ;; k" := (io_bind m (fun x => k))
  (at level 61, m at next level, right associativity).
Notation "' p <~ m ;; k" := (io_bind m (fun p => k))
  (at level 61, p pattern, m at next level, right associativity).

(** [print(s, end=e)] *)
Definition print (s e : string) : IO unit :=
  fun out => (out ++ [(s ++ e)%string], Ok tt).

(** [for a in l: body], threading the loop's variables [S]. *)
Fixpoint for_each {A S} (l : list A) (body : A -> S -> IO S) (s : S) : IO S :=
  match l with
  | [] => io_ret s
  | a :: l' => s' <~ body a s ;; for_each l' body s'
  end.

(** ** numpy arrays

    A two-dimensional array (of pairs, for the arrays of shape (Y, X, 2) of
    the module) in row-major order, as numpy stores it. *)
Record ndarray (A : Type) : Type := mk_ndarray {
  shape0 : Z;
  shape1 : Z;
  flat : list A
}.
Arguments mk_ndarray {A}.
Arguments shape0 {A}.
Arguments shape1 {A}.
Arguments flat {A}.

Definition ndarray_wf {A} (a : ndarray A) : Prop :=
  0 <= shape0 a /\ 0 <= shape1 a /\
  Z.of_nat (List.length (flat a)) = shape0 a * shape1 a.

(** An index along an axis of length [n]: negative indices count from the
    end, anything else out of range raises IndexError. *)
Definition norm_index (i n : Z) : result Z :=
  if (0 <=? i) && (i <? n) then Ok i
  else if (- n <=? i) && (i <? 0) then Ok (i + n)
  else Err IndexError.

(** [a[y, x]] *)
Definition getitem2 {A} (a : ndarray A) (y x : Z) : result A :=
  y' <- norm_index y (shape0 a) ;;
  x' <- norm_index x (shape1 a) ;;
  match nth_error (flat a) (Z.to_nat (y' * shape1 a + x')) with
  | Some v => Ok v
  | None => Err IndexError
  end.

(** [np.array(rows)[::, 0], np.array(rows)[::, 1]] for a list of pairs: an
    empty list makes a one-dimensional array, which two indices do not fit. *)
Definition columns {A B} (rows : list (A * B)) : result (list A * list B) :=
  match rows with
  | [] => Err IndexError
  | _ => Ok (map fst rows, map snd rows)
  end.

(** [np.unravel_index(i, (y_dim, x_dim))] *)
Definition unravel_index (i : Z) (dims : Z * Z) : result (Z * Z) :=
  let '(y_dim, x_dim) := dims in
  if (0 <=? i) && (i <? y_dim * x_dim) then Ok (i / x_dim, i mod x_dim)
  else Err ValueError.

(** [x % m] of numpy on floats: the result has the sign of [m]. *)
Definition np_mod (x m : R) : R := (x - m * IZR (Int_part (x / m)))%R.

(** [np.radians] *)
Definition radians (deg : R) : R := (deg * PI / 180)%R.

(** ** Python dicts keyed by node ids (insertion-ordered) *)

Section Dict.
Context {V : Type}.

Definition dict : Type := list (NodeId * V).

Fixpoint dict_get (d : dict) (k : NodeId) : option V :=
  match d with
  | [] => None
  | (k', v) :: d' => if bytes_eq_dec k k' then Some v else dict_get d' k
  end.

Definition dict_mem (d : dict) (k : NodeId) : bool :=
  match dict_get d k with Some _ => true | None => false end.

(** [d[k] = v]: an existing key keeps its position. *)
Fixpoint dict_set (d : dict) (k : NodeId) (v : V) : dict :=
  match d with
  | [] => [(k, v)]
  | (k', v') :: d' =>
      if bytes_eq_dec k k' then (k, v) :: d' else (k', v') :: dict_set d' k v
  end.

Definition dict_keys (d : dict) : list NodeId := map fst d.
End Dict.
Arguments dict V : clear implicits.

(** ** networkx.DiGraph

    [_node] holds the nodes, [_succ] the adjacency (successors) with the
    attribute dict of every edge.  The predecessor dict mirrors [_succ] and
    is not read by the operations used here. *)
Record edge_attr : Type := mk_attr { weight : R; azimuth : R }.

Record DiGraph : Type := mk_DiGraph {
  _node : dict unit;
  _succ : dict (dict edge_attr)
}.

Definition empty_DiGraph : DiGraph := mk_DiGraph [] [].

Definition has_node (G : DiGraph) (n : NodeId) : bool := dict_mem (_node G) n.

Definition add_node_if_missing (G : DiGraph) (u : NodeId) : DiGraph :=
  if dict_mem (_succ G) u then G
  else mk_DiGraph (dict_set (_node G) u tt) (dict_set (_succ G) u []).

(** One step of [add_edges_from] for a 3-tuple [(u, v, dd)]: both nodes
    are added when missing and the attribute dict of the edge is updated
    with [dd], which sets both attributes. *)
Definition add_edge (G : DiGraph) (e : NodeId * NodeId * edge_attr) : DiGraph :=
  let '(u, v, dd) := e in
  let G1 := add_node_if_missing G u in
  let G2 := add_node_if_missing G1 v in
  let adj_u := match dict_get (_succ G2) u with Some a => a | None => [] end in
  mk_DiGraph (_node G2) (dict_set (_succ G2) u (dict_set adj_u v dd)).

Definition add_edges_from (G : DiGraph) (ebunch : list (NodeId * NodeId * edge_attr)) : DiGraph :=
  fold_left add_edge ebunch G.

(** [G.edges[(u, v)]] *)
Definition edges_getitem (G : DiGraph) (u v : NodeId) : result edge_attr :=
  match dict_get (_succ G) u with
  | Some adj => match dict_get adj v with Some a => Ok a | None => Err KeyError end
  | None => Err KeyError
  end.

(** ** scipy.spatial.KDTree

    The tree is modelled by the points it was built from; a query returns
    the distance to and the position of a nearest point (the first one
    among equally near points). *)
Definition KDTree : Type := list (R * R).

Definition KDTree_new (data : list (R * R)) : result KDTree :=
  match data with
  | [] => Err ValueError
  | _ => Ok data
  end.

Definition sq_dist (p q : R * R) : R :=
  ((fst p - fst q) ^ 2 + (snd p - snd q) ^ 2)%R.

Fixpoint nearest_from (p : R * R) (best_i : nat) (best : R * R) (i : nat)
    (l : list (R * R)) : nat * (R * R) :=
  match l with
  | [] => (best_i, best)
  | q :: l' =>
      if Rlt_dec (sq_dist p q) (sq_dist p best)
      then nearest_from p i q (S i) l'
      else nearest_from p best_i best (S i) l'
  end.

Definition KDTree_query (tree : KDTree) (p : R * R) : R * Z :=
  match tree with
  | [] => (0%R, 0)
  | q0 :: l =>
      let '(i, q) := nearest_from p 0%nat q0 1%nat l in
      (sqrt (sq_dist p q), Z.of_nat i)
  end.

(** ** networkx shortest paths

    [dijkstra_path] as networkx implements it
    ([multi_source_dijkstra] with one source, [_dijkstra_multisource]).
    Releases differ in where the source is looked up in the graph, before
    or after the test [target in sources]; that changes the outcome only
    for a source that is the target and is not in the graph, a case on
    which no property below relies.
    The heap of 3-tuples (distance, counter, node) is modelled by the bag
    of its entries: the counters are pairwise different, so the smallest
    tuple is determined by the entries alone. *)

Definition heap_entry : Type := R * nat * NodeId.

(** Tuple comparison on the first two components. *)
Definition entry_lt (a b : heap_entry) : bool :=
  let '(da, ca, _) := a in
  let '(db, cb, _) := b in
  if Req_dec_T da db then (ca <? cb)%nat
  else if Rlt_dec da db then true else false.

Fixpoint pop_min (best : heap_entry) (rest : list heap_entry) : heap_entry * list heap_entry :=
  match rest with
  | [] => (best, [])
  | e :: rest' =>
      if entry_lt e best
      then let '(m, r) := pop_min e rest' in (m, best :: r)
      else let '(m, r) := pop_min best rest' in (m, e :: r)
  end.

Definition heappop (h : list heap_entry) : option (heap_entry * list heap_entry) :=
  match h with
  | [] => None
  | e :: r => Some (pop_min e r)
  end.

Record dijkstra_state : Type := mk_dstate {
  dist : dict R;                 (* final distances *)
  seen : dict R;
  paths : dict (list NodeId);
  fringe : list heap_entry;
  counter : nat
}.

Definition dict_getitem {V} (d : dict V) (k : NodeId) : result V :=
  match dict_get d k with Some v => Ok v | None => Err KeyError end.

(** The body of [for u, e in G_succ[v].items()]. *)
Definition relax (v : NodeId) (st : dijkstra_state) (ue : NodeId * edge_attr)
    : result dijkstra_state :=
  let '(u, e) := ue in
  let cost := weight e in
  dv <- dict_getitem (dist st) v ;;
  let vu_dist := (dv + cost)%R in
  let update :=
    pv <- dict_getitem (paths st) v ;;
    Ok (mk_dstate (dist st) (dict_set (seen st) u vu_dist)
                  (dict_set (paths st) u (pv ++ [u]))
                  ((vu_dist, counter st, u) :: fringe st) (S (counter st))) in
  match dict_get (dist st) u with
  | Some u_dist => if Rlt_dec vu_dist u_dist then Err ValueError else Ok st
  | None =>
      match dict_get (seen st) u with
      | None => update
      | Some seen_u => if Rlt_dec vu_dist seen_u then update else Ok st
      end
  end.

Fixpoint foldM {A S} (f : S -> A -> result S) (l : list A) (s : S) : result S :=
  match l with
  | [] => Ok s
  | a :: l' => s' <- f s a ;; foldM f l' s'
  end.

(** [while fringe: ...]; [None] when [fuel] iterations were not enough. *)
Fixpoint dijkstra_loop (fuel : nat) (G : DiGraph) (target : NodeId) (st : dijkstra_state)
    : option (result dijkstra_state) :=
  match fuel with
  | O => None
  | S fuel' =>
      match heappop (fringe st) with
      | None => Some (Ok st)
      | Some ((d, _, v), fringe') =>
          let st := mk_dstate (dist st) (seen st) (paths st) fringe' (counter st) in
          if dict_mem (dist st) v then dijkstra_loop fuel' G target st
          else
            let st := mk_dstate (dict_set (dist st) v d) (seen st) (paths st)
                                (fringe st) (counter st) in
            if bytes_eq_dec v target then Some (Ok st)
            else
              match dict_getitem (_succ G) v with
              | Err e => Some (Err e)
              | Ok adj =>
                  match foldM (relax v) adj st with
                  | Err e => Some (Err e)
                  | Ok st' => dijkstra_loop fuel' G target st'
                  end
              end
      end
  end.

(** A number of iterations that the loop never exceeds (see
    [dijkstra_loop_terminates]): every node is searched once and pushes at
    most one entry per outgoing edge. *)
Definition dijkstra_fuel (G : DiGraph) : nat :=
  S (S (fold_right (fun '(_, adj) n => (S (List.length adj) + n)%nat) 0%nat (_succ G))).

Definition _dijkstra_multisource (G : DiGraph) (source target : NodeId)
    : result dijkstra_state :=
  let st := mk_dstate [] [(source, 0%R)] [(source, [source])] [(0%R, 0%nat, source)] 1%nat in
  match dijkstra_loop (dijkstra_fuel G) G target st with
  | Some r => r
  | None => Err ValueError  (* not reached, by dijkstra_loop_terminates *)
  end.

Definition multi_source_dijkstra (G : DiGraph) (source target : NodeId)
    : result (R * list NodeId) :=
  if negb (has_node G source) then Err NodeNotFound
  else if bytes_eq_dec target source then Ok (0%R, [target])
  else
    st <- _dijkstra_multisource G source target ;;
    match dict_get (dist st) target, dict_get (paths st) target with
    | Some d, Some p => Ok (d, p)
    | _, _ => Err NetworkXNoPath
    end.

Definition dijkstra_path (G : DiGraph) (source target : NodeId) : result (list NodeId) :=
  ' (length, path) <- multi_source_dijkstra G source target ;;
  Ok path.

(** [l[i]] for a Python list and [i >= 0]. *)
Definition list_getitem {A} (l : list A) (i : nat) : result A :=
  match nth_error l i with Some a => Ok a | None => Err IndexError end.

(** ** pyproj.Geod(ellps='WGS84')

    [inv lon1 lat1 lon2 lat2] is the forward azimuth, the back azimuth and
    the distance of the geodesic from point 1 to point 2. *)
Class Geod : Type := { inv : R -> R -> R -> R -> R * R * R }.

(** ** The navigation module *)

Record ModuleNavigation : Type := mk_ModuleNavigation {
  latlons : ndarray (R * R);
  currents : ndarray (R * R);
  timestep : R;
  verbose : bool;
  nav_graph : option DiGraph;
  kdtree : option KDTree
}.

(** Reading an attribute that [__init__] has not bound yet. *)
Definition attr {A} (o : option A) : result A :=
  match o with Some a => Ok a | None => Err AttributeError end.

Definition fill_default : string :=
  String (ascii_of_nat 226) (String (ascii_of_nat 150) (String (ascii_of_nat 136) EmptyString)).

Definition CR : string := String (ascii_of_nat 13) EmptyString.
Definition LF : string := String (ascii_of_nat 10) EmptyString.

Fixpoint str_repeat (s : string) (n : nat) : string :=
  match n with
  | O => EmptyString
  | S n' => (s ++ str_repeat s n')%string
  end.

(** [s * n] of Python: empty for [n <= 0]. *)
Definition str_mul (s : string) (n : Z) : string := str_repeat s (Z.to_nat n).

Definition str_of_Z (z : Z) : string := NilZero.string_of_int (Z.to_int z).

Definition print_progress_bar (iteration total : Z) (length : Z) (fill : string) : IO unit :=
  let prefix := "Transforming Map: "%string in
  filled_length <~ io_lift (if total =? 0 then Err ZeroDivisionError
                            else Ok (length * iteration / total)) ;;
  let bar := (str_mul fill filled_length ++ str_mul "-" (length - filled_length))%string in
  u <~ print (CR ++ " " ++ prefix ++ " |" ++ bar ++ "| " ++ str_of_Z iteration
              ++ " of " ++ str_of_Z total ++ " nodes")%string CR ;;
  if iteration =? total then print EmptyString LF else io_ret tt.

Section Model.
Context {geod : Geod}.

Definition _get_neighbors (self : ModuleNavigation) (ys xs : Z) (dims : Z * Z)
    : result (list (NodeId * NodeId * edge_attr)) :=
  src <- _encode_node_id (ys, xs) ;;
  ' (lat_src, lon_src) <- getitem2 (latlons self) ys xs ;;
  let valid_neighbors := valid_neighbors ys xs dims in
  coords_adj <- mapM (fun '(yd, xd) => getitem2 (latlons self) yd xd) valid_neighbors ;;
  ' (lats_adj, lons_adj) <- columns coords_adj ;;
  let geod_out := map (fun '(lat, lon) => inv lon_src lat_src lon lat)
                      (combine lats_adj lons_adj) in
  let azimuth := map (fun o => fst (fst o)) geod_out in
  let dist_adj := map snd geod_out in
  let theta_adj := map (fun a => np_mod a 360) azimuth in
  let velocity := map (fun d => (d / timestep self)%R) dist_adj in
  let u_adj := map (fun '(vel, th) => (vel * sin (radians th))%R) (combine velocity theta_adj) in
  let v_adj := map (fun '(vel, th) => (vel * cos (radians th))%R) (combine velocity theta_adj) in
  ' (current_u, current_v) <- getitem2 (currents self) ys xs ;;
  let u := map (fun a => (a - current_u)%R) u_adj in
  let v := map (fun a => (a - current_v)%R) v_adj in
  let w_adj := map (fun '(u, v) => sqrt (u ^ 2 + v ^ 2)) (combine u v) in
  dest_ids <- mapM _encode_node_id valid_neighbors ;;
  Ok (map (fun '(dest, (w, theta)) => (src, dest, mk_attr w theta))
          (combine dest_ids (combine w_adj theta_adj))).

Definition _transform_map (self : ModuleNavigation) : IO DiGraph :=
  let currents_graph := empty_DiGraph in
  let y_dim := shape0 (currents self) in
  let x_dim := shape1 (currents self) in
  let idx := 0 in
  ' (idx, currents_graph) <~
    for_each (range y_dim) (fun y =>
      for_each (range x_dim) (fun x '(idx, currents_graph) =>
        idx <~ (if verbose self
                then let idx := idx + 1 in
                     u <~ print_progress_bar idx (y_dim * x_dim) 50 fill_default ;;
                     io_ret idx
                else io_ret idx) ;;
        ns <~ io_lift (_get_neighbors self y x (y_dim, x_dim)) ;;
        io_ret (idx, add_edges_from currents_graph ns)))
      (idx, currents_graph) ;;
  io_ret currents_graph.

Definition _build_tree (self : ModuleNavigation) : result KDTree :=
  let model_grid := combine (map fst (flat (latlons self))) (map snd (flat (latlons self))) in
  KDTree_new model_grid.

Definition __init__ (nav_timestep : R) (latlons currents : ndarray (R * R)) (verbose : bool)
    : IO ModuleNavigation :=
  let self := mk_ModuleNavigation latlons currents nav_timestep verbose None None in
  g <~ _transform_map self ;;
  let self := mk_ModuleNavigation latlons currents nav_timestep verbose (Some g) None in
  t <~ io_lift (_build_tree self) ;;
  io_ret (mk_ModuleNavigation latlons currents nav_timestep verbose (Some g) (Some t)).

(** The attributes are assigned one after the other: when the rebuild
    raises, the object keeps the new arrays and the old graph.  The
    state after the call is returned together with the call's result. *)
Definition set_currents_map (self : ModuleNavigation) (latlons currents : ndarray (R * R))
    : stdout -> stdout * (ModuleNavigation * result unit) :=
  fun out =>
    let self := mk_ModuleNavigation latlons currents (timestep self) (verbose self)
                                    (nav_graph self) (kdtree self) in
    match _transform_map self out with
    | (out', Ok g) =>
        (out', (mk_ModuleNavigation latlons currents (timestep self) (verbose self)
                                    (Some g) (kdtree self), Ok tt))
    | (out', Err e) => (out', (self, Err e))
    end.

Definition _geo_idx (self : ModuleNavigation) (geo_pos : R * R) : result (Z * Z) :=
  let '(lat, lon) := geo_pos in
  tree <- attr (kdtree self) ;;
  let result := KDTree_query tree (lat, lon) in
  unravel_index (snd result) (shape0 (latlons self), shape1 (latlons self)).

Definition get_current (self : ModuleNavigation) (geo_pos : R * R) : result (R * R) :=
  ' (y, x) <- _geo_idx self geo_pos ;;
  getitem2 (currents self) y x.

Definition get_next_azimuth (self : ModuleNavigation) (geo_pos geo_dest : R * R)
    : result (R * list (R * R)) :=
  idx_pos <- _geo_idx self geo_pos ;;
  idx_dest <- _geo_idx self geo_dest ;;
  src_node <- _encode_node_id idx_pos ;;
  dest_node <- _encode_node_id idx_dest ;;
  G <- attr (nav_graph self) ;;
  shortest_path <- dijkstra_path G src_node dest_node ;;
  next_node <- list_getitem shortest_path 1 ;;
  e <- edges_getitem G src_node next_node ;;
  let next_az := azimuth e in
  path_ids <- mapM _decode_node_id shortest_path ;;
  path_coords <- mapM (fun '(y, x) => getitem2 (latlons self) y x) path_ids ;;
  Ok (next_az, path_coords).
End Model.

(** ** Vocabulary of the properties

    The definitions below are not part of the program: they name what the
    design document talks about, so that the program can be compared with
    it. *)

(** The cells of a grid, row by row. *)
Definition all_cells (dims : Z * Z) : list (Z * Z) :=
  flat_map (fun y => map (fun x => (y, x)) (range (snd dims))) (range (fst dims)).

(** Two different cells that a king of chess joins in one move. *)
Definition king_move (s d : Z * Z) : Prop :=
  s <> d /\ Z.abs (fst d - fst s) <= 1 /\ Z.abs (snd d - snd s) <= 1.

(** The entry of a well-formed array at an in-bounds cell. *)
Definition cell {A} (default : A) (a : ndarray A) (p : Z * Z) : A :=
  nth (Z.to_nat (fst p * shape1 a + snd p)) (flat a) default.

Definition coord_at (self : ModuleNavigation) (p : Z * Z) : R * R :=
  cell (0%R, 0%R) (latlons self) p.

Definition flow_at (self : ModuleNavigation) (p : Z * Z) : R * R :=
  cell (0%R, 0%R) (currents self) p.

Definition node_of (p : Z * Z) : NodeId := pack_I (fst p) ++ pack_I (snd p).

(** The arrays of a module are well-formed, every cell of the flow field
    has a coordinate (the two arrays are meant to have the same shape),
    and the shape fits the node ids. *)
Definition grid_wf (self : ModuleNavigation) : Prop :=
  ndarray_wf (latlons self) /\ ndarray_wf (currents self) /\
  shape0 (currents self) <= shape0 (latlons self) /\
  shape1 (currents self) <= shape1 (latlons self) /\
  shape0 (currents self) <= UINT_MAX + 1 /\
  shape1 (currents self) <= UINT_MAX + 1.

Definition grid_dims (self : ModuleNavigation) : Z * Z :=
  (shape0 (currents self), shape1 (currents self)).

Section Spec.
Context {geod : Geod}.

(** Forward azimuth and distance between two (lat, lon) coordinates. *)
Definition forward_azimuth (src dst : R * R) : R :=
  fst (fst (inv (snd src) (fst src) (snd dst) (fst dst))).

Definition geodesic_distance (src dst : R * R) : R :=
  snd (inv (snd src) (fst src) (snd dst) (fst dst)).

(** The azimuth normalised to [0, 360). *)
Definition theta (src dst : R * R) : R := np_mod (forward_azimuth src dst) 360.

(** Edge cost in the words of the design: the magnitude of the required
    ground velocity minus the flow at the source. *)
Definition spec_cost (nav_timestep : R) (src dst flow : R * R) : R :=
  let d := geodesic_distance src dst in
  let th := radians (theta src dst) in
  let u_net := (d / nav_timestep * sin th - fst flow)%R in
  let v_net := (d / nav_timestep * cos th - snd flow)%R in
  sqrt (u_net ^ 2 + v_net ^ 2).

Definition spec_edge (self : ModuleNavigation) (s d : Z * Z) : NodeId * NodeId * edge_attr :=
  (node_of s, node_of d,
   mk_attr (spec_cost (timestep self) (coord_at self s) (coord_at self d) (flow_at self s))
           (theta (coord_at self s) (coord_at self d))).

(** The edges leaving a cell, and all the edges of the grid, in the
    order in which [_transform_map] adds them. *)
Definition cell_edges (self : ModuleNavigation) (s : Z * Z) : list (NodeId * NodeId * edge_attr) :=
  map (spec_edge self s) (valid_neighbors (fst s) (snd s) (grid_dims self)).

Definition grid_edges (self : ModuleNavigation) : list (NodeId * NodeId * edge_attr) :=
  flat_map (cell_edges self) (all_cells (grid_dims self)).

(** [_transform_map] without its output. *)
Definition build_graph (self : ModuleNavigation) : result DiGraph :=
  foldM (fun G c =>
           ns <- _get_neighbors self (fst c) (snd c) (grid_dims self) ;;
           Ok (add_edges_from G ns))
        (all_cells (grid_dims self)) empty_DiGraph.
End Spec.

(** The invariant of the graphs of networkx: the nodes are the keys of the
    adjacency, no key is repeated, and every neighbour is a node. *)
Definition graph_wf (G : DiGraph) : Prop :=
  NoDup (dict_keys (_succ G)) /\
  (forall n, dict_mem (_node G) n = dict_mem (_succ G) n) /\
  (forall u adj, dict_get (_succ G) u = Some adj ->
     NoDup (dict_keys adj) /\
     forall v a, In (v, a) adj -> dict_mem (_succ G) v = true).

(** The loop variables of [_transform_map] end with the graph, or the
    loop with the exception, of a computation without output. *)
Definition same_graph (r : result (Z * DiGraph)) (g : result DiGraph) : Prop :=
  match r, g with
  | Ok (_, G), Ok G' => G = G'
  | Err e, Err e' => e = e'
  | _, _ => False
  end.

(** [G.number_of_edges()] *)
Definition number_of_edges (G : DiGraph) : nat :=
  fold_right (fun '(_, adj) n => (List.length adj + n)%nat) 0%nat (_succ G).

(** Paths and reachability in a graph. *)
Definition has_edge (G : DiGraph) (u v : NodeId) : Prop :=
  exists adj a, dict_get (_succ G) u = Some adj /\ dict_get adj v = Some a.

(** [G] holds edges of the list [es] only, all of them up to their
    attributes, and no node besides their end points. *)
Definition built_from (es : list (NodeId * NodeId * edge_attr)) (G : DiGraph) : Prop :=
  graph_wf G /\
  (forall u adj v a, dict_get (_succ G) u = Some adj -> In (v, a) adj -> In (u, v, a) es) /\
  (forall u v a, In (u, v, a) es -> has_edge G u v) /\
  (forall n, dict_mem (_succ G) n = true ->
     exists u v a, In (u, v, a) es /\ (n = u \/ n = v)).

Inductive reachable (G : DiGraph) (s : NodeId) : NodeId -> Prop :=
| reach_refl : reachable G s s
| reach_step u v : reachable G s u -> has_edge G u v -> reachable G s v.

(** ** Vocabulary of the search *)

Definition entry_key (e : heap_entry) : R := fst (fst e).
Definition entry_node (e : heap_entry) : NodeId := snd e.

(** The work that the search has left: the entries of the heap, and one
    unit per node not yet searched and per edge leaving such a node. *)
Definition unsearched (G : DiGraph) (D : dict R) : nat :=
  fold_right (fun '(k, adj) n =>
                if dict_mem D k then n else (S (List.length adj) + n)%nat)
             0%nat (_succ G).

Definition work_left (G : DiGraph) (st : dijkstra_state) : nat :=
  (List.length (fringe st) + unsearched G (dist st))%nat.

Definition nonneg_weights (G : DiGraph) : Prop :=
  forall u adj v a, dict_get (_succ G) u = Some adj -> In (v, a) adj -> (0 <= weight a)%R.

(** The state in which [_dijkstra_multisource] enters its loop. *)
Definition dijkstra_init (source : NodeId) : dijkstra_state :=
  mk_dstate [] [(source, 0%R)] [(source, [source])] [(0%R, 0%nat, source)] 1%nat.

(** The state after a relaxation that found a shorter way to [u]. *)
Definition pushed (v : NodeId) (st : dijkstra_state) (u : NodeId) (vu_dist : R)
    (pv : list NodeId) : dijkstra_state :=
  mk_dstate (dist st) (dict_set (seen st) u vu_dist) (dict_set (paths st) u (pv ++ [u]))
            ((vu_dist, counter st, u) :: fringe st) (S (counter st)).

(** What holds of the state of the search from [s] at every turn of the
    loop: the nodes of the heap are reachable nodes of the graph that have
    a path, the nodes with a final distance are reachable, and no final
    distance exceeds an entry of the heap. *)
Definition search_inv (G : DiGraph) (s : NodeId) (st : dijkstra_state) : Prop :=
  (forall e, In e (fringe st) ->
     reachable G s (entry_node e) /\ dict_mem (_succ G) (entry_node e) = true /\
     dict_mem (paths st) (entry_node e) = true) /\
  (forall v, dict_mem (dist st) v = true -> reachable G s v) /\
  (forall u du e, dict_get (dist st) u = Some du -> In e (fringe st) ->
     (du <= entry_key e)%R).

(** The same while the edges of [v], popped with distance [d], are
    relaxed. *)
Definition relax_inv (G : DiGraph) (s v : NodeId) (d : R) (st : dijkstra_state) : Prop :=
  (forall e, In e (fringe st) ->
     reachable G s (entry_node e) /\ dict_mem (_succ G) (entry_node e) = true /\
     dict_mem (paths st) (entry_node e) = true) /\
  (forall u, dict_mem (dist st) u = true -> reachable G s u) /\
  dict_get (dist st) v = Some d /\
  (forall u du, dict_get (dist st) u = Some du -> (du <= d)%R) /\
  (forall e, In e (fringe st) -> (d <= entry_key e)%R) /\
  dict_mem (paths st) v = true /\
  reachable G s v.

(** ** Vocabulary of a route between two cells

    For a search from the cell [cs] to the cell [ct] of the grid of
    [self]. *)
Section RouteVocabulary.
Context {geod : Geod}.
Variable self : ModuleNavigation.
Variables cs ct : Z * Z.

(** The speed that the hop from [a] to [b] requires over the ground. *)
Definition hop_cost (a b : Z * Z) : R :=
  (geodesic_distance (coord_at self a) (coord_at self b) / timestep self)%R.

(** [x] is a distance to the node [v] of a cell, and not less than the
    cost of the direct hop from the source to that cell. *)
Definition at_least_direct (v : NodeId) (x : R) : Prop :=
  exists cv, cell_in_grid (grid_dims self) cv /\ v = node_of cv /\
             (hop_cost cs cv <= x)%R.

(** The direct hop to the destination has been found: it is the path
    of the destination, which waits in the heap. *)
Definition first_hop_found (st : dijkstra_state) : Prop :=
  dict_get (dist st) (node_of ct) = None /\
  (exists x, dict_get (seen st) (node_of ct) = Some x /\ (x <= hop_cost cs ct)%R) /\
  dict_get (paths st) (node_of ct) = Some [node_of cs; node_of ct] /\
  exists e, In e (fringe st) /\ entry_node e = node_of ct.

(** The source is being searched and the destination not yet seen. *)
Definition first_hop_pending (st : dijkstra_state) : Prop :=
  dict_get (dist st) (node_of ct) = None /\
  dict_get (seen st) (node_of ct) = None /\
  dict_get (paths st) (node_of cs) = Some [node_of cs] /\
  dict_get (dist st) (node_of cs) = Some 0%R.

Definition heap_at_least_direct (st : dijkstra_state) : Prop :=
  forall e, In e (fringe st) -> at_least_direct (entry_node e) (entry_key e).

(** The invariant of the loop of the search, and what holds when the
    loop is left. *)
Definition route_inv (G : DiGraph) (st : dijkstra_state) : Prop :=
  search_inv G (node_of cs) st /\
  (st = dijkstra_init (node_of cs) \/
   (heap_at_least_direct st /\ first_hop_found st)).

Definition route_done (st : dijkstra_state) : Prop :=
  (exists d, dict_get (dist st) (node_of ct) = Some d) /\
  dict_get (paths st) (node_of ct) = Some [node_of cs; node_of ct].
End RouteVocabulary.

(** ** A small instance

    A stand-in for the geodesy (azimuth 0, taxicab distance) and a grid of
    two rows and two columns in still water, on which the properties
    below are instantiated. *)
Definition taxicab_geod : Geod :=
  {| inv := fun lon1 lat1 lon2 lat2 =>
              (0%R, 0%R, (Rabs (lon2 - lon1) + Rabs (lat2 - lat1))%R) |}.

Definition square_latlons : ndarray (R * R) :=
  mk_ndarray 2 2 [(0, 0); (0, 1); (1, 0); (1, 1)]%R.

Definition still_water : ndarray (R * R) :=
  mk_ndarray 2 2 [(0, 0); (0, 0); (0, 0); (0, 0)]%R.

Definition square_module : ModuleNavigation :=
  mk_ModuleNavigation square_latlons still_water 3600%R false None None.

Definition square_graph : DiGraph :=
  add_edges_from empty_DiGraph (@grid_edges taxicab_geod square_module).

(** The module that [__init__] makes of the small instance. *)
Definition square_engine : ModuleNavigation :=
  mk_ModuleNavigation square_latlons still_water 3600%R false
                      (Some square_graph) (Some (flat square_latlons)).

(** A second field for the same cells: the coordinates in the opposite
    order and a different flow in every cell. *)
Definition mirrored_latlons : ndarray (R * R) :=
  mk_ndarray 2 2 [(1, 1); (1, 0); (0, 1); (0, 0)]%R.

Definition streams : ndarray (R * R) :=
  mk_ndarray 2 2 [(1, 0); (2, 0); (3, 0); (4, 0)]%R.

(** A grid of a single cell. *)
Definition single_cell_module : ModuleNavigation :=
  mk_ModuleNavigation (mk_ndarray 1 1 [(0, 0)]%R) (mk_ndarray 1 1 [(0, 0)]%R)
                      3600%R false None None.

(** A flow field that covers the first row of the small grid only. *)
Definition first_row_flow : ndarray (R * R) :=
  mk_ndarray 1 2 [(0, 0); (0, 0)]%R.

(** The module that [__init__] makes of the small grid and that flow
    field: its graph has the cells of the first row only. *)
Definition first_row_graph : DiGraph :=
  add_edges_from empty_DiGraph
    (@grid_edges taxicab_geod
       (mk_ModuleNavigation square_latlons first_row_flow 3600%R false None None)).

Definition first_row_engine : ModuleNavigation :=
  mk_ModuleNavigation square_latlons first_row_flow 3600%R false
                      (Some first_row_graph) (Some (flat square_latlons)).

(** ** The state of a module between calls

    The arrays have the same well-formed shape and the graph is the one
    built from them.  The tree is left out: see
    [set_currents_map_keeps_kdtree]. *)
Definition engine_ok {geod : Geod} (self : ModuleNavigation) : Prop :=
  grid_wf self /\
  shape0 (latlons self) = shape0 (currents self) /\
  shape1 (latlons self) = shape1 (currents self) /\
  exists G, nav_graph self = Some G /\ build_graph self = Ok G.

(** The tree of the module holds the coordinates of its grid, cell by
    cell in row-major order, as after [__init__]. *)
Definition tree_fresh (self : ModuleNavigation) : Prop :=
  kdtree self = Some (flat (latlons self)).

(** Two arrays that a module can be made of: well-formed, of the same
    shape, and of dimensions that fit the node ids. *)
Definition arrays_ok (grid flow : ndarray (R * R)) : Prop :=
  ndarray_wf grid /\ ndarray_wf flow /\
  shape0 grid = shape0 flow /\ shape1 grid = shape1 flow /\
  shape0 flow <= UINT_MAX + 1 /\ shape1 flow <= UINT_MAX + 1.

(** A walk of the graph from [s]: the node it ends in, the nodes it
    visits and its cost, the sum of the weights of its edges. *)
Inductive walk_to (G : DiGraph) (s : NodeId) : NodeId -> list NodeId -> R -> Prop :=
| walk_start : walk_to G s s [s] 0%R
| walk_edge v u p c adj a :
    walk_to G s v p c ->
    dict_get (_succ G) v = Some adj -> dict_get adj u = Some a ->
    walk_to G s u (p ++ [u]) (c + weight a)%R.

(** The edges of the searched node [x] have been relaxed: each of its
    neighbours has been seen at no more than the distance through [x]. *)
Definition edges_seen (G : DiGraph) (st : dijkstra_state) (x : NodeId) : Prop :=
  forall dx adj y a,
    dict_get (dist st) x = Some dx ->
    dict_get (_succ G) x = Some adj -> dict_get adj y = Some a ->
    exists sy, dict_get (seen st) y = Some sy /\ (sy <= dx + weight a)%R.

(** What the search from [s] keeps besides [search_inv]: the distance at
    which a node was seen is the cost of its path, a final distance is the
    distance at which the node was seen, a node seen and not yet searched
    waits in the heap with that distance and with no smaller one, and the
    source was seen at distance zero. *)
Definition shortest_inv (G : DiGraph) (s : NodeId) (st : dijkstra_state) : Prop :=
  (forall u x, dict_get (seen st) u = Some x ->
     exists p, dict_get (paths st) u = Some p /\ walk_to G s u p x) /\
  (forall u d, dict_get (dist st) u = Some d -> dict_get (seen st) u = Some d) /\
  (forall y sy, dict_get (dist st) y = None -> dict_get (seen st) y = Some sy ->
     exists c, In (sy, c, y) (fringe st)) /\
  (forall x c u, In (x, c, u) (fringe st) -> dict_get (dist st) u = None ->
     exists su, dict_get (seen st) u = Some su /\ (su <= x)%R) /\
  (exists x, dict_get (seen st) s = Some x /\ (x <= 0)%R).

(** No node is seen farther in [st'] than in [st]. *)
Definition seen_le (st st' : dijkstra_state) : Prop :=
  forall y sy, dict_get (seen st) y = Some sy ->
    exists sy', dict_get (seen st') y = Some sy' /\ (sy' <= sy)%R.

(** What holds when the search for [t] is over. *)
Definition shortest_done (G : DiGraph) (s t : NodeId) (st : dijkstra_state) : Prop :=
  (forall d, dict_get (dist st) t = Some d ->
     exists p, dict_get (paths st) t = Some p /\ walk_to G s t p d /\
               forall q c, walk_to G s t q c -> (d <= c)%R) /\
  (dict_mem (dist st) t = true \/
   forall v, reachable G s v -> dict_mem (dist st) v = true).

Section RouteCost.
Context {geod : Geod}.

(** A route over the grid of [self] from the cell [cs]: the cell it ends
    in, the cells it visits, each a king move from the one before, and
    its cost, the sum of the costs of its hops. *)
Inductive route_to (self : ModuleNavigation) (cs : Z * Z)
    : Z * Z -> list (Z * Z) -> R -> Prop :=
| route_here : route_to self cs cs [cs] 0%R
| route_hop a b l c :
    route_to self cs a l c ->
    cell_in_grid (grid_dims self) b -> king_move a b ->
    route_to self cs b (l ++ [b])
      (c + spec_cost (timestep self) (coord_at self a) (coord_at self b) (flow_at self a))%R.
End RouteCost.

(** The line that [print_progress_bar] writes for [iteration] of [total],
    with its default bar of 50 marks. *)
Definition progress_line (iteration total : Z) : string :=
  let filled_length := 50 * iteration / total in
  let bar := (str_mul fill_default filled_length ++ str_mul "-" (50 - filled_length))%string in
  ((CR ++ " " ++ "Transforming Map: " ++ " |" ++ bar ++ "| " ++ str_of_Z iteration
       ++ " of " ++ str_of_Z total ++ " nodes") ++ CR)%string.

(** The paths of the search visit no node twice, and besides their last
    node only nodes that have been searched. *)
Definition simple_inv (st : dijkstra_state) : Prop :=
  forall u p, dict_get (paths st) u = Some p ->
    NoDup p /\ forall w, In w p -> w = u \/ dict_mem (dist st) w = true.

(** * Properties *)

Lemma byte_of_Z_of_byte (z : Z) :
  0 <= z < 256 -> Z_of_byte (byte_of_Z z) = z.
Proof.
  intros Hz. unfold Z_of_byte, byte_of_Z.
  rewrite Z.mod_small by lia.
  destruct (Byte.of_N (Z.to_N z)) as [b|] eqn:E.
  - apply Byte.to_of_N in E. rewrite E. lia.
  - apply Byte.of_N_None_iff in E. lia.
Qed.

Lemma Z_of_byte_mod (z : Z) : Z_of_byte (byte_of_Z z) = z mod 256.
Proof.
  assert (H : byte_of_Z z = byte_of_Z (z mod 256)).
  { unfold byte_of_Z. now rewrite Z.mod_mod by lia. }
  rewrite H. apply byte_of_Z_of_byte. apply Z.mod_pos_bound. lia.
Qed.

Lemma unpack_pack_I (n : Z) :
  0 <= n <= UINT_MAX ->
  match pack_I n with
  | [b0; b1; b2; b3] => unpack_I b0 b1 b2 b3 = n
  | _ => False
  end.
Proof.
  unfold UINT_MAX. intros Hn. cbn [pack_I]. unfold unpack_I.
  rewrite !Z_of_byte_mod.
  pose proof (Z.div_mod n 256 ltac:(lia)).
  pose proof (Z.mod_pos_bound n 256 ltac:(lia)).
  pose proof (Z.div_mod (n / 256) 256 ltac:(lia)).
  pose proof (Z.mod_pos_bound (n / 256) 256 ltac:(lia)).
  pose proof (Z.div_mod (n / 65536) 256 ltac:(lia)).
  pose proof (Z.mod_pos_bound (n / 65536) 256 ltac:(lia)).
  assert (E1 : n / 65536 = n / 256 / 256) by (rewrite Z.div_div by lia; reflexivity).
  assert (E2 : n / 16777216 = n / 65536 / 256) by (rewrite Z.div_div by lia; reflexivity).
  assert (0 <= n / 16777216 < 256).
  { split; [apply Z.div_pos; lia | apply Z.div_lt_upper_bound; lia]. }
  rewrite (Z.mod_small (n / 16777216)) by lia.
  lia.
Qed.

Lemma fits_I_spec (n : Z) : fits_I n = true <-> 0 <= n <= UINT_MAX.
Proof. unfold fits_I. rewrite andb_true_iff, Z.leb_le, Z.leb_le. tauto. Qed.

Lemma encode_ok (y x : Z) :
  0 <= y <= UINT_MAX -> 0 <= x <= UINT_MAX ->
  _encode_node_id (y, x) = Ok (pack_I y ++ pack_I x).
Proof.
  intros Hy Hx. cbn. unfold struct_pack_II.
  now rewrite (proj2 (fits_I_spec y) Hy), (proj2 (fits_I_spec x) Hx).
Qed.

Lemma encode_inv (p : Z * Z) (n : NodeId) :
  _encode_node_id p = Ok n ->
  (0 <= fst p <= UINT_MAX) /\ (0 <= snd p <= UINT_MAX) /\
  n = pack_I (fst p) ++ pack_I (snd p).
Proof.
  destruct p as [y x]. cbn. unfold struct_pack_II.
  destruct (fits_I y) eqn:Ey; destruct (fits_I x) eqn:Ex; cbn; try discriminate.
  intros [= <-]. apply fits_I_spec in Ey, Ex. auto.
Qed.

Lemma decode_pack (y x : Z) :
  0 <= y <= UINT_MAX -> 0 <= x <= UINT_MAX ->
  _decode_node_id (pack_I y ++ pack_I x) = Ok (y, x).
Proof.
  intros Hy Hx.
  pose proof (unpack_pack_I y Hy) as Py. pose proof (unpack_pack_I x Hx) as Px.
  unfold pack_I in *. cbn [app]. unfold _decode_node_id, struct_unpack_II.
  now rewrite Py, Px.
Qed.

Lemma decode_encode (p : Z * Z) (n : NodeId) :
  _encode_node_id p = Ok n -> _decode_node_id n = Ok p.
Proof.
  intros H. apply encode_inv in H. destruct H as (Hy & Hx & ->).
  destruct p as [y x]. now apply decode_pack.
Qed.

Lemma encode_inj (p q : Z * Z) (n : NodeId) :
  _encode_node_id p = Ok n -> _encode_node_id q = Ok n -> p = q.
Proof.
  intros Hp Hq. apply decode_encode in Hp, Hq. congruence.
Qed.

(** ** Node ids: round trip and injectivity *)

Lemma in_bounds_spec (dims p : Z * Z) :
  in_bounds dims p = true <-> cell_in_grid dims p.
Proof.
  destruct dims as [yd xd], p as [y x]. unfold in_bounds, cell_in_grid. cbn.
  rewrite !andb_true_iff, !Z.leb_le, !Z.ltb_lt. tauto.
Qed.

(** C3, as stated, fails: row 4294967296 of a grid with 4294967297 rows
    and one column is within the grid bounds, and packing it raises
    struct.error, so no node id is produced to decode. *)
Lemma node_id_roundtrip_unbounded_fails :
  ~ (forall dims p, cell_in_grid dims p ->
       exists n, _encode_node_id p = Ok n /\ _decode_node_id n = Ok p).
Proof.
  intros H.
  destruct (H (4294967297, 1) (4294967296, 0)) as (n & He & _).
  - unfold cell_in_grid; cbn; lia.
  - vm_compute in He. discriminate.
Qed.

(** C3 (amended): on a grid whose dimensions fit the unsigned 32-bit
    fields of the format 'II', every in-bounds cell is encoded, decoding
    its node id gives the cell back, and two distinct in-bounds cells have
    distinct node ids. *)
Theorem node_id_roundtrip_injective (dims : Z * Z) :
  fst dims <= UINT_MAX + 1 -> snd dims <= UINT_MAX + 1 ->
  (forall p, cell_in_grid dims p ->
     exists n, _encode_node_id p = Ok n /\ _decode_node_id n = Ok p) /\
  (forall p q n m, cell_in_grid dims p -> cell_in_grid dims q -> p <> q ->
     _encode_node_id p = Ok n -> _encode_node_id q = Ok m -> n <> m).
Proof.
  intros Hy Hx. split.
  - intros [y x] [Hpy Hpx]. cbn in Hpy, Hpx.
    exists (pack_I y ++ pack_I x). split.
    + apply encode_ok; lia.
    + apply decode_pack; lia.
  - intros p q n m _ _ Hne Hp Hq ->. apply Hne. eapply encode_inj; eauto.
Qed.

Lemma node_id_roundtrip_injective_witness :
  (exists n, _encode_node_id (2, 1) = Ok n /\ _decode_node_id n = Ok (2, 1)) /\
  (forall n m, _encode_node_id (2, 1) = Ok n -> _encode_node_id (1, 2) = Ok m -> n <> m).
Proof.
  assert (Hy : fst (3, 3) <= UINT_MAX + 1) by (vm_compute; discriminate).
  assert (Hx : snd (3, 3) <= UINT_MAX + 1) by (vm_compute; discriminate).
  destruct (node_id_roundtrip_injective (3, 3) Hy Hx) as [Hrt Hinj].
  split.
  - apply Hrt. unfold cell_in_grid; cbn; lia.
  - intros n m. apply Hinj; try (unfold cell_in_grid; cbn; lia). discriminate.
Defined.

(** ** Neighbours of a cell *)

Ltac decide_bounds :=
  repeat match goal with
         | |- context [?a <=? ?b] => destruct (Z.leb_spec a b); try lia
         | |- context [?a <? ?b] => destruct (Z.ltb_spec a b); try lia
         end.

Lemma valid_neighbors_in_bounds (ys xs : Z) (dims : Z * Z) :
  Forall (cell_in_grid dims) (valid_neighbors ys xs dims).
Proof.
  apply Forall_forall. intros p Hp. unfold valid_neighbors in Hp.
  apply filter_In in Hp. now apply in_bounds_spec.
Qed.

(** C6: on a grid with at least two rows and two columns, an inner cell
    has exactly 8 valid neighbours, a corner cell exactly 3 and any other
    cell of the border exactly 5; every valid neighbour is within the grid
    bounds. *)
Theorem valid_neighbors_count (y_dim x_dim ys xs : Z) :
  2 <= y_dim -> 2 <= x_dim -> 0 <= ys < y_dim -> 0 <= xs < x_dim ->
  let n := List.length (valid_neighbors ys xs (y_dim, x_dim)) in
  let row_edge := ys = 0 \/ ys = y_dim - 1 in
  let col_edge := xs = 0 \/ xs = x_dim - 1 in
  (~ row_edge /\ ~ col_edge -> n = 8%nat) /\
  (row_edge /\ col_edge -> n = 3%nat) /\
  ((row_edge /\ ~ col_edge) \/ (~ row_edge /\ col_edge) -> n = 5%nat) /\
  Forall (fun p => 0 <= fst p < y_dim /\ 0 <= snd p < x_dim)
         (valid_neighbors ys xs (y_dim, x_dim)).
Proof.
  intros HY HX Hy Hx n row_edge col_edge.
  split; [|split; [|split]].
  - intros [Hr Hc]. subst n row_edge col_edge.
    unfold valid_neighbors, neighbors, in_bounds. cbn [filter].
    decide_bounds. reflexivity.
  - intros [Hr Hc]. subst n row_edge col_edge.
    unfold valid_neighbors, neighbors, in_bounds. cbn [filter].
    destruct Hr, Hc; decide_bounds; reflexivity.
  - intros Hrc. subst n row_edge col_edge.
    unfold valid_neighbors, neighbors, in_bounds. cbn [filter].
    destruct Hrc as [[[Hr|Hr] Hc]|[Hr [Hc|Hc]]]; decide_bounds; reflexivity.
  - apply (valid_neighbors_in_bounds ys xs (y_dim, x_dim)).
Qed.

Lemma valid_neighbors_count_witness :
  List.length (valid_neighbors 1 1 (3, 3)) = 8%nat /\
  List.length (valid_neighbors 0 2 (3, 3)) = 3%nat /\
  List.length (valid_neighbors 0 1 (3, 3)) = 5%nat.
Proof.
  split; [|split].
  - apply (valid_neighbors_count 3 3 1 1); lia.
  - apply (valid_neighbors_count 3 3 0 2); lia.
  - apply (valid_neighbors_count 3 3 0 1); lia.
Defined.

(** ** Arrays *)

Lemma norm_index_in (i n : Z) : 0 <= i < n -> norm_index i n = Ok i.
Proof.
  intros H. unfold norm_index.
  destruct (Z.leb_spec 0 i); destruct (Z.ltb_spec i n); try lia. reflexivity.
Qed.

Lemma getitem2_in {A} (default : A) (a : ndarray A) (p : Z * Z) :
  ndarray_wf a -> cell_in_grid (shape0 a, shape1 a) p ->
  getitem2 a (fst p) (snd p) = Ok (cell default a p).
Proof.
  intros (H0 & H1 & Hlen) [Hy Hx]. cbn in Hy, Hx. unfold getitem2.
  rewrite (norm_index_in _ _ Hy), (norm_index_in _ _ Hx). cbn [bind].
  destruct (nth_error (flat a) (Z.to_nat (fst p * shape1 a + snd p))) as [v|] eqn:E.
  - unfold cell. now rewrite (nth_error_nth _ _ default E).
  - apply nth_error_None in E. nia.
Qed.

(** ** Lists *)

Lemma mapM_ok {A B} (f : A -> result B) (g : A -> B) (l : list A) :
  (forall a, In a l -> f a = Ok (g a)) -> mapM f l = Ok (map g l).
Proof.
  induction l as [|a l IH]; intros H; cbn; [reflexivity|].
  rewrite (H a (or_introl eq_refl)). cbn.
  rewrite IH by (intros; apply H; now right). reflexivity.
Qed.

Lemma combine_map_same {A B C} (f : A -> B) (g : A -> C) (l : list A) :
  combine (map f l) (map g l) = map (fun a => (f a, g a)) l.
Proof. induction l; cbn; congruence. Qed.

Lemma range_In (n i : Z) : In i (range n) <-> 0 <= i < n.
Proof.
  unfold range. rewrite in_map_iff. split.
  - intros (k & <- & Hk). apply in_seq in Hk. lia.
  - intros H. exists (Z.to_nat i). split; [lia|]. apply in_seq. lia.
Qed.

Lemma all_cells_In (dims p : Z * Z) : In p (all_cells dims) <-> cell_in_grid dims p.
Proof.
  unfold all_cells, cell_in_grid. rewrite in_flat_map. split.
  - intros (y & Hy & Hp). apply in_map_iff in Hp. destruct Hp as (x & <- & Hx).
    apply range_In in Hy, Hx. cbn. lia.
  - intros [Hy Hx]. exists (fst p). split; [now apply range_In|].
    apply in_map_iff. exists (snd p). split; [now destruct p|now apply range_In].
Qed.

(** ** The edges of a cell *)

Section NeighbourEdges.
Context {geod : Geod}.
Variable self : ModuleNavigation.
Hypothesis Hwf : grid_wf self.

Lemma node_of_encode (p : Z * Z) :
  cell_in_grid (grid_dims self) p -> _encode_node_id p = Ok (node_of p).
Proof.
  destruct Hwf as (_ & _ & _ & _ & H0 & H1).
  intros [Hy Hx]. destruct p as [y x]. unfold grid_dims in *. cbn [fst snd] in *.
  unfold UINT_MAX in *. apply encode_ok; unfold UINT_MAX; lia.
Qed.

Lemma latlons_getitem (p : Z * Z) :
  cell_in_grid (grid_dims self) p ->
  getitem2 (latlons self) (fst p) (snd p) = Ok (coord_at self p).
Proof.
  destruct Hwf as (Hl & _ & E0 & E1 & _). intros Hp.
  apply getitem2_in; [assumption|]. unfold grid_dims, cell_in_grid in *.
  cbn [fst snd] in *. lia.
Qed.

Lemma currents_getitem (p : Z * Z) :
  cell_in_grid (grid_dims self) p ->
  getitem2 (currents self) (fst p) (snd p) = Ok (flow_at self p).
Proof.
  destruct Hwf as (_ & Hc & _). intros Hp. now apply getitem2_in.
Qed.

(** What [_get_neighbors] returns for a cell of the grid: the edges to
    its valid neighbours, or IndexError when it has none. *)
Lemma get_neighbors_spec (s : Z * Z) :
  cell_in_grid (grid_dims self) s ->
  _get_neighbors self (fst s) (snd s) (grid_dims self) =
    match valid_neighbors (fst s) (snd s) (grid_dims self) with
    | [] => Err IndexError
    | _ => Ok (cell_edges self s)
    end.
Proof.
  intros Hs. unfold _get_neighbors.
  replace (fst s, snd s) with s by now destruct s.
  rewrite (node_of_encode s Hs). cbn [bind].
  rewrite (latlons_getitem s Hs). cbn [bind].
  pose proof (valid_neighbors_in_bounds (fst s) (snd s) (grid_dims self)) as Hvn.
  rewrite Forall_forall in Hvn.
  unfold cell_edges.
  remember (valid_neighbors (fst s) (snd s) (grid_dims self)) as vn eqn:Evn.
  clear Evn.
  destruct (coord_at self s) as [lat_src lon_src] eqn:Ecs.
  rewrite (mapM_ok _ (coord_at self) vn).
  2:{ intros [yd xd] Hin. apply (latlons_getitem (yd, xd)). now apply Hvn. }
  cbn [bind].
  destruct vn as [|n0 vn']; [reflexivity|].
  remember (n0 :: vn') as l eqn:El.
  assert (Ecol : columns (map (coord_at self) l)
                 = Ok (map fst (map (coord_at self) l), map snd (map (coord_at self) l))).
  { subst l. reflexivity. }
  clear El. rename l into vn.
  rewrite Ecol. cbn [bind].
  rewrite (currents_getitem s Hs). cbn [bind].
  destruct (flow_at self s) as [current_u current_v] eqn:Efs.
  rewrite (mapM_ok _ node_of vn).
  2:{ intros a Hin. apply node_of_encode. now apply Hvn. }
  cbn [bind]. f_equal.
  repeat first [rewrite map_map | rewrite combine_map_same].
  apply map_ext. intros d.
  unfold spec_edge, spec_cost, theta, forward_azimuth, geodesic_distance.
  rewrite Ecs, Efs. cbn [fst snd].
  destruct (coord_at self d) as [lat lon]. cbn [fst snd]. reflexivity.
Qed.
End NeighbourEdges.

(** ** The loops of [_transform_map] *)

Lemma foldM_app {A S} (f : S -> A -> result S) (l1 l2 : list A) (s : S) :
  foldM f (l1 ++ l2) s = (s' <- foldM f l1 s ;; foldM f l2 s').
Proof.
  revert s. induction l1 as [|a l1 IH]; intros s; cbn; [reflexivity|].
  destruct (f s a); cbn; [apply IH|reflexivity].
Qed.

Lemma print_progress_bar_ok (iteration total length : Z) (fill : string) (out : stdout) :
  total <> 0 -> snd (print_progress_bar iteration total length fill out) = Ok tt.
Proof.
  intros Ht. unfold print_progress_bar, io_bind, io_lift, print, io_ret.
  destruct (Z.eqb_spec total 0); [contradiction|].
  destruct (iteration =? total); reflexivity.
Qed.

Section TransformMapLoops.
Context {geod : Geod}.
Variable self : ModuleNavigation.

Let step (G : DiGraph) (c : Z * Z) : result DiGraph :=
  ns <- _get_neighbors self (fst c) (snd c) (grid_dims self) ;;
  Ok (add_edges_from G ns).

Let body (y x : Z) (s : Z * DiGraph) : IO (Z * DiGraph) :=
  let '(idx, currents_graph) := s in
  idx <~ (if verbose self
          then let idx := idx + 1 in
               u <~ print_progress_bar idx (shape0 (currents self) * shape1 (currents self))
                                       50 fill_default ;;
               io_ret idx
          else io_ret idx) ;;
  ns <~ io_lift (_get_neighbors self y x (shape0 (currents self), shape1 (currents self))) ;;
  io_ret (idx, add_edges_from currents_graph ns).

Lemma inner_loop_graph (y : Z) (xs : list Z) :
  shape0 (currents self) * shape1 (currents self) <> 0 \/ xs = [] ->
  forall s out,
    same_graph (snd (for_each xs (body y) s out))
               (foldM step (map (fun x => (y, x)) xs) (snd s)).
Proof.
  intros Ht. induction xs as [|x xs IH]; intros [idx G] out.
  - cbn. reflexivity.
  - destruct Ht as [Ht|Ht]; [|discriminate].
    cbn [for_each map foldM]. unfold io_bind at 1.
    unfold body at 1. unfold step at 1. cbn [fst snd]. unfold grid_dims.
    assert (Hpr : exists out1 idx1,
               (idx <~ (if verbose self
                        then let idx := idx + 1 in
                             u <~ print_progress_bar idx (shape0 (currents self) * shape1 (currents self))
                                    50 fill_default ;;
                             io_ret idx
                        else io_ret idx) ;;
                io_ret idx) out = (out1, Ok idx1)).
    { destruct (verbose self); cbn.
      - unfold io_bind.
        pose proof (print_progress_bar_ok (idx + 1) _ 50 fill_default out Ht) as Hp.
        destruct (print_progress_bar (idx + 1) _ 50 fill_default out) as [o r].
        cbn in Hp. subst r. cbn. unfold io_ret. eauto.
      - unfold io_bind, io_ret. eauto. }
    destruct Hpr as (out1 & idx1 & Hpr).
    unfold io_bind in Hpr |- *.
    match type of Hpr with
    | (let (o, r) := ?m out in _) = _ =>
        destruct (m out) as [o [i|e]] eqn:Em; cbn in Hpr; [|discriminate]
    end.
    unfold io_lift at 1.
    destruct (_get_neighbors self y x (shape0 (currents self), shape1 (currents self)))
      as [ns|e]; cbn.
    + apply (IH (or_introl Ht) (i, add_edges_from G ns)).
    + reflexivity.
Qed.

Lemma outer_loop_graph (ys : list Z) :
  (ys <> [] -> 0 < shape0 (currents self)) ->
  forall s out,
    same_graph
      (snd (for_each ys (fun y => for_each (range (shape1 (currents self))) (body y)) s out))
      (foldM step
             (flat_map (fun y => map (fun x => (y, x)) (range (shape1 (currents self)))) ys)
             (snd s)).
Proof.
  intros Hy. induction ys as [|y ys IH]; intros s out.
  - cbn. destruct s. reflexivity.
  - cbn [for_each flat_map]. rewrite foldM_app. unfold io_bind at 1.
    assert (Ht : shape0 (currents self) * shape1 (currents self) <> 0
                 \/ range (shape1 (currents self)) = []).
    { destruct (range (shape1 (currents self))) as [|x0 l] eqn:Er; [now right|left].
      assert (Hx : In x0 (range (shape1 (currents self)))) by (rewrite Er; now left).
      apply range_In in Hx. specialize (Hy ltac:(discriminate)). nia. }
    pose proof (inner_loop_graph y _ Ht s out) as Hin.
    destruct (for_each (range (shape1 (currents self))) (body y) s out) as [o [[i G]|e]];
      cbn [snd] in Hin.
    + destruct (foldM step _ (snd s)) as [G'|e'] eqn:Ef; cbn in Hin; [|contradiction].
      subst G'. cbn [bind].
      assert (Hys : ys <> [] -> 0 < shape0 (currents self)).
      { intros _. apply Hy. discriminate. }
      apply (IH Hys (i, G) o).
    + destruct (foldM step _ (snd s)) as [G'|e'] eqn:Ef; cbn in Hin; [contradiction|].
      subst e'. reflexivity.
Qed.

(** The graph (or the exception) that [_transform_map] ends with is the
    one of [build_graph], whatever is printed. *)
Lemma transform_map_result (out : stdout) :
  snd (_transform_map self out) = build_graph self.
Proof.
  unfold _transform_map, build_graph, all_cells, grid_dims. cbn [fst snd].
  assert (Hy : range (shape0 (currents self)) <> [] -> 0 < shape0 (currents self)).
  { intros Hne. destruct (range (shape0 (currents self))) as [|y0 l] eqn:Er; [congruence|].
    assert (Hin : In y0 (range (shape0 (currents self)))) by (rewrite Er; now left).
    apply range_In in Hin. lia. }
  pose proof (outer_loop_graph _ Hy (0, empty_DiGraph) out) as H.
  unfold io_bind at 1.
  fold (body).
  match goal with
  | |- snd (let (o, r) := ?m in _) = _ => destruct m as [o [[i G]|e]] eqn:Em
  end.
  - unfold body in H. rewrite Em in H. cbn [snd] in H. cbn.
    unfold step, grid_dims in H.
    destruct (foldM _ _ empty_DiGraph); cbn in H; [congruence|contradiction].
  - unfold body in H. rewrite Em in H. cbn [snd] in H. cbn.
    unfold step, grid_dims in H.
    destruct (foldM _ _ empty_DiGraph); cbn in H; [contradiction|congruence].
Qed.
End TransformMapLoops.

(** ** Dicts *)

Section DictFacts.
Context {V : Type}.
Implicit Types (d : dict V) (k : NodeId) (v : V).

Lemma dict_get_set_same d k v : dict_get (dict_set d k v) k = Some v.
Proof.
  induction d as [|[k' v'] d IH]; cbn.
  - destruct (bytes_eq_dec k k); congruence.
  - destruct (bytes_eq_dec k k') as [->|Hne]; cbn.
    + destruct (bytes_eq_dec k' k'); congruence.
    + destruct (bytes_eq_dec k k'); [contradiction|assumption].
Qed.

Lemma dict_get_set_other d k k' v :
  k' <> k -> dict_get (dict_set d k v) k' = dict_get d k'.
Proof.
  intros Hne. induction d as [|[k0 v0] d IH]; cbn.
  - destruct (bytes_eq_dec k' k); [contradiction|reflexivity].
  - destruct (bytes_eq_dec k k0) as [->|Hk]; cbn.
    + destruct (bytes_eq_dec k' k0); [contradiction|reflexivity].
    + destruct (bytes_eq_dec k' k0); [reflexivity|assumption].
Qed.

Lemma dict_get_In d k v : dict_get d k = Some v -> In (k, v) d.
Proof.
  induction d as [|[k0 v0] d IH]; cbn; [discriminate|].
  destruct (bytes_eq_dec k k0) as [->|Hk].
  - intros [= ->]. now left.
  - intros H. right. now apply IH.
Qed.

Lemma dict_get_None d k : dict_get d k = None <-> ~ In k (dict_keys d).
Proof.
  induction d as [|[k0 v0] d IH]; cbn; [tauto|].
  destruct (bytes_eq_dec k k0) as [->|Hk].
  - split; [discriminate|]. intros H. exfalso. apply H. now left.
  - rewrite IH. split; intros H; [intros [E|E]; [congruence|contradiction]|tauto].
Qed.

Lemma In_dict_get d k v :
  NoDup (dict_keys d) -> In (k, v) d -> dict_get d k = Some v.
Proof.
  induction d as [|[k0 v0] d IH]; cbn; [contradiction|].
  intros Hnd Hin. inversion Hnd as [|? ? Hk0 Hnd']; subst.
  destruct Hin as [[= -> ->]|Hin].
  - destruct (bytes_eq_dec k k); congruence.
  - destruct (bytes_eq_dec k k0) as [->|Hk]; [|now apply IH].
    exfalso. apply Hk0. change k0 with (fst (k0, v)). now apply in_map.
Qed.

Lemma dict_mem_true d k : dict_mem d k = true <-> In k (dict_keys d).
Proof.
  unfold dict_mem. destruct (dict_get d k) as [v|] eqn:E.
  - split; [intros _|reflexivity]. apply dict_get_In in E.
    change k with (fst (k, v)). now apply in_map.
  - apply dict_get_None in E. split; [discriminate|contradiction].
Qed.

Lemma dict_keys_set d k v :
  forall k', In k' (dict_keys (dict_set d k v)) <-> k' = k \/ In k' (dict_keys d).
Proof.
  intros k'. induction d as [|[k0 v0] d IH]; cbn.
  - intuition congruence.
  - destruct (bytes_eq_dec k k0) as [->|Hk]; cbn.
    + intuition congruence.
    + rewrite IH. intuition congruence.
Qed.

Lemma dict_set_NoDup d k v : NoDup (dict_keys d) -> NoDup (dict_keys (dict_set d k v)).
Proof.
  induction d as [|[k0 v0] d IH]; cbn; intros Hnd.
  - constructor; [intros []|constructor].
  - inversion Hnd as [|? ? Hk0 Hnd']; subst.
    destruct (bytes_eq_dec k k0) as [->|Hk]; cbn.
    + now constructor.
    + constructor; [|now apply IH].
      intros Hin. apply dict_keys_set in Hin. destruct Hin; [congruence|contradiction].
Qed.

Lemma dict_set_In d k v k' v' :
  In (k', v') (dict_set d k v) -> (k' = k /\ v' = v) \/ In (k', v') d.
Proof.
  induction d as [|[k0 v0] d IH]; cbn.
  - intros [[= <- <-]|[]]. now left.
  - destruct (bytes_eq_dec k k0) as [->|Hk]; cbn.
    + intros [[= <- <-]|H]; [now left|right; now right].
    + intros [H|H]; [right; now left|].
      destruct (IH H); [now left|right; now right].
Qed.

Lemma dict_mem_set d k v k' :
  dict_mem (dict_set d k v) k' = if bytes_eq_dec k' k then true else dict_mem d k'.
Proof.
  unfold dict_mem. destruct (bytes_eq_dec k' k) as [->|Hne].
  - now rewrite dict_get_set_same.
  - now rewrite dict_get_set_other.
Qed.
End DictFacts.

(** ** Graphs built by [add_edges_from] *)

Lemma add_node_if_missing_succ (G : DiGraph) (u n : NodeId) :
  dict_get (_succ (add_node_if_missing G u)) n =
    match dict_get (_succ G) n with
    | Some a => Some a
    | None => if bytes_eq_dec n u then Some [] else None
    end.
Proof.
  unfold add_node_if_missing, dict_mem.
  destruct (dict_get (_succ G) u) as [a|] eqn:Eu; cbn.
  - destruct (dict_get (_succ G) n) eqn:En; [reflexivity|].
    destruct (bytes_eq_dec n u); [congruence|reflexivity].
  - destruct (bytes_eq_dec n u) as [->|Hne].
    + now rewrite dict_get_set_same, Eu.
    + rewrite dict_get_set_other by assumption. now destruct (dict_get (_succ G) n).
Qed.

Lemma add_node_if_missing_node_mem (G : DiGraph) (u n : NodeId) :
  (forall m, dict_mem (_node G) m = dict_mem (_succ G) m) ->
  dict_mem (_node (add_node_if_missing G u)) n = dict_mem (_succ (add_node_if_missing G u)) n.
Proof.
  intros H. unfold add_node_if_missing.
  destruct (dict_mem (_succ G) u); cbn; [apply H|].
  rewrite !dict_mem_set. now rewrite H.
Qed.

Lemma add_node_if_missing_NoDup (G : DiGraph) (u : NodeId) :
  NoDup (dict_keys (_succ G)) -> NoDup (dict_keys (_succ (add_node_if_missing G u))).
Proof.
  intros H. unfold add_node_if_missing.
  destruct (dict_mem (_succ G) u); cbn; [assumption|now apply dict_set_NoDup].
Qed.

(** The adjacency of every node after one [add_edge]. *)
Lemma add_edge_succ (G : DiGraph) (u v : NodeId) (dd : edge_attr) (n : NodeId) :
  dict_get (_succ (add_edge G (u, v, dd))) n =
    if bytes_eq_dec n u
    then Some (dict_set (match dict_get (_succ G) u with Some a => a | None => [] end) v dd)
    else match dict_get (_succ G) n with
         | Some a => Some a
         | None => if bytes_eq_dec n v then Some [] else None
         end.
Proof.
  unfold add_edge. cbn [_succ].
  assert (Eu : match dict_get (_succ (add_node_if_missing (add_node_if_missing G u) v)) u with
               | Some a => a | None => [] end
             = match dict_get (_succ G) u with Some a => a | None => [] end).
  { rewrite !add_node_if_missing_succ.
    destruct (dict_get (_succ G) u); [reflexivity|].
    destruct (bytes_eq_dec u u); [reflexivity|congruence]. }
  rewrite Eu.
  destruct (bytes_eq_dec n u) as [->|Hne].
  - now rewrite dict_get_set_same.
  - rewrite dict_get_set_other by assumption.
    rewrite !add_node_if_missing_succ.
    destruct (dict_get (_succ G) n); [reflexivity|].
    destruct (bytes_eq_dec n u); [contradiction|reflexivity].
Qed.

Lemma add_edge_node_mem (G : DiGraph) (e : NodeId * NodeId * edge_attr) :
  (forall m, dict_mem (_node G) m = dict_mem (_succ G) m) ->
  forall n, dict_mem (_node (add_edge G e)) n = dict_mem (_succ (add_edge G e)) n.
Proof.
  intros H n. destruct e as [[u v] dd]. unfold add_edge. cbn [_node _succ].
  pose proof (add_node_if_missing_node_mem _ v n
                (fun m => add_node_if_missing_node_mem G u m H)) as H2.
  rewrite H2. rewrite dict_mem_set.
  destruct (bytes_eq_dec n u) as [->|Hne]; [|reflexivity].
  unfold dict_mem. rewrite !add_node_if_missing_succ.
  destruct (dict_get (_succ G) u); [reflexivity|].
  destruct (bytes_eq_dec u u); [reflexivity|congruence].
Qed.

Lemma add_edge_NoDup (G : DiGraph) (e : NodeId * NodeId * edge_attr) :
  NoDup (dict_keys (_succ G)) -> NoDup (dict_keys (_succ (add_edge G e))).
Proof.
  intros H. destruct e as [[u v] dd]. unfold add_edge. cbn [_succ].
  apply dict_set_NoDup. now do 2 apply add_node_if_missing_NoDup.
Qed.

Lemma built_from_empty : built_from [] empty_DiGraph.
Proof.
  repeat split; cbn; try constructor; try discriminate; try contradiction.
Qed.

Lemma add_edge_mem_mono (G : DiGraph) (e : NodeId * NodeId * edge_attr) (n : NodeId) :
  dict_mem (_succ G) n = true -> dict_mem (_succ (add_edge G e)) n = true.
Proof.
  destruct e as [[u v] dd]. unfold dict_mem. rewrite add_edge_succ.
  destruct (bytes_eq_dec n u); [reflexivity|].
  destruct (dict_get (_succ G) n); [reflexivity|discriminate].
Qed.

Lemma add_edge_mem_ends (G : DiGraph) (u v : NodeId) (dd : edge_attr) :
  dict_mem (_succ (add_edge G (u, v, dd))) u = true /\
  dict_mem (_succ (add_edge G (u, v, dd))) v = true.
Proof.
  unfold dict_mem. rewrite !add_edge_succ. split.
  - destruct (bytes_eq_dec u u); [reflexivity|congruence].
  - destruct (bytes_eq_dec v u); [reflexivity|].
    destruct (dict_get (_succ G) v); [reflexivity|].
    destruct (bytes_eq_dec v v); [reflexivity|congruence].
Qed.

Lemma add_edge_built (es : list (NodeId * NodeId * edge_attr)) (G : DiGraph)
    (e : NodeId * NodeId * edge_attr) :
  built_from es G -> built_from (es ++ [e]) (add_edge G e).
Proof.
  intros ((Hnd & Hmem & Hadj) & Hsub & Hall & Hkeys).
  destruct e as [[u0 v0] dd].
  assert (Hadj0 : NoDup (dict_keys (match dict_get (_succ G) u0 with
                                    | Some a => a | None => [] end))).
  { destruct (dict_get (_succ G) u0) as [a|] eqn:E; [apply (Hadj _ _ E)|constructor]. }
  split; [split; [|split]|split; [|split]].
  - now apply add_edge_NoDup.
  - now apply add_edge_node_mem.
  - intros u adj Hu. rewrite add_edge_succ in Hu.
    destruct (bytes_eq_dec u u0) as [->|Hne].
    + injection Hu as <-. split; [now apply dict_set_NoDup|].
      intros v a Hin. apply dict_set_In in Hin. destruct Hin as [[-> ->]|Hin].
      * apply add_edge_mem_ends.
      * apply add_edge_mem_mono.
        destruct (dict_get (_succ G) u0) as [a0|] eqn:E; [|contradiction].
        now apply (proj2 (Hadj _ _ E) v a).
    + destruct (dict_get (_succ G) u) as [a0|] eqn:E.
      * injection Hu as <-. split; [apply (Hadj _ _ E)|].
        intros v a Hin. apply add_edge_mem_mono. now apply (proj2 (Hadj _ _ E) v a).
      * destruct (bytes_eq_dec u v0); [|discriminate].
        injection Hu as <-. split; [constructor|intros ? ? []].
  - intros u adj v a Hu Hin. apply in_or_app. rewrite add_edge_succ in Hu.
    destruct (bytes_eq_dec u u0) as [->|Hne].
    + injection Hu as <-. apply dict_set_In in Hin. destruct Hin as [[-> ->]|Hin].
      * right. now left.
      * left. destruct (dict_get (_succ G) u0) as [a0|] eqn:E; [|contradiction].
        now apply (Hsub _ _ _ _ E).
    + destruct (dict_get (_succ G) u) as [a0|] eqn:E.
      * injection Hu as <-. left. now apply (Hsub _ _ _ _ E).
      * destruct (bytes_eq_dec u v0); [|discriminate].
        injection Hu as <-. contradiction.
  - intros u v a Hin. apply in_app_or in Hin. unfold has_edge.
    destruct Hin as [Hin|[[= <- <- <-]|[]]].
    + destruct (Hall _ _ _ Hin) as (adj & a' & Hu & Hv).
      rewrite add_edge_succ.
      destruct (bytes_eq_dec u u0) as [->|Hne].
      * rewrite Hu. exists (dict_set adj v0 dd). destruct (bytes_eq_dec v v0) as [->|Hv0].
        -- exists dd. split; [reflexivity|apply dict_get_set_same].
        -- exists a'. split; [reflexivity|]. now rewrite dict_get_set_other.
      * rewrite Hu. eauto.
    + rewrite add_edge_succ. destruct (bytes_eq_dec u0 u0); [|congruence].
      eexists. exists dd. split; [reflexivity|apply dict_get_set_same].
  - intros n Hn. unfold dict_mem in Hn. rewrite add_edge_succ in Hn.
    destruct (bytes_eq_dec n u0) as [->|Hne].
    + exists u0, v0, dd. split; [apply in_or_app; right; now left|now left].
    + destruct (dict_get (_succ G) n) as [a0|] eqn:E.
      * destruct (Hkeys n) as (u & v & a & Hin & Hor).
        { unfold dict_mem. now rewrite E. }
        exists u, v, a. split; [apply in_or_app; now left|assumption].
      * destruct (bytes_eq_dec n v0) as [->|]; [|discriminate].
        exists u0, v0, dd. split; [apply in_or_app; right; now left|now right].
Qed.

Lemma add_edges_from_built (es' es : list (NodeId * NodeId * edge_attr)) (G : DiGraph) :
  built_from es G -> built_from (es ++ es') (add_edges_from G es').
Proof.
  revert es G. induction es' as [|e es' IH]; intros es G H; cbn.
  - now rewrite app_nil_r.
  - replace (es ++ e :: es') with ((es ++ [e]) ++ es') by now rewrite <- app_assoc.
    apply IH. now apply add_edge_built.
Qed.

Lemma add_edges_from_app (G : DiGraph) (l1 l2 : list (NodeId * NodeId * edge_attr)) :
  add_edges_from G (l1 ++ l2) = add_edges_from (add_edges_from G l1) l2.
Proof. apply fold_left_app. Qed.

(** ** Valid neighbours are the king moves within the grid *)

Lemma neighbors_king (ys xs : Z) (d : Z * Z) :
  In d (neighbors ys xs) <-> king_move (ys, xs) d.
Proof.
  destruct d as [yd xd]. unfold neighbors, king_move. cbn [In fst snd]. split.
  - intros H.
    repeat (destruct H as [H|H]; [injection H as <- <-; split; [intros [=]; lia|lia]|]).
    contradiction.
  - intros (Hne & Hy & Hx).
    assert (Hyc : yd = ys - 1 \/ yd = ys \/ yd = ys + 1) by lia.
    assert (Hxc : xd = xs - 1 \/ xd = xs \/ xd = xs + 1) by lia.
    destruct Hyc as [ -> | [ -> | -> ] ]; destruct Hxc as [ -> | [ -> | -> ] ];
      repeat (first [left; f_equal; lia | right]).
    apply Hne. reflexivity.
Qed.

Lemma valid_neighbors_spec (ys xs : Z) (dims d : Z * Z) :
  In d (valid_neighbors ys xs dims) <-> cell_in_grid dims d /\ king_move (ys, xs) d.
Proof.
  unfold valid_neighbors. rewrite filter_In, neighbors_king, in_bounds_spec. tauto.
Qed.

Lemma king_move_sym (s d : Z * Z) : king_move s d -> king_move d s.
Proof. unfold king_move. intros (H & Hy & Hx). split; [congruence|lia]. Qed.

Lemma valid_neighbors_nonempty (s dims : Z * Z) :
  cell_in_grid dims s -> dims <> (1, 1) ->
  valid_neighbors (fst s) (snd s) dims <> [].
Proof.
  destruct s as [ys xs], dims as [Y X]. intros [Hy Hx] Hd. cbn [fst snd] in *.
  assert (Hex : exists d, In d (valid_neighbors ys xs (Y, X))).
  { assert (Hc : 1 < X \/ 1 < Y).
    { destruct (Z.eq_dec X 1) as [->|]; [|lia].
      destruct (Z.eq_dec Y 1) as [->|]; [congruence|lia]. }
    destruct Hc as [Hc|Hc].
    - destruct (Z.eq_dec xs 0) as [->|].
      + exists (ys, 1). apply valid_neighbors_spec. unfold cell_in_grid, king_move.
        cbn [fst snd]. repeat split; try lia. intros [=].
      + exists (ys, xs - 1). apply valid_neighbors_spec. unfold cell_in_grid, king_move.
        cbn [fst snd]. repeat split; try lia. intros [=]. lia.
    - destruct (Z.eq_dec ys 0) as [->|].
      + exists (1, xs). apply valid_neighbors_spec. unfold cell_in_grid, king_move.
        cbn [fst snd]. repeat split; try lia. intros [=].
      + exists (ys - 1, xs). apply valid_neighbors_spec. unfold cell_in_grid, king_move.
        cbn [fst snd]. repeat split; try lia. intros [=]. lia. }
  destruct Hex as [d Hd']. intros E. rewrite E in Hd'. contradiction.
Qed.

(** ** The graph of a grid *)

Lemma node_of_inj (p q : Z * Z) :
  0 <= fst p <= UINT_MAX -> 0 <= snd p <= UINT_MAX ->
  0 <= fst q <= UINT_MAX -> 0 <= snd q <= UINT_MAX ->
  node_of p = node_of q -> p = q.
Proof.
  intros Hp1 Hp2 Hq1 Hq2 E. destruct p as [py px], q as [qy qx]. cbn [fst snd] in *.
  apply (encode_inj (py, px) (qy, qx) (node_of (py, px))).
  - now apply encode_ok.
  - rewrite E. now apply encode_ok.
Qed.

Section BuildGraph.
Context {geod : Geod}.
Variable self : ModuleNavigation.
Hypothesis Hwf : grid_wf self.

Lemma node_of_inj_grid (p q : Z * Z) :
  cell_in_grid (grid_dims self) p -> cell_in_grid (grid_dims self) q ->
  node_of p = node_of q -> p = q.
Proof.
  destruct Hwf as (_ & _ & _ & _ & H0 & H1). unfold grid_dims, cell_in_grid.
  cbn [fst snd]. intros [? ?] [? ?]. apply node_of_inj; lia.
Qed.

Lemma foldM_cells (cells : list (Z * Z)) (G : DiGraph) :
  (forall c, In c cells ->
     cell_in_grid (grid_dims self) c /\
     valid_neighbors (fst c) (snd c) (grid_dims self) <> []) ->
  foldM (fun G c =>
           ns <- _get_neighbors self (fst c) (snd c) (grid_dims self) ;;
           Ok (add_edges_from G ns)) cells G
  = Ok (add_edges_from G (flat_map (cell_edges self) cells)).
Proof.
  revert G. induction cells as [|c cells IH]; intros G H; cbn [foldM flat_map].
  - reflexivity.
  - destruct (H c (or_introl eq_refl)) as [Hc Hne].
    rewrite (get_neighbors_spec self Hwf c Hc).
    destruct (valid_neighbors (fst c) (snd c) (grid_dims self)); [congruence|].
    cbn [bind]. rewrite IH by (intros; apply H; now right).
    now rewrite add_edges_from_app.
Qed.

(** On every grid but the one of a single cell the graph is built, from
    the edges of all cells in row-major order. *)
Lemma build_graph_ok :
  grid_dims self <> (1, 1) ->
  build_graph self = Ok (add_edges_from empty_DiGraph (grid_edges self)).
Proof.
  intros Hd. unfold build_graph, grid_edges. apply foldM_cells.
  intros c Hc. apply all_cells_In in Hc. split; [assumption|].
  now apply valid_neighbors_nonempty.
Qed.

(** On the grid of a single cell the construction raises IndexError. *)
Lemma build_graph_1x1 :
  grid_dims self = (1, 1) -> build_graph self = Err IndexError.
Proof.
  intros Hd. unfold build_graph. rewrite Hd.
  change (all_cells (1, 1)) with [(0, 0)]. cbn [foldM fst snd].
  rewrite <- Hd.
  rewrite (get_neighbors_spec self Hwf (0, 0)).
  - rewrite Hd. reflexivity.
  - rewrite Hd. unfold cell_in_grid. cbn. lia.
Qed.

Lemma build_graph_built (G : DiGraph) :
  build_graph self = Ok G -> built_from (grid_edges self) G.
Proof.
  intros HG.
  assert (Hd : grid_dims self <> (1, 1)).
  { intros Hd. rewrite (build_graph_1x1 Hd) in HG. discriminate. }
  rewrite (build_graph_ok Hd) in HG. injection HG as <-.
  apply (add_edges_from_built (grid_edges self) [] empty_DiGraph built_from_empty).
Qed.

Lemma grid_edges_In (u v : NodeId) (a : edge_attr) :
  In (u, v, a) (grid_edges self) <->
  exists s d, cell_in_grid (grid_dims self) s /\ cell_in_grid (grid_dims self) d /\
              king_move s d /\ (u, v, a) = spec_edge self s d.
Proof.
  unfold grid_edges, cell_edges. rewrite in_flat_map. split.
  - intros (s & Hs & Hin). apply in_map_iff in Hin. destruct Hin as (d & E & Hd).
    apply all_cells_In in Hs. apply valid_neighbors_spec in Hd.
    exists s, d. replace (fst s, snd s) with s in Hd by now destruct s.
    intuition.
  - intros (s & d & Hs & Hd & Hk & E). exists s. split; [now apply all_cells_In|].
    apply in_map_iff. exists d. split; [now symmetry|].
    apply valid_neighbors_spec. replace (fst s, snd s) with s by now destruct s.
    tauto.
Qed.
End BuildGraph.

(** ** Real arithmetic of the edge attributes *)

Lemma np_mod_360_range (x : R) : (0 <= np_mod x 360 < 360)%R.
Proof.
  unfold np_mod.
  destruct (base_Int_part (x / 360)) as [Hlo Hhi].
  assert (Ex : (x = 360 * (x / 360))%R) by (field; lra).
  split; lra.
Qed.

Lemma spec_cost_nonneg {geod : Geod} (ts : R) (src dst flow : R * R) :
  (0 <= spec_cost ts src dst flow)%R.
Proof. unfold spec_cost. apply sqrt_pos. Qed.

Lemma spec_cost_zero_flow {geod : Geod} (ts : R) (src dst : R * R) :
  (0 < ts)%R -> (0 <= geodesic_distance src dst)%R ->
  spec_cost ts src dst (0%R, 0%R) = (geodesic_distance src dst / ts)%R.
Proof.
  intros Hts Hd. unfold spec_cost. cbn [fst snd].
  set (v := (geodesic_distance src dst / ts)%R).
  set (th := radians (theta src dst)).
  assert (Hv : (0 <= v)%R).
  { unfold v. apply Rmult_le_pos; [assumption|]. left. now apply Rinv_0_lt_compat. }
  replace ((v * sin th - 0) ^ 2 + (v * cos th - 0) ^ 2)%R with (v ^ 2)%R.
  - now apply sqrt_pow2.
  - pose proof (sin2_cos2 th) as H. unfold Rsqr in H.
    replace ((v * sin th - 0) ^ 2 + (v * cos th - 0) ^ 2)%R
      with (v ^ 2 * (sin th * sin th + cos th * cos th))%R by ring.
    rewrite H. ring.
Qed.

(** ** Edges of the graph of a grid *)

Section GraphEdges.
Context {geod : Geod}.
Variable self : ModuleNavigation.
Hypothesis Hwf : grid_wf self.
Variable G : DiGraph.
Hypothesis HG : build_graph self = Ok G.

(** Every entry of the adjacency is the edge of a king move of the grid. *)
Lemma graph_entry_edge (u : NodeId) (adj : dict edge_attr) (v : NodeId) (a : edge_attr) :
  dict_get (_succ G) u = Some adj -> In (v, a) adj ->
  exists s d, cell_in_grid (grid_dims self) s /\ cell_in_grid (grid_dims self) d /\
              king_move s d /\ (u, v, a) = spec_edge self s d.
Proof.
  intros Hu Hin. apply (grid_edges_In self).
  destruct (build_graph_built self Hwf G HG) as (_ & Hsub & _). eauto.
Qed.

(** Every king move of the grid is an edge, with the attributes of its
    own direction. *)
Lemma graph_edge_lookup (s d : Z * Z) :
  cell_in_grid (grid_dims self) s -> cell_in_grid (grid_dims self) d -> king_move s d ->
  exists adj,
    dict_get (_succ G) (node_of s) = Some adj /\
    dict_get adj (node_of d) = Some (snd (spec_edge self s d)).
Proof.
  intros Hs Hd Hk.
  destruct (build_graph_built self Hwf G HG) as (_ & Hsub & Hall & _).
  assert (Hin : In (spec_edge self s d) (grid_edges self)).
  { apply (grid_edges_In self). exists s, d. auto. }
  destruct (Hall _ _ _ Hin) as (adj & a' & Hu & Hv).
  exists adj. split; [assumption|]. rewrite Hv. f_equal.
  destruct (graph_entry_edge _ _ _ _ Hu (dict_get_In _ _ _ Hv))
    as (s' & d' & Hs' & Hd' & _ & E).
  unfold spec_edge in E.
  assert (Es : node_of s = node_of s') by exact (f_equal (fun t => fst (fst t)) E).
  assert (Ed : node_of d = node_of d') by exact (f_equal (fun t => snd (fst t)) E).
  assert (Ea : a' = snd (spec_edge self s' d')) by exact (f_equal snd E).
  apply (node_of_inj_grid self Hwf) in Es; [|assumption|assumption].
  apply (node_of_inj_grid self Hwf) in Ed; [|assumption|assumption].
  subst s' d'. exact Ea.
Qed.

Lemma graph_edges_getitem (s d : Z * Z) :
  cell_in_grid (grid_dims self) s -> cell_in_grid (grid_dims self) d -> king_move s d ->
  edges_getitem G (node_of s) (node_of d) = Ok (snd (spec_edge self s d)).
Proof.
  intros Hs Hd Hk. destruct (graph_edge_lookup s d Hs Hd Hk) as (adj & Hu & Hv).
  unfold edges_getitem. now rewrite Hu, Hv.
Qed.

Lemma graph_has_node (s : Z * Z) :
  cell_in_grid (grid_dims self) s -> has_node G (node_of s) = true.
Proof.
  intros Hs.
  assert (Hd : grid_dims self <> (1, 1)).
  { intros Hd. rewrite (build_graph_1x1 self Hwf Hd) in HG. discriminate. }
  pose proof (valid_neighbors_nonempty s (grid_dims self) Hs Hd) as Hne.
  destruct (valid_neighbors (fst s) (snd s) (grid_dims self)) as [|d l] eqn:E; [congruence|].
  assert (Hin : In d (valid_neighbors (fst s) (snd s) (grid_dims self))) by (rewrite E; now left).
  apply valid_neighbors_spec in Hin. destruct Hin as [Hdg Hk].
  replace (fst s, snd s) with s in Hk by now destruct s.
  destruct (graph_edge_lookup s d Hs Hdg Hk) as (adj & Hu & _).
  destruct (build_graph_built self Hwf G HG) as ((_ & Hmem & _) & _).
  unfold has_node. rewrite Hmem. unfold dict_mem. now rewrite Hu.
Qed.

Lemma graph_node_cell (n : NodeId) :
  has_node G n = true -> exists s, cell_in_grid (grid_dims self) s /\ n = node_of s.
Proof.
  destruct (build_graph_built self Hwf G HG) as ((_ & Hmem & _) & _ & _ & Hkeys).
  unfold has_node. rewrite Hmem. intros Hn.
  destruct (Hkeys n Hn) as (u & v & a & Hin & Hor).
  apply (grid_edges_In self) in Hin. destruct Hin as (s & d & Hs & Hd & _ & E).
  unfold spec_edge in E.
  assert (Eu : u = node_of s) by exact (f_equal (fun t => fst (fst t)) E).
  assert (Ev : v = node_of d) by exact (f_equal (fun t => snd (fst t)) E).
  destruct Hor as [->| ->]; eauto.
Qed.
End GraphEdges.

(** ** The small instance *)

Lemma square_module_wf : grid_wf square_module.
Proof.
  unfold grid_wf, ndarray_wf, UINT_MAX. cbn. repeat split; lia.
Qed.

Lemma square_module_graph (out : stdout) :
  snd (@_transform_map taxicab_geod square_module out) = Ok square_graph.
Proof.
  rewrite transform_map_result. apply build_graph_ok.
  - apply square_module_wf.
  - cbn. intros [=].
Qed.

Lemma square_cell (s : Z * Z) :
  0 <= fst s < 2 -> 0 <= snd s < 2 -> cell_in_grid (grid_dims square_module) s.
Proof. intros Hy Hx. unfold cell_in_grid. cbn. lia. Qed.

Lemma square_diagonal_entry :
  exists adj a,
    dict_get (_succ square_graph) (node_of (0, 0)) = Some adj /\
    In (node_of (1, 1), a) adj.
Proof.
  assert (HG : @build_graph taxicab_geod square_module = Ok square_graph).
  { rewrite <- (transform_map_result square_module []). apply square_module_graph. }
  destruct (@graph_edge_lookup taxicab_geod square_module square_module_wf _ HG (0, 0) (1, 1))
    as (adj & Hu & Hv).
  - apply square_cell; cbn; lia.
  - apply square_cell; cbn; lia.
  - unfold king_move. cbn. split; [intros [=]|lia].
  - exists adj. eexists. split; [exact Hu|]. apply dict_get_In. exact Hv.
Qed.

Lemma square_node_inj (s : Z * Z) (y x : Z) :
  cell_in_grid (grid_dims square_module) s -> 0 <= y < 2 -> 0 <= x < 2 ->
  node_of (y, x) = node_of s -> s = (y, x).
Proof.
  intros Hs Hy Hx E. symmetry.
  apply (node_of_inj_grid square_module square_module_wf); [|assumption|assumption].
  apply square_cell; cbn; lia.
Qed.

(** ** Edge costs *)

Lemma flow_at_zero (self : ModuleNavigation) (s : Z * Z) :
  (forall f, In f (flat (currents self)) -> f = (0%R, 0%R)) ->
  flow_at self s = (0%R, 0%R).
Proof.
  intros H. unfold flow_at, cell.
  destruct (nth_in_or_default (Z.to_nat (fst s * shape1 (currents self) + snd s))
              (flat (currents self)) (0%R, 0%R)) as [Hin|E]; [now apply H|assumption].
Qed.

(** C2: every edge of the graph that [_transform_map] builds goes from a
    cell to one of its valid neighbours and its weight is
    sqrt(u_net^2 + v_net^2), with u_net = (d/timestep)*sin(theta) - u_flow
    and v_net = (d/timestep)*cos(theta) - v_flow for the distance d, the
    azimuth theta and the flow at the source; the weight is not negative,
    and it is d/timestep when the flow is zero everywhere (for a positive
    timestep and a distance that is not negative). *)
Theorem edge_cost_formula {geod : Geod} (self : ModuleNavigation) (out : stdout) (G : DiGraph) :
  grid_wf self -> snd (_transform_map self out) = Ok G ->
  forall u adj v a, dict_get (_succ G) u = Some adj -> In (v, a) adj ->
  exists s d,
    cell_in_grid (grid_dims self) s /\
    In d (valid_neighbors (fst s) (snd s) (grid_dims self)) /\
    u = node_of s /\ v = node_of d /\
    let dist := geodesic_distance (coord_at self s) (coord_at self d) in
    let th := radians (np_mod (forward_azimuth (coord_at self s) (coord_at self d)) 360) in
    let u_net := (dist / timestep self * sin th - fst (flow_at self s))%R in
    let v_net := (dist / timestep self * cos th - snd (flow_at self s))%R in
    weight a = sqrt (u_net ^ 2 + v_net ^ 2) /\
    (0 <= weight a)%R /\
    ((forall f, In f (flat (currents self)) -> f = (0%R, 0%R)) ->
     (0 < timestep self)%R -> (0 <= dist)%R ->
     weight a = (dist / timestep self)%R).
Proof.
  intros Hwf HG u adj v a Hu Hin. rewrite transform_map_result in HG.
  destruct (graph_entry_edge self Hwf G HG u adj v a Hu Hin) as (s & d & Hs & Hd & Hk & E).
  exists s, d.
  assert (Eu : u = node_of s) by exact (f_equal (fun t => fst (fst t)) E).
  assert (Ev : v = node_of d) by exact (f_equal (fun t => snd (fst t)) E).
  assert (Ea : a = snd (spec_edge self s d)) by exact (f_equal snd E).
  split; [assumption|]. split.
  { apply valid_neighbors_spec. replace (fst s, snd s) with s by now destruct s. tauto. }
  split; [assumption|]. split; [assumption|].
  subst a. cbn [snd spec_edge weight].
  split; [reflexivity|]. split; [apply spec_cost_nonneg|].
  intros Hz Hts Hdist. rewrite (flow_at_zero self s Hz).
  now apply spec_cost_zero_flow.
Qed.

Lemma edge_cost_formula_witness :
  exists adj a,
    dict_get (_succ square_graph) (node_of (0, 0)) = Some adj /\
    In (node_of (1, 1), a) adj /\
    (0 <= weight a)%R /\
    weight a = ((Rabs (1 - 0) + Rabs (1 - 0)) / 3600)%R.
Proof.
  destruct square_diagonal_entry as (adj & a & Hu & Hin).
  exists adj, a. split; [assumption|]. split; [assumption|].
  destruct (@edge_cost_formula taxicab_geod square_module [] square_graph
              square_module_wf (square_module_graph []) _ adj _ a Hu Hin)
    as (s & d & Hs & Hd & Eu & Ev & _ & Hpos & Hzero).
  split; [assumption|].
  apply valid_neighbors_spec in Hd. destruct Hd as [Hd _].
  apply (square_node_inj s 0 0 Hs) in Eu; [|lia|lia].
  apply (square_node_inj d 1 1 Hd) in Ev; [|lia|lia].
  subst s d. rewrite Hzero.
  - unfold geodesic_distance, coord_at, cell. reflexivity.
  - cbn. intros f Hf. repeat (destruct Hf as [<-|Hf]; [reflexivity|]). contradiction.
  - cbn. lra.
  - unfold geodesic_distance. cbn.
    apply Rplus_le_le_0_compat; apply Rabs_pos.
Defined.

(** ** Azimuths and the flow of the source *)

(** C7: the azimuth of every edge is the forward azimuth from the
    coordinate of its source cell to the coordinate of its neighbour,
    taken modulo 360 and so within [0, 360); its weight is computed with
    the flow at its own source, and the opposite edge exists and carries
    the weight computed with the flow at the neighbour. *)
Theorem edge_azimuth_and_source_flow {geod : Geod} (self : ModuleNavigation) (out : stdout)
    (G : DiGraph) :
  grid_wf self -> snd (_transform_map self out) = Ok G ->
  forall u adj v a, dict_get (_succ G) u = Some adj -> In (v, a) adj ->
  exists s d,
    cell_in_grid (grid_dims self) s /\ cell_in_grid (grid_dims self) d /\ king_move s d /\
    u = node_of s /\ v = node_of d /\
    azimuth a = np_mod (forward_azimuth (coord_at self s) (coord_at self d)) 360 /\
    (0 <= azimuth a < 360)%R /\
    weight a = spec_cost (timestep self) (coord_at self s) (coord_at self d) (flow_at self s) /\
    edges_getitem G v u =
      Ok (mk_attr (spec_cost (timestep self) (coord_at self d) (coord_at self s) (flow_at self d))
                  (np_mod (forward_azimuth (coord_at self d) (coord_at self s)) 360)).
Proof.
  intros Hwf HG u adj v a Hu Hin. rewrite transform_map_result in HG.
  destruct (graph_entry_edge self Hwf G HG u adj v a Hu Hin) as (s & d & Hs & Hd & Hk & E).
  exists s, d.
  assert (Eu : u = node_of s) by exact (f_equal (fun t => fst (fst t)) E).
  assert (Ev : v = node_of d) by exact (f_equal (fun t => snd (fst t)) E).
  assert (Ea : a = snd (spec_edge self s d)) by exact (f_equal snd E).
  repeat (split; [assumption|]).
  subst a u v. cbn [snd spec_edge weight azimuth]. unfold theta.
  split; [reflexivity|]. split; [apply np_mod_360_range|]. split; [reflexivity|].
  apply (graph_edges_getitem self Hwf G HG d s Hd Hs (king_move_sym s d Hk)).
Qed.

Lemma edge_azimuth_and_source_flow_witness :
  exists adj a b,
    dict_get (_succ square_graph) (node_of (0, 0)) = Some adj /\
    In (node_of (1, 1), a) adj /\
    (0 <= azimuth a < 360)%R /\
    edges_getitem square_graph (node_of (1, 1)) (node_of (0, 0)) = Ok b.
Proof.
  destruct square_diagonal_entry as (adj & a & Hu & Hin).
  destruct (@edge_azimuth_and_source_flow taxicab_geod square_module [] square_graph
              square_module_wf (square_module_graph []) _ adj _ a Hu Hin)
    as (s & d & _ & _ & _ & _ & _ & _ & Hr & _ & Hback).
  exists adj, a. eexists. split; [exact Hu|]. split; [exact Hin|]. split; [exact Hr|exact Hback].
Defined.

(** ** The verbose flag *)

Lemma build_graph_verbose {geod : Geod} (l c : ndarray (R * R)) (ts : R) (b b' : bool)
    (g g' : option DiGraph) (k k' : option KDTree) :
  build_graph (mk_ModuleNavigation l c ts b g k)
  = build_graph (mk_ModuleNavigation l c ts b' g' k').
Proof. reflexivity. Qed.

Lemma for_each_quiet {A S} (l : list A) (body : A -> S -> IO S) :
  (forall a s out, fst (body a s out) = out) ->
  forall s out, fst (for_each l body s out) = out.
Proof.
  intros Hb. induction l as [|a l IH]; intros s out; cbn [for_each]; [reflexivity|].
  unfold io_bind. specialize (Hb a s out).
  destruct (body a s out) as [o [s'|e]]; cbn [fst] in Hb; subst o; [apply IH|reflexivity].
Qed.

(** Without the flag [_transform_map] prints nothing. *)
Lemma transform_map_quiet {geod : Geod} (self : ModuleNavigation) (out : stdout) :
  verbose self = false -> fst (_transform_map self out) = out.
Proof.
  intros Hv. unfold _transform_map. rewrite Hv. unfold io_bind at 1.
  match goal with
  | |- fst (let (o', r) := for_each ?l ?b ?s ?o in _) = _ =>
      assert (HB : forall a s' out', fst (b a s' out') = out');
      [|pose proof (for_each_quiet l b HB s o) as H;
        destruct (for_each l b s o) as [o' [[i G]|e]]; cbn [fst] in H; subst o'; reflexivity]
  end.
  intros y s' out'. apply for_each_quiet. clear.
  intros x [idx G] o. unfold io_bind, io_ret, io_lift.
  destruct (_get_neighbors self y x _); reflexivity.
Qed.

(** What [__init__] ends with. *)
Lemma init_result {geod : Geod} (nav_timestep : R) (grid flow : ndarray (R * R))
    (loud : bool) (out : stdout) :
  snd (__init__ nav_timestep grid flow loud out) =
    (G <- build_graph (mk_ModuleNavigation grid flow nav_timestep loud None None) ;;
     t <- _build_tree (mk_ModuleNavigation grid flow nav_timestep loud (Some G) None) ;;
     Ok (mk_ModuleNavigation grid flow nav_timestep loud (Some G) (Some t))).
Proof.
  unfold __init__. unfold io_bind at 1.
  pose proof (transform_map_result
                (mk_ModuleNavigation grid flow nav_timestep loud None None) out) as H.
  destruct (_transform_map (mk_ModuleNavigation grid flow nav_timestep loud None None)
                           out) as [o r].
  cbn [snd] in H. subst r.
  destruct (build_graph _) as [G|e]; cbn [bind]; [|reflexivity].
  unfold io_bind, io_lift, io_ret.
  destruct (_build_tree _); reflexivity.
Qed.

(** C10: the graph, or the exception, that [_transform_map] ends with is
    the same with and without the verbose flag; two modules made from the
    same arguments but for the flag have the same graph and the same tree
    and answer every query alike; and without the flag nothing is printed. *)
Theorem verbose_only_prints {geod : Geod} (nav_timestep : R) (grid flow : ndarray (R * R))
    (g : option DiGraph) (k : option KDTree) (out1 out2 : stdout) :
  snd (_transform_map (mk_ModuleNavigation grid flow nav_timestep true g k) out1)
  = snd (_transform_map (mk_ModuleNavigation grid flow nav_timestep false g k) out2) /\
  fst (_transform_map (mk_ModuleNavigation grid flow nav_timestep false g k) out2) = out2 /\
  fst (__init__ nav_timestep grid flow false out2) = out2 /\
  match snd (__init__ nav_timestep grid flow true out1),
        snd (__init__ nav_timestep grid flow false out2) with
  | Ok noisy, Ok quiet =>
      nav_graph noisy = nav_graph quiet /\ kdtree noisy = kdtree quiet /\
      (forall geo_pos geo_dest,
         get_next_azimuth noisy geo_pos geo_dest = get_next_azimuth quiet geo_pos geo_dest) /\
      (forall geo_pos, get_current noisy geo_pos = get_current quiet geo_pos)
  | Err e1, Err e2 => e1 = e2
  | _, _ => False
  end.
Proof.
  split; [|split; [|split]].
  - rewrite !transform_map_result. reflexivity.
  - now apply transform_map_quiet.
  - unfold __init__. unfold io_bind at 1.
    pose proof (transform_map_quiet
                  (mk_ModuleNavigation grid flow nav_timestep false None None) out2
                  eq_refl) as Hq.
    destruct (_transform_map (mk_ModuleNavigation grid flow nav_timestep false None None)
                             out2) as [o [G|e]]; cbn [fst] in Hq; subst o; [|reflexivity].
    unfold io_bind, io_lift, io_ret.
    destruct (_build_tree _); reflexivity.
  - rewrite !init_result.
    rewrite (build_graph_verbose grid flow nav_timestep true false None None None None).
    destruct (build_graph _) as [G|e]; cbn [bind]; [|reflexivity].
    unfold _build_tree. cbn [latlons].
    destruct (KDTree_new _) as [t|e]; cbn [bind]; [|reflexivity].
    cbn [nav_graph kdtree].
    split; [reflexivity|]. split; [reflexivity|]. split; reflexivity.
Qed.

(** ** The small instance, continued *)

Ltac decide_Rlt :=
  match goal with
  | |- context [Rlt_dec ?a ?b] =>
      let H := fresh "H" in
      destruct (Rlt_dec a b) as [H|H];
      [ try (exfalso; unfold sq_dist in H; cbn [fst snd] in H; nra)
      | try (exfalso; apply H; unfold sq_dist; cbn [fst snd]; nra) ]
  end.

Lemma query_square_origin :
  snd (KDTree_query (flat square_latlons) (0, 0)%R) = 0.
Proof.
  unfold KDTree_query, square_latlons. cbn [flat nearest_from].
  repeat decide_Rlt. reflexivity.
Qed.

Lemma query_square_far :
  snd (KDTree_query (flat square_latlons) (1, 1)%R) = 3.
Proof.
  unfold KDTree_query, square_latlons. cbn [flat nearest_from].
  repeat decide_Rlt. reflexivity.
Qed.


Lemma square_engine_wf : grid_wf square_engine.
Proof.
  unfold grid_wf, ndarray_wf, UINT_MAX. cbn. repeat split; lia.
Qed.

Lemma square_engine_ok : @engine_ok taxicab_geod square_engine.
Proof.
  split; [apply square_engine_wf|]. split; [reflexivity|]. split; [reflexivity|].
  exists square_graph. split; [reflexivity|].
  change (@build_graph taxicab_geod square_engine)
    with (@build_graph taxicab_geod square_module).
  rewrite <- (transform_map_result square_module []). apply square_module_graph.
Qed.

Lemma square_geo_idx_origin : _geo_idx square_engine (0, 0)%R = Ok (0, 0).
Proof.
  unfold _geo_idx, square_engine. cbn [kdtree attr bind latlons].
  rewrite query_square_origin. reflexivity.
Qed.

Lemma square_geo_idx_far : _geo_idx square_engine (1, 1)%R = Ok (1, 1).
Proof.
  unfold _geo_idx, square_engine. cbn [kdtree attr bind latlons].
  rewrite query_square_far. reflexivity.
Qed.

(** ** The grid of a single cell *)

(** C5 fails on the grid of one cell: the cell has no valid neighbour, the
    array of the neighbours' coordinates is one-dimensional, and taking
    its columns raises IndexError, so that no graph is built. *)
Theorem single_cell_grid_raises (geod : Geod) (out : stdout) :
  snd (_transform_map single_cell_module out) = Err IndexError.
Proof.
  rewrite transform_map_result. apply build_graph_1x1; [|reflexivity].
  unfold grid_wf, ndarray_wf, UINT_MAX. cbn. repeat split; lia.
Qed.

(** ** Updating the field *)

Lemma set_currents_map_result {geod : Geod} (self : ModuleNavigation)
    (grid flow : ndarray (R * R)) (out : stdout) :
  snd (set_currents_map self grid flow out) =
    match build_graph (mk_ModuleNavigation grid flow (timestep self) (verbose self)
                                           (nav_graph self) (kdtree self)) with
    | Ok g => (mk_ModuleNavigation grid flow (timestep self) (verbose self)
                                   (Some g) (kdtree self), Ok tt)
    | Err e => (mk_ModuleNavigation grid flow (timestep self) (verbose self)
                                    (nav_graph self) (kdtree self), Err e)
    end.
Proof.
  unfold set_currents_map.
  pose proof (transform_map_result
                (mk_ModuleNavigation grid flow (timestep self) (verbose self)
                                     (nav_graph self) (kdtree self)) out) as H.
  cbn [timestep verbose nav_graph kdtree] in *.
  destruct (_transform_map _ out) as [o r]. cbn [snd] in H. subst r.
  destruct (build_graph _); reflexivity.
Qed.

(** [set_currents_map] leaves the tree as it was, whatever the new grid. *)
Lemma set_currents_map_keeps_kdtree {geod : Geod} (self : ModuleNavigation)
    (grid flow : ndarray (R * R)) (out : stdout) :
  kdtree (fst (snd (set_currents_map self grid flow out))) = kdtree self.
Proof.
  rewrite set_currents_map_result. destruct (build_graph _); reflexivity.
Qed.

(** C1 fails: after [set_currents_map] with a new grid the graph is built
    from the new grid and the tree still holds the coordinates of the old
    one.  In the new grid the position (0, 0) is the coordinate of cell
    (1, 1), where the flow is (4, 0); the query resolves it with the old
    tree to cell (0, 0) and answers with the flow (1, 0) of that cell. *)
Theorem set_currents_map_keeps_old_index :
  exists st' g',
    snd (@set_currents_map taxicab_geod square_engine mirrored_latlons streams [])
      = (st', Ok tt) /\
    latlons st' = mirrored_latlons /\
    nav_graph st' = Some g' /\ @build_graph taxicab_geod st' = Ok g' /\
    kdtree st' = Some (flat square_latlons) /\
    _build_tree st' = Ok (flat mirrored_latlons) /\
    getitem2 (latlons st') 1 1 = Ok (0, 0)%R /\
    getitem2 (currents st') 1 1 = Ok (4, 0)%R /\
    _geo_idx st' (0, 0)%R = Ok (0, 0) /\
    get_current st' (0, 0)%R = Ok (1, 0)%R.
Proof.
  eexists. eexists. split.
  { rewrite set_currents_map_result.
    rewrite (@build_graph_ok taxicab_geod).
    - reflexivity.
    - unfold grid_wf, ndarray_wf, UINT_MAX. cbn. repeat split; lia.
    - cbn. intros [=]. }
  cbn [latlons currents nav_graph kdtree square_engine timestep verbose].
  split; [reflexivity|]. split; [reflexivity|]. split.
  { rewrite (@build_graph_ok taxicab_geod).
    - reflexivity.
    - unfold grid_wf, ndarray_wf, UINT_MAX. cbn. repeat split; lia.
    - cbn. intros [=]. }
  split; [reflexivity|]. split; [reflexivity|]. split; [reflexivity|]. split; [reflexivity|].
  assert (Hidx : _geo_idx (mk_ModuleNavigation mirrored_latlons streams 3600%R false
                             (Some (add_edges_from empty_DiGraph
                                      (@grid_edges taxicab_geod
                                         (mk_ModuleNavigation mirrored_latlons streams 3600%R false
                                            (Some square_graph) (Some (flat square_latlons))))))
                             (Some (flat square_latlons))) (0, 0)%R = Ok (0, 0)).
  { unfold _geo_idx. cbn [kdtree attr bind latlons].
    rewrite query_square_origin. reflexivity. }
  split; [exact Hidx|].
  unfold get_current. rewrite Hidx. reflexivity.
Qed.

(** ** Queries *)

Lemma unravel_index_in (i : Z) (dims : Z * Z) (c : Z * Z) :
  0 <= fst dims -> unravel_index i dims = Ok c -> cell_in_grid dims c.
Proof.
  destruct dims as [Y X]. cbn [fst]. intros HY. unfold unravel_index.
  destruct (Z.leb_spec 0 i); [|discriminate].
  destruct (Z.ltb_spec i (Y * X)); [|discriminate]. cbn [andb].
  intros [= <-]. unfold cell_in_grid. cbn [fst snd].
  assert (HX : 0 < X) by nia.
  pose proof (Z.mod_pos_bound i X HX). pose proof (Z.div_pos i X ltac:(lia) HX).
  split; [|lia]. split; [lia|]. apply Z.div_lt_upper_bound; lia.
Qed.

Lemma geo_idx_in (self : ModuleNavigation) (geo_pos : R * R) (c : Z * Z) :
  ndarray_wf (latlons self) -> _geo_idx self geo_pos = Ok c ->
  cell_in_grid (shape0 (latlons self), shape1 (latlons self)) c.
Proof.
  intros (H0 & _) H. unfold _geo_idx in H. destruct geo_pos as [lat lon].
  destruct (attr (kdtree self)); [|discriminate]. cbn [bind] in H.
  now apply unravel_index_in in H.
Qed.

Lemma dijkstra_path_same (G : DiGraph) (n : NodeId) :
  has_node G n = true -> dijkstra_path G n n = Ok [n].
Proof.
  intros H. unfold dijkstra_path, multi_source_dijkstra. rewrite H. cbn [negb].
  destruct (bytes_eq_dec n n); [reflexivity|congruence].
Qed.

Lemma dijkstra_path_no_source (G : DiGraph) (s t : NodeId) :
  has_node G s = false -> s <> t -> dijkstra_path G s t = Err NodeNotFound.
Proof.
  intros H _. unfold dijkstra_path, multi_source_dijkstra. now rewrite H.
Qed.

Section Engine.
Context {geod : Geod}.
Variable self : ModuleNavigation.
Hypothesis Hok : engine_ok self.

Lemma engine_geo_idx_cell (geo_pos : R * R) (c : Z * Z) :
  _geo_idx self geo_pos = Ok c -> cell_in_grid (grid_dims self) c.
Proof.
  destruct Hok as ((Hl & _) & E0 & E1 & _). intros H.
  apply geo_idx_in in H; [|assumption]. unfold grid_dims. now rewrite <- E0, <- E1.
Qed.

(** A query whose two positions resolve to the same cell ends with the
    IndexError of [shortest_path[1]]. *)
Lemma same_cell_route (geo_pos geo_dest : R * R) (c : Z * Z) :
  _geo_idx self geo_pos = Ok c -> _geo_idx self geo_dest = Ok c ->
  get_next_azimuth self geo_pos geo_dest = Err IndexError.
Proof.
  intros Hp Hd. pose proof (engine_geo_idx_cell _ _ Hp) as Hc.
  destruct Hok as (Hwf & _ & _ & G & HG & Hb).
  unfold get_next_azimuth. rewrite Hp, Hd. cbn [bind].
  rewrite (node_of_encode self Hwf c Hc). cbn [bind]. rewrite HG. cbn [attr bind].
  rewrite (dijkstra_path_same G (node_of c)) by now apply (graph_has_node self Hwf G Hb).
  reflexivity.
Qed.
End Engine.

(** C4, as stated, fails: on the small instance a query from the position
    (0, 0) to itself does not end with DegenerateRoute. *)
Lemma same_cell_route_is_not_DegenerateRoute :
  ~ (forall (geod : Geod) (self : ModuleNavigation) (geo_pos geo_dest : R * R) (c : Z * Z),
       engine_ok self ->
       _geo_idx self geo_pos = Ok c -> _geo_idx self geo_dest = Ok c ->
       get_next_azimuth self geo_pos geo_dest = Err DegenerateRoute).
Proof.
  intros H.
  specialize (H taxicab_geod square_engine (0, 0)%R (0, 0)%R (0, 0) square_engine_ok
                square_geo_idx_origin square_geo_idx_origin).
  rewrite (@same_cell_route taxicab_geod square_engine square_engine_ok _ _ _
             square_geo_idx_origin square_geo_idx_origin) in H.
  discriminate.
Qed.

(** C4 (amended): when the two positions of a routing query resolve to the
    same grid cell, the query returns no path and no azimuth: it ends with
    the IndexError raised by reading the second entry of the path of
    length 1 that the search returns. *)
Theorem same_cell_route_raises_IndexError {geod : Geod} (self : ModuleNavigation)
    (geo_pos geo_dest : R * R) (c : Z * Z) :
  engine_ok self ->
  _geo_idx self geo_pos = Ok c -> _geo_idx self geo_dest = Ok c ->
  (exists G n, nav_graph self = Some G /\ _encode_node_id c = Ok n /\
               dijkstra_path G n n = Ok [n]) /\
  get_next_azimuth self geo_pos geo_dest = Err IndexError.
Proof.
  intros Hok Hp Hd. split; [|now apply (same_cell_route self Hok _ _ c)].
  pose proof (engine_geo_idx_cell self Hok _ _ Hp) as Hc.
  destruct Hok as (Hwf & _ & _ & G & HG & Hb).
  exists G, (node_of c). split; [assumption|]. split; [now apply (node_of_encode self Hwf)|].
  apply dijkstra_path_same. now apply (graph_has_node self Hwf G Hb).
Qed.

Lemma same_cell_route_raises_IndexError_witness :
  get_next_azimuth square_engine (0, 0)%R (0, 0)%R = Err IndexError.
Proof.
  apply (@same_cell_route_raises_IndexError taxicab_geod square_engine (0, 0)%R (0, 0)%R (0, 0)
           square_engine_ok square_geo_idx_origin square_geo_idx_origin).
Defined.

(** ** The heap *)

Lemma entry_lt_true_key (a b : heap_entry) :
  entry_lt a b = true -> (entry_key a <= entry_key b)%R.
Proof.
  destruct a as [[da ca] na], b as [[db cb] nb]. unfold entry_lt, entry_key. cbn [fst].
  destruct (Req_dec_T da db); [intros _; lra|].
  destruct (Rlt_dec da db); [intros _; lra|discriminate].
Qed.

Lemma entry_lt_false_key (a b : heap_entry) :
  entry_lt a b = false -> (entry_key b <= entry_key a)%R.
Proof.
  destruct a as [[da ca] na], b as [[db cb] nb]. unfold entry_lt, entry_key. cbn [fst].
  destruct (Req_dec_T da db); [intros _; lra|].
  destruct (Rlt_dec da db); [discriminate|intros _; lra].
Qed.

Lemma pop_min_spec (rest : list heap_entry) :
  forall best m r, pop_min best rest = (m, r) ->
    (entry_key m <= entry_key best)%R /\
    (forall e, In e r -> (entry_key m <= entry_key e)%R) /\
    (forall e, In e (m :: r) <-> In e (best :: rest)) /\
    List.length r = List.length rest.
Proof.
  induction rest as [|e rest IH]; intros best m r H; cbn [pop_min] in H.
  - injection H as <- <-. repeat split; try lra; try tauto. intros e [].
  - destruct (entry_lt e best) eqn:E.
    + destruct (pop_min e rest) as [m' r'] eqn:Ep. injection H as <- <-.
      destruct (IH _ _ _ Ep) as (Hk & Hr & Hin & Hlen).
      pose proof (entry_lt_true_key _ _ E) as Hlt.
      split; [lra|]. split; [|split].
      * intros x [<-|Hx]; [lra|now apply Hr].
      * intros x. specialize (Hin x). cbn [In] in *. tauto.
      * cbn [List.length]. now rewrite Hlen.
    + destruct (pop_min best rest) as [m' r'] eqn:Ep. injection H as <- <-.
      destruct (IH _ _ _ Ep) as (Hk & Hr & Hin & Hlen).
      pose proof (entry_lt_false_key _ _ E) as Hlt.
      split; [lra|]. split; [|split].
      * intros x [<-|Hx]; [lra|now apply Hr].
      * intros x. specialize (Hin x). cbn [In] in *. tauto.
      * cbn [List.length]. now rewrite Hlen.
Qed.

Lemma heappop_spec (h : list heap_entry) (m : heap_entry) (r : list heap_entry) :
  heappop h = Some (m, r) ->
  (forall e, In e r -> (entry_key m <= entry_key e)%R) /\
  (forall e, In e (m :: r) <-> In e h) /\
  S (List.length r) = List.length h.
Proof.
  destruct h as [|e h]; cbn [heappop]; [discriminate|]. intros [= H].
  destruct (pop_min_spec _ _ _ _ H) as (_ & Hr & Hin & Hlen).
  split; [assumption|]. split; [assumption|]. cbn [List.length]. now rewrite Hlen.
Qed.

Lemma heappop_None (h : list heap_entry) : heappop h = None -> h = [].
Proof. destruct h; [reflexivity|discriminate]. Qed.

(** ** One relaxation *)

(** The outcomes of a relaxation that does not raise. *)
Lemma relax_cases (v : NodeId) (st st' : dijkstra_state) (u : NodeId) (e : edge_attr) :
  relax v st (u, e) = Ok st' ->
  exists dv, dict_get (dist st) v = Some dv /\
    ((exists du, dict_get (dist st) u = Some du /\ st' = st) \/
     (dict_get (dist st) u = None /\
      exists su, dict_get (seen st) u = Some su /\ ~ (dv + weight e < su)%R /\ st' = st) \/
     (dict_get (dist st) u = None /\
      (dict_get (seen st) u = None \/
       exists su, dict_get (seen st) u = Some su /\ (dv + weight e < su)%R) /\
      exists pv, dict_get (paths st) v = Some pv /\
                 st' = pushed v st u (dv + weight e)%R pv)).
Proof.
  unfold relax, dict_getitem.
  destruct (dict_get (dist st) v) as [dv|]; cbn [bind]; [|discriminate].
  intros H. exists dv. split; [reflexivity|].
  destruct (dict_get (dist st) u) as [du|].
  - destruct (Rlt_dec (dv + weight e) du); [discriminate|].
    injection H as <-. left. eauto.
  - right. destruct (dict_get (seen st) u) as [su|].
    + destruct (Rlt_dec (dv + weight e) su) as [Hlt|Hge].
      * right. split; [reflexivity|]. split; [right; eauto|].
        destruct (dict_get (paths st) v) as [pv|]; cbn [bind] in H; [|discriminate].
        injection H as <-. eauto.
      * injection H as <-. left. split; [reflexivity|]. eauto.
    + right. split; [reflexivity|]. split; [now left|].
      destruct (dict_get (paths st) v) as [pv|]; cbn [bind] in H; [|discriminate].
      injection H as <-. eauto.
Qed.

(** A relaxation raises nothing when the node relaxed from has its
    distance and its path and no final distance exceeds the new one. *)
Lemma relax_ok (v : NodeId) (st : dijkstra_state) (u : NodeId) (e : edge_attr) (dv : R) :
  dict_get (dist st) v = Some dv ->
  dict_mem (paths st) v = true ->
  (forall du, dict_get (dist st) u = Some du -> (du <= dv + weight e)%R) ->
  exists st', relax v st (u, e) = Ok st'.
Proof.
  intros Hv Hp Hu. unfold relax, dict_getitem. rewrite Hv. cbn [bind].
  unfold dict_mem in Hp. destruct (dict_get (paths st) v) as [pv|]; [|discriminate].
  cbn [bind].
  destruct (dict_get (dist st) u) as [du|].
  - destruct (Rlt_dec (dv + weight e) du) as [Hlt|]; [|eauto].
    specialize (Hu du eq_refl). lra.
  - destruct (dict_get (seen st) u) as [su|]; [|eauto].
    destruct (Rlt_dec (dv + weight e) su); eauto.
Qed.

Lemma relax_dist_fringe (v : NodeId) (st st' : dijkstra_state) (ue : NodeId * edge_attr) :
  relax v st ue = Ok st' ->
  dist st' = dist st /\ (List.length (fringe st') <= S (List.length (fringe st)))%nat.
Proof.
  destruct ue as [u e]. intros H. apply relax_cases in H.
  destruct H as (dv & _ & [(du & _ & ->)|[(_ & su & _ & _ & ->)|(_ & _ & pv & _ & ->)]]);
    cbn; split; auto.
Qed.

Lemma foldM_relax_dist_fringe (v : NodeId) (adj : list (NodeId * edge_attr)) :
  forall st st', foldM (relax v) adj st = Ok st' ->
    dist st' = dist st /\
    (List.length (fringe st') <= List.length (fringe st) + List.length adj)%nat.
Proof.
  induction adj as [|ue adj IH]; intros st st' H; cbn [foldM] in H.
  - injection H as <-. split; [reflexivity|lia].
  - destruct (relax v st ue) as [st1|] eqn:E; cbn [bind] in H; [|discriminate].
    apply relax_dist_fringe in E. destruct E as [Ed El].
    destruct (IH _ _ H) as [Hd Hl]. split; [congruence|]. cbn [List.length]. lia.
Qed.

(** A general induction over a fold that does not raise. *)
Lemma foldM_invariant {A S} (f : S -> A -> result S) (P : S -> Prop) (l : list A) :
  (forall s a s', In a l -> P s -> f s a = Ok s' -> P s') ->
  forall s s', P s -> foldM f l s = Ok s' -> P s'.
Proof.
  induction l as [|a l IH]; intros Hstep s s' Hs H; cbn [foldM] in H.
  - now injection H as <-.
  - destruct (f s a) as [s1|] eqn:E; cbn [bind] in H; [|discriminate].
    apply (IH (fun s0 a0 s0' Hin => Hstep s0 a0 s0' (or_intror Hin)) s1 s'); [|assumption].
    apply (Hstep s a s1); [now left|assumption|assumption].
Qed.

Lemma foldM_progress {A S} (f : S -> A -> result S) (P : S -> Prop) (l : list A) :
  (forall s a, In a l -> P s -> exists s', f s a = Ok s' /\ P s') ->
  forall s, P s -> exists s', foldM f l s = Ok s' /\ P s'.
Proof.
  induction l as [|a l IH]; intros Hstep s Hs; cbn [foldM].
  - eauto.
  - destruct (Hstep s a (or_introl eq_refl) Hs) as (s1 & E & H1). rewrite E. cbn [bind].
    apply IH; [|assumption]. intros s0 a0 Hin. apply Hstep. now right.
Qed.

(** ** The search ends *)

Lemma unsearched_set_le (G : DiGraph) (D : dict R) (v : NodeId) (d : R) :
  (unsearched G (dict_set D v d) <= unsearched G D)%nat.
Proof.
  unfold unsearched. induction (_succ G) as [|[k adj] l IH]; cbn [fold_right]; [lia|].
  rewrite dict_mem_set. destruct (bytes_eq_dec k v); destruct (dict_mem D k); lia.
Qed.

Lemma unsearched_set_lt (G : DiGraph) (D : dict R) (v : NodeId) (d : R)
    (adj : dict edge_attr) :
  dict_get (_succ G) v = Some adj -> dict_mem D v = false ->
  (unsearched G (dict_set D v d) + S (List.length adj) <= unsearched G D)%nat.
Proof.
  unfold unsearched. induction (_succ G) as [|[k a] l IH]; cbn [fold_right dict_get].
  - discriminate.
  - intros Hg Hm. rewrite dict_mem_set.
    destruct (bytes_eq_dec v k) as [->|Hne].
    + injection Hg as ->. destruct (bytes_eq_dec k k); [|congruence]. rewrite Hm.
      pose proof (unsearched_set_le {| _node := []; _succ := l |} D k d) as Hle.
      unfold unsearched in Hle. cbn [_succ] in Hle. lia.
    + destruct (bytes_eq_dec k v); [congruence|].
      specialize (IH Hg Hm). destruct (dict_mem D k); lia.
Qed.

Lemma dijkstra_loop_terminates (G : DiGraph) (target : NodeId) (fuel : nat) :
  forall st, (work_left G st < fuel)%nat -> dijkstra_loop fuel G target st <> None.
Proof.
  induction fuel as [|fuel IH]; intros st Hw; [lia|].
  cbn [dijkstra_loop].
  destruct (heappop (fringe st)) as [[[[d c] v] fr]|] eqn:Ep; [|discriminate].
  apply heappop_spec in Ep. destruct Ep as (_ & _ & Hlen).
  unfold work_left in Hw. cbn [dist fringe].
  destruct (dict_mem (dist st) v) eqn:Em.
  - apply IH. unfold work_left. cbn [dist fringe]. lia.
  - destruct (bytes_eq_dec v target); [discriminate|].
    unfold dict_getitem. destruct (dict_get (_succ G) v) as [adj|] eqn:Ea; [|discriminate].
    destruct (foldM (relax v) adj _) as [st'|] eqn:Ef; [|discriminate].
    apply IH. apply foldM_relax_dist_fringe in Ef. cbn [dist fringe] in Ef.
    destruct Ef as [Ed El]. unfold work_left. rewrite Ed.
    pose proof (unsearched_set_lt G (dist st) v d adj Ea Em). lia.
Qed.

Lemma unsearched_nil (G : DiGraph) :
  unsearched G [] = fold_right (fun '(_, adj) n => (S (List.length adj) + n)%nat) 0%nat (_succ G).
Proof.
  unfold unsearched. induction (_succ G) as [|[k a] l IH]; cbn [fold_right]; [reflexivity|].
  rewrite IH. reflexivity.
Qed.

Lemma dijkstra_fuel_enough (G : DiGraph) (source : NodeId) :
  (work_left G (dijkstra_init source) < dijkstra_fuel G)%nat.
Proof.
  unfold work_left, dijkstra_fuel. rewrite <- unsearched_nil.
  unfold dijkstra_init. cbn [fringe dist List.length]. lia.
Qed.

(** [_dijkstra_multisource] returns what its loop returns: the fuel is
    never used up. *)
Lemma dijkstra_multisource_loop (G : DiGraph) (source target : NodeId) :
  exists r, dijkstra_loop (dijkstra_fuel G) G target (dijkstra_init source) = Some r /\
            _dijkstra_multisource G source target = r.
Proof.
  unfold _dijkstra_multisource. fold (dijkstra_init source).
  pose proof (dijkstra_loop_terminates G target (dijkstra_fuel G) (dijkstra_init source)
                (dijkstra_fuel_enough G source)) as H.
  destruct (dijkstra_loop _ _ _ _) as [r|]; [eauto|congruence].
Qed.

(** ** Invariants of the search *)

Lemma dijkstra_loop_invariant (G : DiGraph) (target : NodeId)
    (Q F : dijkstra_state -> Prop) :
  (forall st d c v fr,
     Q st -> heappop (fringe st) = Some ((d, c, v), fr) ->
     (dict_mem (dist st) v = true ->
      Q (mk_dstate (dist st) (seen st) (paths st) fr (counter st))) /\
     (dict_mem (dist st) v = false ->
      (v = target ->
       F (mk_dstate (dict_set (dist st) v d) (seen st) (paths st) fr (counter st))) /\
      (v <> target ->
       exists adj st',
         dict_get (_succ G) v = Some adj /\
         foldM (relax v) adj
               (mk_dstate (dict_set (dist st) v d) (seen st) (paths st) fr (counter st))
           = Ok st' /\
         Q st'))) ->
  (forall st, Q st -> fringe st = [] -> F st) ->
  forall fuel st r,
    Q st -> dijkstra_loop fuel G target st = Some r -> exists st', r = Ok st' /\ F st'.
Proof.
  intros Hstep Hend. induction fuel as [|fuel IH]; intros st r HQ H; [discriminate|].
  cbn [dijkstra_loop] in H.
  destruct (heappop (fringe st)) as [[[[d c] v] fr]|] eqn:Ep.
  - destruct (Hstep st d c v fr HQ Ep) as [Hin Hout]. cbn [dist seen paths fringe counter] in H.
    destruct (dict_mem (dist st) v) eqn:Em.
    + apply (IH _ _ (Hin eq_refl) H).
    + destruct (Hout eq_refl) as [Ht Hn].
      destruct (bytes_eq_dec v target) as [E|E].
      * injection H as <-. eauto.
      * destruct (Hn E) as (adj & st' & Ha & Hf & HQ').
        unfold dict_getitem in H. rewrite Ha, Hf in H. apply (IH _ _ HQ' H).
  - injection H as <-. exists st. split; [reflexivity|].
    apply Hend; [assumption|]. now apply heappop_None.
Qed.

Section Search.
Variable G : DiGraph.
Variable s : NodeId.
Hypothesis Hwf : graph_wf G.
Hypothesis Hnn : nonneg_weights G.
Hypothesis Hs : has_node G s = true.

Lemma search_inv_init : search_inv G s (dijkstra_init s).
Proof.
  unfold search_inv, dijkstra_init. cbn [fringe dist paths]. split; [|split].
  - intros e [<-|[]]. cbn [entry_node snd]. split; [constructor|]. split.
    + destruct Hwf as (_ & Hmem & _). rewrite <- Hmem. exact Hs.
    + unfold dict_mem. cbn. destruct (bytes_eq_dec s s); [reflexivity|congruence].
  - intros v H. discriminate.
  - intros u du e H. discriminate.
Qed.

Lemma relax_inv_search (v : NodeId) (d : R) (st : dijkstra_state) :
  relax_inv G s v d st -> search_inv G s st.
Proof.
  intros (Hf & Hd & Hv & Hmax & Hmin & _). split; [assumption|]. split; [assumption|].
  intros u du e Hu He. specialize (Hmax u du Hu). specialize (Hmin e He). lra.
Qed.

Lemma relax_inv_step (v : NodeId) (d : R) (adj : dict edge_attr) (st : dijkstra_state)
    (ue : NodeId * edge_attr) :
  dict_get (_succ G) v = Some adj -> In ue adj -> relax_inv G s v d st ->
  exists st', relax v st ue = Ok st' /\ relax_inv G s v d st'.
Proof.
  intros Ha Hin Hinv. destruct ue as [u e].
  pose proof Hinv as (Hf & Hd & Hv & Hmax & Hmin & Hp & Hr).
  assert (Hw : (0 <= weight e)%R) by apply (Hnn v adj u e Ha Hin).
  destruct (relax_ok v st u e d Hv Hp) as [st' E].
  { intros du Hu. specialize (Hmax u du Hu). lra. }
  exists st'. split; [assumption|].
  apply relax_cases in E.
  destruct E as (dv & Hdv & [(du & _ & ->)|[(_ & su & _ & _ & ->)|(Hnu & _ & pv & Hpv & ->)]]);
    try assumption.
  rewrite Hv in Hdv. injection Hdv as <-.
  destruct Hwf as (_ & _ & Hadj). destruct (Hadj v adj Ha) as [Hnd Hkeys].
  assert (Hru : reachable G s u).
  { apply (reach_step G s v u Hr). exists adj, e. split; [assumption|].
    now apply In_dict_get. }
  unfold relax_inv, pushed. cbn [fringe dist paths seen].
  split; [|split; [|split; [|split; [|split; [|split]]]]]; try assumption.
  - intros x [<-|Hx].
    + cbn [entry_node snd]. split; [assumption|]. split; [now apply (Hkeys u e)|].
      rewrite dict_mem_set. destruct (bytes_eq_dec u u); [reflexivity|congruence].
    + destruct (Hf x Hx) as (H1 & H2 & H3). split; [assumption|]. split; [assumption|].
      rewrite dict_mem_set. destruct (bytes_eq_dec (entry_node x) u); [reflexivity|assumption].
  - intros x [<-|Hx]; [cbn [entry_key fst]; lra|now apply Hmin].
  - rewrite dict_mem_set. destruct (bytes_eq_dec v u); [reflexivity|assumption].
Qed.

Lemma relax_inv_fold (v : NodeId) (d : R) (adj : dict edge_attr) (st : dijkstra_state) :
  dict_get (_succ G) v = Some adj -> relax_inv G s v d st ->
  exists st', foldM (relax v) adj st = Ok st' /\ relax_inv G s v d st'.
Proof.
  intros Ha. apply foldM_progress. intros st0 ue Hin. now apply (relax_inv_step v d adj).
Qed.

(** The state in which the edges of a node popped for the first time
    are relaxed. *)
Lemma search_inv_pop (st : dijkstra_state) (d : R) (c : nat) (v : NodeId)
    (fr : list heap_entry) :
  search_inv G s st -> heappop (fringe st) = Some ((d, c, v), fr) ->
  search_inv G s (mk_dstate (dist st) (seen st) (paths st) fr (counter st)) /\
  relax_inv G s v d
    (mk_dstate (dict_set (dist st) v d) (seen st) (paths st) fr (counter st)) /\
  exists adj, dict_get (_succ G) v = Some adj.
Proof.
  intros (Hf & Hd & Hle) Ep. apply heappop_spec in Ep. destruct Ep as (Hmin & Hin & _).
  assert (Hpop : In (d, c, v) (fringe st)) by (apply Hin; now left).
  assert (Hsub : forall e, In e fr -> In e (fringe st)) by (intros e He; apply Hin; now right).
  destruct (Hf _ Hpop) as (Hrv & Hgv & Hpv). cbn [entry_node snd] in Hrv, Hgv, Hpv.
  split; [|split].
  - unfold search_inv. cbn [fringe dist paths]. split; [|split]; auto.
    intros u du e Hu He. apply (Hle u du e Hu). auto.
  - unfold relax_inv. cbn [fringe dist paths].
    split; [|split; [|split; [|split; [|split; [|split]]]]]; auto.
    + intros u Hu. rewrite dict_mem_set in Hu.
      destruct (bytes_eq_dec u v) as [->|]; [assumption|auto].
    + apply dict_get_set_same.
    + intros u du Hu. destruct (bytes_eq_dec u v) as [->|Hne].
      * rewrite dict_get_set_same in Hu. injection Hu as <-. lra.
      * rewrite dict_get_set_other in Hu by assumption.
        apply (Hle u du (d, c, v) Hu Hpop).
  - unfold dict_mem in Hgv. destruct (dict_get (_succ G) v) as [adj|]; [eauto|discriminate].
Qed.

(** Whatever the loop returns, it is a state and not an exception, and
    every node with a final distance is reachable from the source. *)
Lemma dijkstra_loop_reachable (target : NodeId) (fuel : nat) (r : result dijkstra_state) :
  dijkstra_loop fuel G target (dijkstra_init s) = Some r ->
  exists st', r = Ok st' /\ forall v, dict_mem (dist st') v = true -> reachable G s v.
Proof.
  apply (dijkstra_loop_invariant G target (search_inv G s)
           (fun st => forall v, dict_mem (dist st) v = true -> reachable G s v)).
  - intros st d c v fr HQ Ep.
    destruct (search_inv_pop st d c v fr HQ Ep) as (H1 & H2 & adj & Ha).
    split; [intros _; assumption|]. intros _. split.
    + intros _. apply relax_inv_search in H2. apply H2.
    + intros _. destruct (relax_inv_fold v d adj _ Ha H2) as (st' & Hf & Hinv).
      exists adj, st'. split; [assumption|]. split; [assumption|].
      now apply (relax_inv_search v d).
  - intros st (_ & Hd & _) _. assumption.
  - apply search_inv_init.
Qed.

(** A search from a node of the graph to a node that cannot be reached
    ends with NetworkXNoPath. *)
Lemma dijkstra_path_unreachable (t : NodeId) :
  ~ reachable G s t -> dijkstra_path G s t = Err NetworkXNoPath.
Proof.
  intros Hnr. unfold dijkstra_path, multi_source_dijkstra. rewrite Hs. cbn [negb].
  destruct (bytes_eq_dec t s) as [->|Hne]; [exfalso; apply Hnr; constructor|].
  destruct (dijkstra_multisource_loop G s t) as (r & Hloop & ->).
  destruct (dijkstra_loop_reachable t _ r Hloop) as (st' & -> & Hd). cbn [bind].
  destruct (dict_get (dist st') t) as [d|] eqn:E; [|reflexivity].
  exfalso. apply Hnr. apply Hd. unfold dict_mem. now rewrite E.
Qed.
End Search.

(** ** Failures of a routing query *)

Lemma built_graph_wf_nonneg {geod : Geod} (self : ModuleNavigation) (G : DiGraph) :
  grid_wf self -> build_graph self = Ok G -> graph_wf G /\ nonneg_weights G.
Proof.
  intros Hwf HG. split; [apply (build_graph_built self Hwf G HG)|].
  intros u adj v a Hu Hin.
  destruct (graph_entry_edge self Hwf G HG u adj v a Hu Hin) as (s & d & _ & _ & _ & E).
  assert (Ea : a = snd (spec_edge self s d)) by exact (f_equal snd E).
  subst a. cbn [snd spec_edge weight]. apply spec_cost_nonneg.
Qed.

Lemma reachable_node (G : DiGraph) (s t : NodeId) :
  graph_wf G -> reachable G s t -> t = s \/ has_node G t = true.
Proof.
  intros (_ & Hmem & Hadj) H. destruct H as [|u v _ (adj & a & Hu & Hv)]; [now left|].
  right. unfold has_node. rewrite Hmem.
  apply (proj2 (Hadj u adj Hu) v a). now apply dict_get_In.
Qed.

Lemma get_next_azimuth_search (self : ModuleNavigation) (G : DiGraph)
    (geo_pos geo_dest : R * R) (cs cd : Z * Z) (s t : NodeId) (e : exn) :
  nav_graph self = Some G ->
  _geo_idx self geo_pos = Ok cs -> _geo_idx self geo_dest = Ok cd ->
  _encode_node_id cs = Ok s -> _encode_node_id cd = Ok t ->
  dijkstra_path G s t = Err e ->
  get_next_azimuth self geo_pos geo_dest = Err e.
Proof.
  intros HG Hp Hd Hs Ht He. unfold get_next_azimuth.
  rewrite Hp, Hd. cbn [bind]. rewrite Hs, Ht. cbn [bind]. rewrite HG. cbn [attr bind].
  now rewrite He.
Qed.

(** C8 (amended): a routing query on a graph with weights that are not
    negative ends with NodeNotFound when the source node is not in the
    graph (and is not the destination node), and with NetworkXNoPath when
    the source node is in the graph and the destination cannot be reached
    from it, in particular when the destination node is not in the graph;
    both are exceptions raised to the caller. *)
Theorem route_failure_kinds (self : ModuleNavigation) (G : DiGraph)
    (geo_pos geo_dest : R * R) (cs cd : Z * Z) (s t : NodeId) :
  nav_graph self = Some G -> graph_wf G -> nonneg_weights G ->
  _geo_idx self geo_pos = Ok cs -> _geo_idx self geo_dest = Ok cd ->
  _encode_node_id cs = Ok s -> _encode_node_id cd = Ok t ->
  (has_node G s = false -> s <> t ->
   get_next_azimuth self geo_pos geo_dest = Err NodeNotFound) /\
  (has_node G s = true -> ~ reachable G s t ->
   get_next_azimuth self geo_pos geo_dest = Err NetworkXNoPath) /\
  (has_node G s = true -> has_node G t = false ->
   get_next_azimuth self geo_pos geo_dest = Err NetworkXNoPath).
Proof.
  intros HG Hwf Hnn Hp Hd Hs Ht.
  assert (Hunreach : has_node G s = true -> ~ reachable G s t ->
                     get_next_azimuth self geo_pos geo_dest = Err NetworkXNoPath).
  { intros Hin Hnr. apply (get_next_azimuth_search self G _ _ cs cd s t); try assumption.
    now apply dijkstra_path_unreachable. }
  split; [|split].
  - intros Hout Hne. apply (get_next_azimuth_search self G _ _ cs cd s t); try assumption.
    now apply dijkstra_path_no_source.
  - exact Hunreach.
  - intros Hin Hout. apply Hunreach; [assumption|]. intros Hr.
    destruct (reachable_node G s t Hwf Hr) as [->|Hc]; congruence.
Qed.

Lemma first_row_engine_built :
  grid_wf first_row_engine /\ @build_graph taxicab_geod first_row_engine = Ok first_row_graph.
Proof.
  assert (Hwf : grid_wf first_row_engine).
  { unfold grid_wf, ndarray_wf, UINT_MAX. cbn. repeat split; lia. }
  split; [assumption|].
  rewrite (@build_graph_ok taxicab_geod first_row_engine Hwf); [reflexivity|].
  cbn. intros [=].
Qed.

Lemma first_row_has_origin : has_node first_row_graph (node_of (0, 0)) = true.
Proof.
  destruct first_row_engine_built as [Hwf HG].
  apply (@graph_has_node taxicab_geod first_row_engine Hwf _ HG).
  unfold cell_in_grid. cbn. lia.
Qed.

Lemma first_row_lacks_far : has_node first_row_graph (node_of (1, 1)) = false.
Proof.
  destruct first_row_engine_built as [Hwf HG].
  destruct (has_node first_row_graph (node_of (1, 1))) eqn:E; [|reflexivity].
  destruct (@graph_node_cell taxicab_geod first_row_engine Hwf _ HG _ E) as (c & [Hy Hx] & Ec).
  cbn in Hy, Hx.
  apply node_of_inj in Ec; cbn [fst snd]; unfold UINT_MAX; try lia.
  subst c. cbn in Hy. lia.
Qed.

Lemma first_row_geo_idx_origin : _geo_idx first_row_engine (0, 0)%R = Ok (0, 0).
Proof.
  unfold _geo_idx, first_row_engine. cbn [kdtree attr bind latlons].
  rewrite query_square_origin. reflexivity.
Qed.

Lemma first_row_geo_idx_far : _geo_idx first_row_engine (1, 1)%R = Ok (1, 1).
Proof.
  unfold _geo_idx, first_row_engine. cbn [kdtree attr bind latlons].
  rewrite query_square_far. reflexivity.
Qed.

Lemma encode_small (y x : Z) :
  0 <= y < 2 -> 0 <= x < 2 -> _encode_node_id (y, x) = Ok (node_of (y, x)).
Proof. intros Hy Hx. apply encode_ok; unfold UINT_MAX; lia. Qed.

Lemma far_is_not_origin : node_of (1, 1) <> node_of (0, 0).
Proof. intros E. vm_compute in E. discriminate. Qed.

Lemma route_failure_kinds_witness :
  get_next_azimuth first_row_engine (1, 1)%R (0, 0)%R = Err NodeNotFound /\
  get_next_azimuth first_row_engine (0, 0)%R (1, 1)%R = Err NetworkXNoPath.
Proof.
  destruct first_row_engine_built as [Hwf HG].
  destruct (@built_graph_wf_nonneg taxicab_geod first_row_engine _ Hwf HG) as [Hgwf Hnn].
  split.
  - apply (route_failure_kinds first_row_engine first_row_graph (1, 1)%R (0, 0)%R
             (1, 1) (0, 0) (node_of (1, 1)) (node_of (0, 0)) eq_refl Hgwf Hnn
             first_row_geo_idx_far first_row_geo_idx_origin
             (encode_small 1 1 ltac:(lia) ltac:(lia))
             (encode_small 0 0 ltac:(lia) ltac:(lia))).
    + apply first_row_lacks_far.
    + apply far_is_not_origin.
  - apply (route_failure_kinds first_row_engine first_row_graph (0, 0)%R (1, 1)%R
             (0, 0) (1, 1) (node_of (0, 0)) (node_of (1, 1)) eq_refl Hgwf Hnn
             first_row_geo_idx_origin first_row_geo_idx_far
             (encode_small 0 0 ltac:(lia) ltac:(lia))
             (encode_small 1 1 ltac:(lia) ltac:(lia))).
    + apply first_row_has_origin.
    + apply first_row_lacks_far.
Defined.

(** C8, as stated, fails: a query whose source node is not in the graph
    ends with NodeNotFound, which is not the error of a missing path. *)
Lemma missing_source_is_not_NoPath :
  ~ (forall (self : ModuleNavigation) (G : DiGraph) (geo_pos geo_dest : R * R)
            (cs cd : Z * Z) (s t : NodeId),
       nav_graph self = Some G -> graph_wf G -> nonneg_weights G ->
       _geo_idx self geo_pos = Ok cs -> _geo_idx self geo_dest = Ok cd ->
       _encode_node_id cs = Ok s -> _encode_node_id cd = Ok t ->
       has_node G s = false \/ has_node G t = false \/ ~ reachable G s t ->
       get_next_azimuth self geo_pos geo_dest = Err NetworkXNoPath).
Proof.
  intros H.
  destruct first_row_engine_built as [Hwf HG].
  destruct (@built_graph_wf_nonneg taxicab_geod first_row_engine _ Hwf HG) as [Hgwf Hnn].
  specialize (H first_row_engine first_row_graph (1, 1)%R (0, 0)%R
                (1, 1) (0, 0) (node_of (1, 1)) (node_of (0, 0)) eq_refl Hgwf Hnn
                first_row_geo_idx_far first_row_geo_idx_origin
                (encode_small 1 1 ltac:(lia) ltac:(lia))
                (encode_small 0 0 ltac:(lia) ltac:(lia))
                (or_introl first_row_lacks_far)).
  rewrite (get_next_azimuth_search first_row_engine first_row_graph _ _ (1, 1) (0, 0)
             (node_of (1, 1)) (node_of (0, 0)) NodeNotFound eq_refl
             first_row_geo_idx_far first_row_geo_idx_origin
             (encode_small 1 1 ltac:(lia) ltac:(lia))
             (encode_small 0 0 ltac:(lia) ltac:(lia))
             (dijkstra_path_no_source _ _ _ first_row_lacks_far far_is_not_origin)) in H.
  discriminate.
Qed.

(** ** The route between two adjacent cells in still water *)

Section AdjacentRoute.
Context {geod : Geod}.
Variable self : ModuleNavigation.
Variable G : DiGraph.
Hypothesis Hwf : grid_wf self.
Hypothesis HG : build_graph self = Ok G.
Hypothesis Hstill : forall f, In f (flat (currents self)) -> f = (0%R, 0%R).
Hypothesis Hts : (0 < timestep self)%R.
Hypothesis Hdist : forall a b, (0 <= geodesic_distance a b)%R.
Hypothesis Htri : forall a b c,
    (geodesic_distance a c <= geodesic_distance a b + geodesic_distance b c)%R.
Variables cs ct : Z * Z.
Hypothesis Hcs : cell_in_grid (grid_dims self) cs.
Hypothesis Hct : cell_in_grid (grid_dims self) ct.
Hypothesis Hking : king_move cs ct.

Let s := node_of cs.
Let t := node_of ct.

Lemma hop_cost_triangle (a b c : Z * Z) :
  (hop_cost self a c <= hop_cost self a b + hop_cost self b c)%R.
Proof.
  unfold hop_cost.
  pose proof (Htri (coord_at self a) (coord_at self b) (coord_at self c)) as H.
  pose proof (Rinv_0_lt_compat _ Hts) as Hi.
  unfold Rdiv. nra.
Qed.

Lemma source_is_not_target : s <> t.
Proof.
  intros E. apply (node_of_inj_grid self Hwf cs ct Hcs Hct) in E.
  destruct Hking as [Hne _]. contradiction.
Qed.

(** The entries of the adjacency of a cell are its hops. *)
Lemma entry_hop (cv : Z * Z) (adj : dict edge_attr) (u : NodeId) (e : edge_attr) :
  cell_in_grid (grid_dims self) cv ->
  dict_get (_succ G) (node_of cv) = Some adj -> In (u, e) adj ->
  exists cu, cell_in_grid (grid_dims self) cu /\ u = node_of cu /\
             weight e = hop_cost self cv cu.
Proof.
  intros Hcv Ha Hin.
  destruct (graph_entry_edge self Hwf G HG _ adj u e Ha Hin) as (c1 & c2 & H1 & H2 & _ & E).
  assert (E1 : node_of cv = node_of c1) by exact (f_equal (fun x => fst (fst x)) E).
  assert (E2 : u = node_of c2) by exact (f_equal (fun x => snd (fst x)) E).
  assert (E3 : e = snd (spec_edge self c1 c2)) by exact (f_equal snd E).
  apply (node_of_inj_grid self Hwf cv c1 Hcv H1) in E1. subst c1.
  exists c2. split; [assumption|]. split; [assumption|].
  subst e. cbn [snd spec_edge weight]. rewrite (flow_at_zero self cv Hstill).
  apply spec_cost_zero_flow; [assumption|apply Hdist].
Qed.

(** One relaxation from the node of [cv], popped with distance [d]. *)
Lemma route_relax_step (cv : Z * Z) (d : R) (adj : dict edge_attr)
    (st st' : dijkstra_state) (ue : NodeId * edge_attr) :
  cell_in_grid (grid_dims self) cv ->
  dict_get (_succ G) (node_of cv) = Some adj -> In ue adj ->
  dict_get (dist st) (node_of cv) = Some d ->
  (forall cu, hop_cost self cs cu <= d + hop_cost self cv cu)%R ->
  relax (node_of cv) st ue = Ok st' ->
  (heap_at_least_direct self cs st -> heap_at_least_direct self cs st') /\
  (first_hop_found self cs ct st -> first_hop_found self cs ct st') /\
  (cv = cs -> d = 0%R -> first_hop_pending cs ct st ->
   (fst ue = t -> first_hop_found self cs ct st') /\
   (fst ue <> t -> first_hop_pending cs ct st')).
Proof.
  intros Hcv Ha Hin Hd Hpot E. destruct ue as [u e]. cbn [fst].
  destruct (entry_hop cv adj u e Hcv Ha Hin) as (cu & Hcu & Eu & Ew).
  apply relax_cases in E. destruct E as (dv & Hdv & Hcases).
  rewrite Hd in Hdv. injection Hdv as <-.
  pose proof (Hpot cu) as Htr.
  destruct Hcases as [(du & Hdu & ->)|[(Hnu & su & Hsu & Hge & ->)|(Hnu & Hseen & pv & Hpv & ->)]].
  - split; [auto|]. split; [auto|]. intros _ _ Hp. split; [|intros _; exact Hp].
    intros Et. exfalso. destruct Hp as (Hdt & _). fold t in Hdt.
    rewrite Et in Hdu. congruence.
  - split; [auto|]. split; [auto|]. intros _ _ Hp. split; [|intros _; exact Hp].
    intros Et. exfalso. destruct Hp as (_ & Hst & _). fold t in Hst.
    rewrite Et in Hsu. congruence.
  - split; [|split].
    + intros Hh x [<-|Hx]; [|now apply Hh].
      cbn [entry_node entry_key fst snd]. exists cu. split; [assumption|].
      split; [assumption|]. rewrite Ew. lra.
    + intros (Hdt & (x & Hx & Hxle) & Hpt & (ent & Hent & Hnode)).
      assert (Hne : u <> t).
      { intros Et. assert (Ec : cu = ct).
        { apply (node_of_inj_grid self Hwf cu ct Hcu Hct). rewrite <- Eu. exact Et. }
        subst cu. fold t in Hx. rewrite Et in Hseen.
        destruct Hseen as [Hn|(su & Hsu & Hlt)]; [congruence|].
        rewrite Hx in Hsu. injection Hsu as <-. rewrite Ew in Hlt. lra. }
      unfold first_hop_found, pushed. cbn [dist seen paths fringe]. fold t.
      split; [assumption|]. split; [|split].
      * exists x. rewrite dict_get_set_other by congruence. auto.
      * rewrite dict_get_set_other by congruence. assumption.
      * exists ent. split; [now right|assumption].
    + intros -> -> (Hdt & Hst & Hps & Hds). fold s t in Hdt, Hst, Hps, Hds. fold s in Hpv.
      rewrite Hps in Hpv. injection Hpv as <-. split.
      * intros Et. assert (Ec : cu = ct).
        { apply (node_of_inj_grid self Hwf cu ct Hcu Hct). rewrite <- Eu. exact Et. }
        subst cu. unfold first_hop_found, pushed. cbn [dist seen paths fringe]. fold s t.
        rewrite Et. split; [assumption|]. split; [|split].
        -- eexists. rewrite dict_get_set_same. split; [reflexivity|]. rewrite Ew. lra.
        -- rewrite dict_get_set_same. reflexivity.
        -- eexists. split; [now left|reflexivity].
      * intros Hne. unfold first_hop_pending, pushed. cbn [dist seen paths]. fold s t.
        assert (Hus : u <> s) by (intros ->; congruence).
        split; [assumption|]. split; [|split]; [| |assumption].
        -- now rewrite dict_get_set_other by congruence.
        -- now rewrite dict_get_set_other by congruence.
Qed.

(** Relaxing edges of a node once the direct hop is found. *)
Lemma route_fold_found (cv : Z * Z) (d : R) (adj : dict edge_attr)
    (l : list (NodeId * edge_attr)) (st st' : dijkstra_state) :
  cell_in_grid (grid_dims self) cv ->
  dict_get (_succ G) (node_of cv) = Some adj -> (forall ue, In ue l -> In ue adj) ->
  (forall cu, hop_cost self cs cu <= d + hop_cost self cv cu)%R ->
  dict_get (dist st) (node_of cv) = Some d ->
  heap_at_least_direct self cs st -> first_hop_found self cs ct st ->
  foldM (relax (node_of cv)) l st = Ok st' ->
  heap_at_least_direct self cs st' /\ first_hop_found self cs ct st'.
Proof.
  intros Hcv Ha Hsub Hpot Hd Hh Hf Hfold.
  assert (H : dict_get (dist st') (node_of cv) = Some d /\
              heap_at_least_direct self cs st' /\ first_hop_found self cs ct st').
  { apply (foldM_invariant (relax (node_of cv))
             (fun x => dict_get (dist x) (node_of cv) = Some d /\
                       heap_at_least_direct self cs x /\ first_hop_found self cs ct x)
             l) with (s := st); [|auto|assumption].
    intros x ue x' Hin (Hxd & Hxh & Hxf) Hx.
    destruct (route_relax_step cv d adj x x' ue Hcv Ha (Hsub ue Hin) Hxd Hpot Hx)
      as (H1 & H2 & _).
    apply relax_dist_fringe in Hx. destruct Hx as [Ed _]. rewrite Ed. auto. }
  tauto.
Qed.

Lemma via_source (cu : Z * Z) : (hop_cost self cs cu <= 0 + hop_cost self cs cu)%R.
Proof. lra. Qed.

Lemma via_later (cv : Z * Z) (d : R) :
  (hop_cost self cs cv <= d)%R ->
  forall cu, (hop_cost self cs cu <= d + hop_cost self cv cu)%R.
Proof. intros H cu. pose proof (hop_cost_triangle cs cv cu). lra. Qed.

(** Relaxing the edges of the source: the direct hop is found unless
    the destination is not among the neighbours. *)
Lemma route_fold_first (adj : dict edge_attr) (l : list (NodeId * edge_attr)) :
  dict_get (_succ G) s = Some adj -> (forall ue, In ue l -> In ue adj) ->
  forall st st',
    heap_at_least_direct self cs st ->
    first_hop_found self cs ct st \/ first_hop_pending cs ct st ->
    dict_get (dist st) s = Some 0%R ->
    foldM (relax s) l st = Ok st' ->
    heap_at_least_direct self cs st' /\
    (first_hop_found self cs ct st' \/
     (first_hop_pending cs ct st' /\ forall e, ~ In (t, e) l)).
Proof.
  intros Ha. induction l as [|ue l IH]; intros Hsub st st' Hh Hor Hd Hfold.
  - cbn [foldM] in Hfold. injection Hfold as <-. split; [assumption|].
    destruct Hor as [Hf|Hp]; [now left|right]. split; [assumption|]. intros e [].
  - destruct Hor as [Hf|Hp].
    + destruct (route_fold_found cs 0%R adj (ue :: l) st st' Hcs Ha Hsub via_source
                  Hd Hh Hf Hfold) as [Hh' Hf'].
      split; [assumption|now left].
    + cbn [foldM] in Hfold.
      destruct (relax s st ue) as [st1|] eqn:E; cbn [bind] in Hfold; [|discriminate].
      destruct (route_relax_step cs 0%R adj st st1 ue Hcs Ha (Hsub ue (or_introl eq_refl))
                  Hd via_source E) as (H1 & _ & H3).
      pose proof (relax_dist_fringe _ _ _ _ E) as [Ed _].
      assert (Hd1 : dict_get (dist st1) s = Some 0%R) by (rewrite Ed; exact Hd).
      assert (Hsub' : forall x, In x l -> In x adj) by (intros x Hx; apply Hsub; now right).
      destruct (H3 eq_refl eq_refl Hp) as [Hyes Hno].
      destruct (bytes_eq_dec (fst ue) t) as [Et|Hne].
      * destruct (IH Hsub' st1 st' (H1 Hh) (or_introl (Hyes Et)) Hd1 Hfold) as [Hh' Hres].
        split; [assumption|].
        destruct (route_fold_found cs 0%R adj l st1 st' Hcs Ha Hsub' via_source
                    Hd1 (H1 Hh) (Hyes Et) Hfold) as [_ Hf'].
        now left.
      * destruct (IH Hsub' st1 st' (H1 Hh) (or_intror (Hno Hne)) Hd1 Hfold)
          as [Hh' [Hf'|[Hp' Hnot]]].
        -- split; [assumption|now left].
        -- split; [assumption|]. right. split; [assumption|].
           intros e [He|He]; [|now apply (Hnot e)].
           apply Hne. now rewrite He.
Qed.

Lemma built_graph_facts : graph_wf G /\ nonneg_weights G /\ has_node G s = true.
Proof.
  destruct (built_graph_wf_nonneg self G Hwf HG) as [H1 H2].
  split; [assumption|]. split; [assumption|]. now apply (graph_has_node self Hwf G HG).
Qed.

Lemma target_adjacent (adj : dict edge_attr) :
  dict_get (_succ G) s = Some adj -> exists e, In (t, e) adj.
Proof.
  intros Ha. destruct (graph_edge_lookup self Hwf G HG cs ct Hcs Hct Hking) as (adj' & Ha' & Ht).
  fold s in Ha'. rewrite Ha in Ha'. injection Ha' as <-.
  eexists. apply dict_get_In. exact Ht.
Qed.

(** One turn of the loop keeps the invariant, or leaves the loop with
    the direct hop as the path of the destination. *)
Lemma route_inv_step (st : dijkstra_state) (d : R) (c : nat) (v : NodeId)
    (fr : list heap_entry) :
  route_inv self cs ct G st -> heappop (fringe st) = Some ((d, c, v), fr) ->
  (dict_mem (dist st) v = true ->
   route_inv self cs ct G (mk_dstate (dist st) (seen st) (paths st) fr (counter st))) /\
  (dict_mem (dist st) v = false ->
   (v = t ->
    route_done cs ct (mk_dstate (dict_set (dist st) v d) (seen st) (paths st) fr (counter st))) /\
   (v <> t ->
    exists adj st',
      dict_get (_succ G) v = Some adj /\
      foldM (relax v) adj
            (mk_dstate (dict_set (dist st) v d) (seen st) (paths st) fr (counter st))
        = Ok st' /\
      route_inv self cs ct G st')).
Proof.
  intros (Hsearch & Hcase) Ep.
  destruct built_graph_facts as (Hgwf & Hnn & Hs).
  destruct (search_inv_pop G s st d c v fr Hsearch Ep) as (Hs1 & Hr2 & adj & Ha).
  destruct (relax_inv_fold G s Hgwf Hnn v d adj _ Ha Hr2) as (st' & Hfold & Hr').
  pose proof (relax_inv_search G s v d st' Hr') as Hs'.
  destruct Hcase as [->|(Hh & Hf)].
  - (* the first turn: the source is popped *)
    cbn [dijkstra_init fringe heappop pop_min] in Ep. injection Ep as <- <- <- <-.
    cbn [dijkstra_init dist seen paths fringe counter] in *.
    split; [discriminate|]. intros _. split.
    + intros E. exfalso. now apply source_is_not_target.
    + intros _. exists adj, st'. split; [assumption|]. split; [assumption|].
      split; [assumption|]. right.
      assert (Hfirst : heap_at_least_direct self cs st' /\
                       (first_hop_found self cs ct st' \/
                        (first_hop_pending cs ct st' /\ forall e, ~ In (t, e) adj))).
      { eapply (route_fold_first adj adj Ha (fun ue H => H)); [| | |exact Hfold].
        - intros e [].
        - right. unfold first_hop_pending. cbn [dist seen paths].
          pose proof source_is_not_target as Hne.
          split.
          { rewrite dict_get_set_other; [reflexivity|]. intros E. apply Hne. now symmetry. }
          split.
          { cbn [dict_get]. destruct (bytes_eq_dec (node_of ct) (node_of cs)) as [E|];
              [|reflexivity]. exfalso. apply Hne. now symmetry. }
          split; [|apply dict_get_set_same].
          cbn [dict_get]. destruct (bytes_eq_dec (node_of cs) (node_of cs));
            [reflexivity|congruence].
        - cbn [dist]. apply dict_get_set_same. }
      destruct Hfirst as [Hh' Hres].
      split; [assumption|]. destruct Hres as [Hf'|[_ Hnot]]; [assumption|].
      destruct (target_adjacent adj Ha) as [e He]. exfalso. now apply (Hnot e).
  - (* a later turn *)
    apply heappop_spec in Ep. destruct Ep as (_ & Hin & _).
    assert (Hpop : In (d, c, v) (fringe st)) by (apply Hin; now left).
    assert (Hsub : forall e, In e fr -> In e (fringe st)) by (intros e He; apply Hin; now right).
    destruct (Hh _ Hpop) as (cv & Hcv & Ev & Hpot). cbn [entry_node entry_key fst snd] in Ev, Hpot.
    destruct Hf as (Hdt & Hseen & Hpath & (ent & Hent & Hnode)). fold s t in Hdt, Hseen, Hpath, Hnode.
    assert (Hh1 : heap_at_least_direct self cs
                    (mk_dstate (dist st) (seen st) (paths st) fr (counter st))).
    { intros e He. apply Hh. cbn [fringe] in He. auto. }
    assert (Hent' : v <> t -> In ent fr).
    { intros Hne. apply Hin in Hent. destruct Hent as [<-|]; [|assumption].
      cbn [entry_node snd] in Hnode. congruence. }
    split; [|intros Hm; split].
    + intros Hm. split; [assumption|]. right. split; [assumption|].
      assert (Hne : v <> t).
      { intros ->. unfold dict_mem in Hm. rewrite Hdt in Hm. discriminate. }
      unfold first_hop_found. cbn [dist seen paths fringe]. fold s t.
      split; [assumption|]. split; [assumption|]. split; [assumption|].
      exists ent. auto.
    + intros ->. unfold route_done. cbn [dist paths]. fold s t.
      rewrite dict_get_set_same. eauto.
    + intros Hne. exists adj, st'. split; [assumption|]. split; [assumption|].
      split; [assumption|]. right.
      subst v.
      eapply (route_fold_found cv d adj adj _ st' Hcv Ha (fun ue H => H) (via_later cv d Hpot));
        [| | |exact Hfold].
      * cbn [dist]. apply dict_get_set_same.
      * intros e He. apply Hh. cbn [fringe] in He. auto.
      * unfold first_hop_found. cbn [dist seen paths fringe]. fold s t.
        rewrite dict_get_set_other by congruence.
        split; [assumption|]. split; [assumption|]. split; [assumption|].
        exists ent. auto.
Qed.

(** The search between the two cells returns the direct hop. *)
Lemma dijkstra_path_adjacent : dijkstra_path G s t = Ok [s; t].
Proof.
  destruct built_graph_facts as (Hgwf & Hnn & Hs).
  unfold dijkstra_path, multi_source_dijkstra. rewrite Hs. cbn [negb].
  pose proof source_is_not_target as Hne.
  destruct (bytes_eq_dec t s); [congruence|].
  destruct (dijkstra_multisource_loop G s t) as (r & Hloop & ->).
  destruct (dijkstra_loop_invariant G t (route_inv self cs ct G) (route_done cs ct)
              route_inv_step) with (fuel := dijkstra_fuel G) (st := dijkstra_init s) (r := r)
    as (st' & -> & (dd & Hd) & Hp).
  - intros st (_ & [->|(_ & _ & _ & _ & ent & Hent & _)]) Hempty.
    + discriminate.
    + rewrite Hempty in Hent. contradiction.
  - split; [now apply search_inv_init|now left].
  - assumption.
  - cbn [bind]. fold s t in Hd, Hp. rewrite Hd, Hp. reflexivity.
Qed.
End AdjacentRoute.

Lemma decode_node_of (dims c : Z * Z) :
  fst dims <= UINT_MAX + 1 -> snd dims <= UINT_MAX + 1 -> cell_in_grid dims c ->
  _decode_node_id (node_of c) = Ok c.
Proof.
  intros H0 H1 [Hy Hx]. destruct c as [y x]. cbn [fst snd] in *.
  apply decode_pack; lia.
Qed.

(** A query between two positions that resolve to adjacent cells. *)
Lemma next_heading_adjacent {geod : Geod} (self : ModuleNavigation)
    (geo_pos geo_dest : R * R) (cs ct : Z * Z) :
  engine_ok self ->
  (forall f, In f (flat (currents self)) -> f = (0%R, 0%R)) ->
  (0 < timestep self)%R ->
  (forall a b, (0 <= geodesic_distance a b)%R) ->
  (forall a b c, (geodesic_distance a c <= geodesic_distance a b + geodesic_distance b c)%R) ->
  _geo_idx self geo_pos = Ok cs -> _geo_idx self geo_dest = Ok ct ->
  king_move cs ct ->
  get_next_azimuth self geo_pos geo_dest =
    Ok (np_mod (forward_azimuth (coord_at self cs) (coord_at self ct)) 360,
        [coord_at self cs; coord_at self ct]).
Proof.
  intros Hok Hstill Hts Hdist Htri Hp Hd Hking.
  pose proof (engine_geo_idx_cell self Hok _ _ Hp) as Hcs.
  pose proof (engine_geo_idx_cell self Hok _ _ Hd) as Hct.
  destruct Hok as (Hwf & _ & _ & G & HG & Hb).
  pose proof (dijkstra_path_adjacent self G Hwf Hb Hstill Hts Hdist Htri cs ct Hcs Hct Hking)
    as Hpath.
  unfold get_next_azimuth. rewrite Hp, Hd. cbn [bind].
  rewrite (node_of_encode self Hwf cs Hcs), (node_of_encode self Hwf ct Hct). cbn [bind].
  rewrite HG. cbn [attr bind]. rewrite Hpath. cbn [bind list_getitem nth_error].
  rewrite (graph_edges_getitem self Hwf G Hb cs ct Hcs Hct Hking). cbn [bind mapM].
  destruct Hwf as (Hl & Hc & H0 & H1 & HU0 & HU1).
  rewrite (decode_node_of (grid_dims self) cs HU0 HU1 Hcs),
          (decode_node_of (grid_dims self) ct HU0 HU1 Hct).
  cbn [bind mapM].
  assert (Hwf : grid_wf self) by (unfold grid_wf; auto 10).
  destruct cs as [ys xs], ct as [yt xt].
  pose proof (latlons_getitem self Hwf (ys, xs) Hcs) as Es.
  pose proof (latlons_getitem self Hwf (yt, xt) Hct) as Et.
  cbn [fst snd] in Es, Et. rewrite Es. cbn [bind]. rewrite Et.
  cbn [bind spec_edge snd azimuth]. reflexivity.
Qed.

(** C9: on a grid in still water, a query whose positions resolve to two
    cells one diagonal step apart returns the forward azimuth between the
    coordinates of the two cells (modulo 360, as on every edge) and the
    path made of the coordinate of the source cell followed by the
    coordinate of the destination cell. *)
Theorem next_heading_diagonal_still_water {geod : Geod} (self : ModuleNavigation)
    (geo_pos geo_dest : R * R) (cs ct : Z * Z) :
  engine_ok self ->
  (forall f, In f (flat (currents self)) -> f = (0%R, 0%R)) ->
  (0 < timestep self)%R ->
  (forall a b, (0 <= geodesic_distance a b)%R) ->
  (forall a b c, (geodesic_distance a c <= geodesic_distance a b + geodesic_distance b c)%R) ->
  _geo_idx self geo_pos = Ok cs -> _geo_idx self geo_dest = Ok ct ->
  Z.abs (fst ct - fst cs) = 1 -> Z.abs (snd ct - snd cs) = 1 ->
  getitem2 (latlons self) (fst cs) (snd cs) = Ok (coord_at self cs) /\
  getitem2 (latlons self) (fst ct) (snd ct) = Ok (coord_at self ct) /\
  get_next_azimuth self geo_pos geo_dest =
    Ok (np_mod (forward_azimuth (coord_at self cs) (coord_at self ct)) 360,
        [coord_at self cs; coord_at self ct]).
Proof.
  intros Hok Hstill Hts Hdist Htri Hp Hd Hy Hx.
  pose proof (engine_geo_idx_cell self Hok _ _ Hp) as Hcs.
  pose proof (engine_geo_idx_cell self Hok _ _ Hd) as Hct.
  split; [apply latlons_getitem; [apply Hok|assumption]|].
  split; [apply latlons_getitem; [apply Hok|assumption]|].
  apply next_heading_adjacent; try assumption.
  unfold king_move. split; [|lia]. intros ->. lia.
Qed.

Lemma taxicab_distance_nonneg (a b : R * R) : (0 <= @geodesic_distance taxicab_geod a b)%R.
Proof.
  unfold geodesic_distance. cbn [inv taxicab_geod snd].
  apply Rplus_le_le_0_compat; apply Rabs_pos.
Qed.

Lemma taxicab_distance_triangle (a b c : R * R) :
  (@geodesic_distance taxicab_geod a c
   <= @geodesic_distance taxicab_geod a b + @geodesic_distance taxicab_geod b c)%R.
Proof.
  unfold geodesic_distance. cbn [inv taxicab_geod snd].
  pose proof (Rabs_triang (snd b - snd a) (snd c - snd b)) as H1.
  pose proof (Rabs_triang (fst b - fst a) (fst c - fst b)) as H2.
  replace (snd b - snd a + (snd c - snd b))%R with (snd c - snd a)%R in H1 by ring.
  replace (fst b - fst a + (fst c - fst b))%R with (fst c - fst a)%R in H2 by ring.
  lra.
Qed.

Lemma next_heading_diagonal_still_water_witness :
  get_next_azimuth square_engine (0, 0)%R (1, 1)%R =
    Ok (np_mod (@forward_azimuth taxicab_geod (0, 0)%R (1, 1)%R) 360, [(0, 0)%R; (1, 1)%R]).
Proof.
  apply (@next_heading_diagonal_still_water taxicab_geod square_engine (0, 0)%R (1, 1)%R
           (0, 0) (1, 1) square_engine_ok).
  - cbn. intros f Hf. repeat (destruct Hf as [<-|Hf]; [reflexivity|]). contradiction.
  - cbn. lra.
  - apply taxicab_distance_nonneg.
  - apply taxicab_distance_triangle.
  - apply square_geo_idx_origin.
  - apply square_geo_idx_far.
  - reflexivity.
  - reflexivity.
Defined.

(** ** The graph of a grid with more than one cell *)

Lemma dict_set_length {V} (d : dict V) (k : NodeId) (v : V) :
  (List.length (dict_set d k v) <= S (List.length d))%nat.
Proof.
  induction d as [|[k' v'] d IH]; cbn; [lia|].
  destruct (bytes_eq_dec k k'); cbn; lia.
Qed.

Lemma adjacency_total_set (n : dict unit) (d : dict (dict edge_attr)) (k : NodeId)
    (a old : dict edge_attr) :
  old = match dict_get d k with Some o => o | None => [] end ->
  (number_of_edges (mk_DiGraph n (dict_set d k a)) + List.length old
   = number_of_edges (mk_DiGraph n d) + List.length a)%nat.
Proof.
  intros ->. unfold number_of_edges. cbn [_succ].
  induction d as [|[k' a'] d IH]; cbn [dict_set dict_get fold_right List.length].
  - lia.
  - destruct (bytes_eq_dec k k'); cbn [fold_right]; lia.
Qed.

Lemma number_of_edges_node (n n' : dict unit) (d : dict (dict edge_attr)) :
  number_of_edges (mk_DiGraph n d) = number_of_edges (mk_DiGraph n' d).
Proof. reflexivity. Qed.

Lemma add_node_if_missing_edges (G : DiGraph) (u : NodeId) :
  number_of_edges (add_node_if_missing G u) = number_of_edges G.
Proof.
  destruct G as [n d]. unfold add_node_if_missing, dict_mem. cbn [_node _succ].
  destruct (dict_get d u) eqn:E; [reflexivity|].
  pose proof (adjacency_total_set n d u [] [] ltac:(now rewrite E)) as H.
  cbn [List.length] in H.
  rewrite (number_of_edges_node (dict_set n u tt) n). lia.
Qed.

Lemma add_edge_edges (G : DiGraph) (e : NodeId * NodeId * edge_attr) :
  (number_of_edges (add_edge G e) <= S (number_of_edges G))%nat.
Proof.
  destruct e as [[u v] dd]. unfold add_edge. cbv zeta.
  assert (E2 : number_of_edges (add_node_if_missing (add_node_if_missing G u) v)
               = number_of_edges G) by now rewrite !add_node_if_missing_edges.
  destruct (add_node_if_missing (add_node_if_missing G u) v) as [n d]. cbn [_node _succ].
  remember (match dict_get d u with Some a => a | None => [] end) as old eqn:Eold.
  pose proof (adjacency_total_set n d u (dict_set old v dd) old Eold) as H.
  pose proof (dict_set_length old v dd) as H0.
  lia.
Qed.

Lemma add_edges_from_edges (es : list (NodeId * NodeId * edge_attr)) (G : DiGraph) :
  (number_of_edges (add_edges_from G es) <= number_of_edges G + List.length es)%nat.
Proof.
  revert G. induction es as [|e es IH]; intros G; cbn [add_edges_from fold_left List.length].
  - lia.
  - specialize (IH (add_edge G e)). unfold add_edges_from in IH.
    pose proof (add_edge_edges G e). lia.
Qed.

Lemma flat_map_length_le {A B} (f : A -> list B) (n : nat) (l : list A) :
  (forall a, (List.length (f a) <= n)%nat) ->
  (List.length (flat_map f l) <= n * List.length l)%nat.
Proof.
  intros H. induction l as [|a l IH]; cbn [flat_map List.length]; [lia|].
  rewrite length_app. specialize (H a). lia.
Qed.

Lemma valid_neighbors_length (ys xs : Z) (dims : Z * Z) :
  (List.length (valid_neighbors ys xs dims) <= 8)%nat.
Proof.
  unfold valid_neighbors.
  pose proof (filter_length_le (in_bounds dims) (neighbors ys xs)) as H. exact H.
Qed.

Lemma all_cells_length (dims : Z * Z) :
  0 <= fst dims -> 0 <= snd dims ->
  Z.of_nat (List.length (all_cells dims)) = fst dims * snd dims.
Proof.
  intros H0 H1. unfold all_cells.
  assert (E : forall l : list Z,
             List.length (flat_map (fun y => map (fun x => (y, x)) (range (snd dims))) l)
             = (List.length l * Z.to_nat (snd dims))%nat).
  { induction l as [|y l IH]; cbn [flat_map List.length]; [reflexivity|].
    rewrite length_app, IH, length_map. unfold range. rewrite length_map, length_seq. lia. }
  rewrite E. unfold range. rewrite length_map, length_seq. nia.
Qed.

(** On every well-formed grid but the one of a single cell,
    [_transform_map] builds a graph whose nodes are the node ids of the
    cells, whose edges are the king moves within the grid, without loop
    from a node to itself and with at most 8 edges per cell. *)
Lemma graph_of_grid {geod : Geod} (self : ModuleNavigation) (out : stdout) :
  grid_wf self -> grid_dims self <> (1, 1) ->
  exists G,
    snd (_transform_map self out) = Ok G /\
    (forall n, has_node G n = true <->
               exists c, cell_in_grid (grid_dims self) c /\ n = node_of c) /\
    (forall u v, has_edge G u v <->
                 exists s d, cell_in_grid (grid_dims self) s /\
                             cell_in_grid (grid_dims self) d /\
                             king_move s d /\ u = node_of s /\ v = node_of d) /\
    (forall u, ~ has_edge G u u) /\
    Z.of_nat (number_of_edges G) <= 8 * (fst (grid_dims self) * snd (grid_dims self)).
Proof.
  intros Hwf Hd. pose proof (build_graph_ok self Hwf Hd) as HG.
  exists (add_edges_from empty_DiGraph (grid_edges self)).
  rewrite transform_map_result. split; [assumption|].
  set (G := add_edges_from empty_DiGraph (grid_edges self)) in *.
  assert (Hedge : forall u v, has_edge G u v <->
                    exists s d, cell_in_grid (grid_dims self) s /\
                                cell_in_grid (grid_dims self) d /\
                                king_move s d /\ u = node_of s /\ v = node_of d).
  { intros u v. split.
    - intros (adj & a & Hu & Hv).
      destruct (graph_entry_edge self Hwf G HG u adj v a Hu (dict_get_In _ _ _ Hv))
        as (s & d & Hs & Hdd & Hk & E).
      exists s, d. repeat (split; [assumption|]). split.
      + exact (f_equal (fun x => fst (fst x)) E).
      + exact (f_equal (fun x => snd (fst x)) E).
    - intros (s & d & Hs & Hdd & Hk & -> & ->).
      destruct (graph_edge_lookup self Hwf G HG s d Hs Hdd Hk) as (adj & Hu & Hv).
      exists adj. eexists. eauto. }
  split; [|split; [|split]].
  - intros n. split.
    + apply (graph_node_cell self Hwf G HG).
    + intros (c & Hc & ->). now apply (graph_has_node self Hwf G HG).
  - exact Hedge.
  - intros u Hu. apply Hedge in Hu. destruct Hu as (s & d & Hs & Hdd & (Hne & _) & -> & E).
    apply (node_of_inj_grid self Hwf s d Hs Hdd) in E. contradiction.
  - pose proof (add_edges_from_edges (grid_edges self) empty_DiGraph) as Hn.
    fold G in Hn. change (number_of_edges empty_DiGraph) with 0%nat in Hn.
    assert (Hl : (List.length (grid_edges self) <= 8 * List.length (all_cells (grid_dims self)))%nat).
    { unfold grid_edges. apply flat_map_length_le. intros c. unfold cell_edges.
      rewrite length_map. apply valid_neighbors_length. }
    destruct Hwf as (_ & (H0 & H1 & _) & _).
    pose proof (all_cells_length (grid_dims self) H0 H1) as Hc. lia.
Qed.

(** * Further properties *)

(** ** Node ids as byte strings *)

Lemma byte_of_Z_of_byte_id (b : byte) : byte_of_Z (Z_of_byte b) = b.
Proof.
  unfold byte_of_Z, Z_of_byte.
  pose proof (Byte.to_N_bounded b) as Hb.
  rewrite Z.mod_small by lia. rewrite N2Z.id. now rewrite Byte.of_to_N.
Qed.

Lemma Z_of_byte_range (b : byte) : 0 <= Z_of_byte b < 256.
Proof. unfold Z_of_byte. pose proof (Byte.to_N_bounded b). lia. Qed.

Lemma byte_of_Z_mod (z : Z) : byte_of_Z z = byte_of_Z (z mod 256).
Proof. unfold byte_of_Z. now rewrite Z.mod_mod by lia. Qed.

Lemma unpack_I_range (b0 b1 b2 b3 : byte) : 0 <= unpack_I b0 b1 b2 b3 <= UINT_MAX.
Proof.
  unfold unpack_I, UINT_MAX.
  pose proof (Z_of_byte_range b0). pose proof (Z_of_byte_range b1).
  pose proof (Z_of_byte_range b2). pose proof (Z_of_byte_range b3). lia.
Qed.

Lemma pack_unpack_I (b0 b1 b2 b3 : byte) :
  pack_I (unpack_I b0 b1 b2 b3) = [b0; b1; b2; b3].
Proof.
  pose proof (Z_of_byte_range b0) as H0. pose proof (Z_of_byte_range b1) as H1.
  pose proof (Z_of_byte_range b2) as H2. pose proof (Z_of_byte_range b3) as H3.
  unfold pack_I.
  rewrite (byte_of_Z_mod (unpack_I b0 b1 b2 b3)),
          (byte_of_Z_mod (unpack_I b0 b1 b2 b3 / 256)),
          (byte_of_Z_mod (unpack_I b0 b1 b2 b3 / 65536)),
          (byte_of_Z_mod (unpack_I b0 b1 b2 b3 / 16777216)).
  unfold unpack_I.
  set (z0 := Z_of_byte b0) in *. set (z1 := Z_of_byte b1) in *.
  set (z2 := Z_of_byte b2) in *. set (z3 := Z_of_byte b3) in *.
  assert (E0 : (z0 + 256 * z1 + 65536 * z2 + 16777216 * z3) mod 256 = z0).
  { symmetry. apply (Z.mod_unique_pos _ _ (z1 + 256 * z2 + 65536 * z3)); lia. }
  assert (D1 : (z0 + 256 * z1 + 65536 * z2 + 16777216 * z3) / 256 = z1 + 256 * z2 + 65536 * z3).
  { symmetry. apply (Z.div_unique_pos _ _ _ z0); lia. }
  assert (E1 : (z1 + 256 * z2 + 65536 * z3) mod 256 = z1).
  { symmetry. apply (Z.mod_unique_pos _ _ (z2 + 256 * z3)); lia. }
  assert (D2 : (z0 + 256 * z1 + 65536 * z2 + 16777216 * z3) / 65536 = z2 + 256 * z3).
  { symmetry. apply (Z.div_unique_pos _ _ _ (z0 + 256 * z1)); lia. }
  assert (E2 : (z2 + 256 * z3) mod 256 = z2).
  { symmetry. apply (Z.mod_unique_pos _ _ z3); lia. }
  assert (D3 : (z0 + 256 * z1 + 65536 * z2 + 16777216 * z3) / 16777216 = z3).
  { symmetry. apply (Z.div_unique_pos _ _ _ (z0 + 256 * z1 + 65536 * z2)); lia. }
  rewrite E0, D1, E1, D2, E2, D3, (Z.mod_small z3) by lia.
  unfold z0, z1, z2, z3. now rewrite !byte_of_Z_of_byte_id.
Qed.

(** Every string of 8 bytes is a node id: decoding it gives a position
    whose components fit an unsigned int, and encoding that position
    gives the same 8 bytes back. *)
Theorem decode_then_encode (raw : NodeId) :
  List.length raw = 8%nat ->
  exists y x,
    _decode_node_id raw = Ok (y, x) /\
    0 <= y <= UINT_MAX /\ 0 <= x <= UINT_MAX /\
    _encode_node_id (y, x) = Ok raw.
Proof.
  intros Hlen.
  do 8 (destruct raw as [|? raw]; [discriminate|]).
  destruct raw; [|discriminate]. clear Hlen.
  eexists. eexists. split; [reflexivity|].
  split; [apply unpack_I_range|]. split; [apply unpack_I_range|].
  rewrite encode_ok by apply unpack_I_range.
  now rewrite !pack_unpack_I.
Qed.

Lemma decode_then_encode_witness :
  exists y x,
    _decode_node_id [x01; x00; x00; x00; x02; x01; x00; x00] = Ok (y, x) /\
    _encode_node_id (y, x) = Ok [x01; x00; x00; x00; x02; x01; x00; x00].
Proof.
  destruct (decode_then_encode [x01; x00; x00; x00; x02; x01; x00; x00] eq_refl)
    as (y & x & Hd & _ & _ & He).
  exists y, x. split; assumption.
Defined.


(** ** The neighbours of a cell *)

Lemma neighbors_NoDup (ys xs : Z) : NoDup (neighbors ys xs).
Proof.
  unfold neighbors.
  repeat (constructor;
          [cbn [In]; intros H;
           repeat (destruct H as [H|H]; [injection H; lia|]); contradiction|]).
  constructor.
Qed.

(** The valid neighbours of a cell are the cells of the grid one king
    move away, each listed once; the cell itself is never among them, and
    within the grid being a neighbour is symmetric. *)
Theorem valid_neighbors_king_moves (ys xs : Z) (dims : Z * Z) :
  NoDup (valid_neighbors ys xs dims) /\
  (forall d, In d (valid_neighbors ys xs dims) <->
             cell_in_grid dims d /\ king_move (ys, xs) d) /\
  ~ In (ys, xs) (valid_neighbors ys xs dims) /\
  (cell_in_grid dims (ys, xs) ->
   forall d, In d (valid_neighbors ys xs dims) ->
             In (ys, xs) (valid_neighbors (fst d) (snd d) dims)).
Proof.
  split; [|split; [|split]].
  - unfold valid_neighbors. apply NoDup_filter. apply neighbors_NoDup.
  - intros d. apply valid_neighbors_spec.
  - intros H. apply valid_neighbors_spec in H. destruct H as (_ & Hne & _). now apply Hne.
  - intros Hs d Hd. apply valid_neighbors_spec in Hd. destruct Hd as [Hg Hk].
    apply valid_neighbors_spec. split; [assumption|].
    replace (fst d, snd d) with d by now destruct d. now apply king_move_sym.
Qed.

(** ** The cost of a hop and the flow *)

Lemma sqrt_sum_sq_scale (v th : R) :
  (0 <= v)%R -> sqrt ((v * sin th) ^ 2 + (v * cos th) ^ 2) = v.
Proof.
  intros Hv. pose proof (sin2_cos2 th) as H. unfold Rsqr in H.
  replace ((v * sin th) ^ 2 + (v * cos th) ^ 2)%R
    with (v ^ 2 * (sin th * sin th + cos th * cos th))%R by ring.
  rewrite H, Rmult_1_r. now apply sqrt_pow2.
Qed.

(** The triangle inequality of the Euclidean norm of the plane. *)
Lemma norm_triangle (a b c d : R) :
  (sqrt ((a + c) ^ 2 + (b + d) ^ 2) <= sqrt (a ^ 2 + b ^ 2) + sqrt (c ^ 2 + d ^ 2))%R.
Proof.
  assert (H1 : (0 <= a ^ 2 + b ^ 2)%R) by nra.
  assert (H2 : (0 <= c ^ 2 + d ^ 2)%R) by nra.
  pose proof (sqrt_pos (a ^ 2 + b ^ 2)) as P1.
  pose proof (sqrt_pos (c ^ 2 + d ^ 2)) as P2.
  pose proof (sqrt_sqrt _ H1) as S1. pose proof (sqrt_sqrt _ H2) as S2.
  set (n1 := sqrt (a ^ 2 + b ^ 2)) in *. set (n2 := sqrt (c ^ 2 + d ^ 2)) in *.
  assert (CS : (a * c + b * d <= n1 * n2)%R).
  { destruct (Rle_or_lt (a * c + b * d) 0) as [Hneg|Hpos].
    - pose proof (Rmult_le_pos _ _ P1 P2). lra.
    - apply Rsqr_incr_0_var; [|now apply Rmult_le_pos].
      unfold Rsqr.
      replace (n1 * n2 * (n1 * n2))%R with ((n1 * n1) * (n2 * n2))%R by ring.
      rewrite S1, S2. pose proof (Rle_0_sqr (a * d - b * c)) as Hsq.
      unfold Rsqr in Hsq. nra. }
  apply Rsqr_incr_0_var; [|lra].
  rewrite Rsqr_sqrt by (apply Rplus_le_le_0_compat; apply pow2_ge_0).
  unfold Rsqr. nra.
Qed.

(** The cost of a hop of required speed [v] in a flow of magnitude [m]
    lies between [|v - m|] and [v + m]. *)
Lemma spec_cost_bounds {geod : Geod} (ts : R) (src dst flow : R * R) :
  (0 < ts)%R -> (0 <= geodesic_distance src dst)%R ->
  let v := (geodesic_distance src dst / ts)%R in
  let m := sqrt (fst flow ^ 2 + snd flow ^ 2) in
  (Rabs (v - m) <= spec_cost ts src dst flow <= v + m)%R.
Proof.
  intros Hts Hd v m.
  assert (Hv : (0 <= v)%R).
  { unfold v. apply Rmult_le_pos; [assumption|]. left. now apply Rinv_0_lt_compat. }
  unfold spec_cost. fold v.
  set (th := radians (theta src dst)).
  set (a := (v * sin th)%R). set (b := (v * cos th)%R).
  set (fu := fst flow) in *. set (fv := snd flow) in *.
  assert (Ev : sqrt (a ^ 2 + b ^ 2) = v) by (unfold a, b; now apply sqrt_sum_sq_scale).
  assert (Em : sqrt ((- fu) ^ 2 + (- fv) ^ 2) = m).
  { unfold m. f_equal. ring. }
  pose proof (norm_triangle a b (- fu) (- fv)) as T1.
  replace ((a + - fu) ^ 2 + (b + - fv) ^ 2)%R with ((a - fu) ^ 2 + (b - fv) ^ 2)%R in T1 by ring.
  pose proof (norm_triangle (a - fu) (b - fv) fu fv) as T2.
  replace ((a - fu + fu) ^ 2 + (b - fv + fv) ^ 2)%R with (a ^ 2 + b ^ 2)%R in T2 by ring.
  pose proof (norm_triangle (fu - a) (fv - b) a b) as T3.
  replace ((fu - a + a) ^ 2 + (fv - b + b) ^ 2)%R with (fu ^ 2 + fv ^ 2)%R in T3 by ring.
  replace ((fu - a) ^ 2 + (fv - b) ^ 2)%R with ((a - fu) ^ 2 + (b - fv) ^ 2)%R in T3 by ring.
  rewrite Ev in *. rewrite Em in T1. fold m in T2, T3.
  split; [|lra]. unfold Rabs. destruct (Rcase_abs (v - m)); lra.
Qed.

(** A flow of speed [m] along the azimuth of the hop. *)
Lemma spec_cost_along {geod : Geod} (ts : R) (src dst : R * R) (m : R) :
  (0 < ts)%R -> (0 <= geodesic_distance src dst)%R ->
  let th := radians (theta src dst) in
  spec_cost ts src dst ((m * sin th)%R, (m * cos th)%R)
  = Rabs (geodesic_distance src dst / ts - m).
Proof.
  intros Hts Hd th. unfold spec_cost. cbn [fst snd]. fold th.
  set (v := (geodesic_distance src dst / ts)%R).
  pose proof (sin2_cos2 th) as H. unfold Rsqr in H.
  replace ((v * sin th - m * sin th) ^ 2 + (v * cos th - m * cos th) ^ 2)%R
    with ((v - m) ^ 2 * (sin th * sin th + cos th * cos th))%R by ring.
  rewrite H, Rmult_1_r.
  replace ((v - m) ^ 2)%R with (Rsqr (v - m)) by (unfold Rsqr; ring).
  apply sqrt_Rsqr_abs.
Qed.

(** The weight of every edge of the built graph lies between [|v - m|]
    and [v + m], for the ground speed [v = d / timestep] that the hop
    requires and the magnitude [m] of the flow at its source; when that
    flow runs along the azimuth of the hop with speed [k] (against it for
    a negative [k]) the weight is [|v - k|]. *)
Theorem edge_cost_and_flow {geod : Geod} (self : ModuleNavigation) (out : stdout) (G : DiGraph) :
  grid_wf self -> snd (_transform_map self out) = Ok G ->
  (0 < timestep self)%R -> (forall a b, (0 <= geodesic_distance a b)%R) ->
  forall u adj v a, dict_get (_succ G) u = Some adj -> In (v, a) adj ->
  exists s d,
    cell_in_grid (grid_dims self) s /\ cell_in_grid (grid_dims self) d /\
    u = node_of s /\ v = node_of d /\
    let speed := (geodesic_distance (coord_at self s) (coord_at self d) / timestep self)%R in
    let th := radians (np_mod (forward_azimuth (coord_at self s) (coord_at self d)) 360) in
    let m := sqrt (fst (flow_at self s) ^ 2 + snd (flow_at self s) ^ 2) in
    (Rabs (speed - m) <= weight a <= speed + m)%R /\
    (forall k, flow_at self s = ((k * sin th)%R, (k * cos th)%R) ->
               weight a = Rabs (speed - k)).
Proof.
  intros Hwf HG Hts Hdist u adj v a Hu Hin. rewrite transform_map_result in HG.
  destruct (graph_entry_edge self Hwf G HG u adj v a Hu Hin) as (s & d & Hs & Hd & Hk & E).
  exists s, d.
  assert (Eu : u = node_of s) by exact (f_equal (fun t => fst (fst t)) E).
  assert (Ev : v = node_of d) by exact (f_equal (fun t => snd (fst t)) E).
  assert (Ea : a = snd (spec_edge self s d)) by exact (f_equal snd E).
  repeat (split; [assumption|]).
  subst a. cbn [snd spec_edge weight]. split.
  - apply spec_cost_bounds; [assumption|apply Hdist].
  - intros k Hflow. rewrite Hflow. apply spec_cost_along; [assumption|apply Hdist].
Qed.

Lemma edge_cost_and_flow_witness :
  exists adj a,
    dict_get (_succ square_graph) (node_of (0, 0)) = Some adj /\
    In (node_of (1, 1), a) adj /\
    (weight a <= (Rabs (1 - 0) + Rabs (1 - 0)) / 3600 + sqrt (0 ^ 2 + 0 ^ 2))%R.
Proof.
  destruct square_diagonal_entry as (adj & a & Hu & Hin).
  exists adj, a. split; [assumption|]. split; [assumption|].
  destruct (@edge_cost_and_flow taxicab_geod square_module [] square_graph
              square_module_wf (square_module_graph []))
    with (u := node_of (0, 0)) (adj := adj) (v := node_of (1, 1)) (a := a)
    as (s & d & Hs & Hd & Eu & Ev & Hb & _).
  - cbn. lra.
  - apply taxicab_distance_nonneg.
  - assumption.
  - assumption.
  - apply (square_node_inj s 0 0 Hs) in Eu; [|lia|lia].
    apply (square_node_inj d 1 1 Hd) in Ev; [|lia|lia].
    subst s d. exact (proj2 Hb).
Defined.

(** ** Making a module *)

Lemma combine_fst_snd {A B} (l : list (A * B)) : combine (map fst l) (map snd l) = l.
Proof. induction l as [|[a b] l IH]; cbn; congruence. Qed.

Lemma build_tree_result (self : ModuleNavigation) :
  _build_tree self =
    match flat (latlons self) with
    | [] => Err ValueError
    | _ => Ok (flat (latlons self))
    end.
Proof. unfold _build_tree. rewrite combine_fst_snd. reflexivity. Qed.

Lemma arrays_ok_grid_wf (grid flow : ndarray (R * R)) (ts : R) (b : bool)
    (g : option DiGraph) (k : option KDTree) :
  arrays_ok grid flow -> grid_wf (mk_ModuleNavigation grid flow ts b g k).
Proof.
  intros (H1 & H2 & E0 & E1 & U0 & U1). unfold grid_wf. cbn [latlons currents].
  repeat split; try apply H1; try apply H2; lia.
Qed.

Lemma flat_nil_iff {A} (a : ndarray A) :
  ndarray_wf a -> (flat a = [] <-> shape0 a * shape1 a = 0).
Proof.
  intros (H0 & H1 & Hl). split.
  - intros E. rewrite E in Hl. cbn in Hl. lia.
  - intros E. rewrite E in Hl. destruct (flat a); [reflexivity|cbn in Hl; lia].
Qed.

Lemma init_outcome_gen {geod : Geod} (nav_timestep : R) (grid flow : ndarray (R * R))
    (loud : bool) (out : stdout) :
  arrays_ok grid flow ->
  (shape0 flow = 1 /\ shape1 flow = 1 ->
   snd (__init__ nav_timestep grid flow loud out) = Err IndexError) /\
  (shape0 flow * shape1 flow = 0 ->
   snd (__init__ nav_timestep grid flow loud out) = Err ValueError) /\
  (~ (shape0 flow = 1 /\ shape1 flow = 1) -> shape0 flow * shape1 flow <> 0 ->
   exists G,
     snd (__init__ nav_timestep grid flow loud out)
       = Ok (mk_ModuleNavigation grid flow nav_timestep loud (Some G) (Some (flat grid))) /\
     engine_ok (mk_ModuleNavigation grid flow nav_timestep loud (Some G) (Some (flat grid)))).
Proof.
  intros Hok. pose proof Hok as (H1 & H2 & E0 & E1 & U0 & U1).
  pose proof (arrays_ok_grid_wf grid flow nav_timestep loud None None Hok) as Hwf.
  rewrite init_result. split; [|split].
  - intros [Ey Ex]. rewrite (build_graph_1x1 _ Hwf); [reflexivity|].
    unfold grid_dims. cbn [currents]. now rewrite Ey, Ex.
  - intros Hz. rewrite (build_graph_ok _ Hwf).
    + cbn [bind]. rewrite build_tree_result. cbn [latlons].
      assert (E : flat grid = []).
      { apply flat_nil_iff; [assumption|]. rewrite E0, E1. exact Hz. }
      now rewrite E.
    + unfold grid_dims. cbn [currents]. intros [= Ey Ex]. rewrite Ey, Ex in Hz. lia.
  - intros Hne Hnz. rewrite (build_graph_ok _ Hwf).
    + cbn [bind]. rewrite build_tree_result. cbn [latlons].
      destruct (flat grid) as [|q l] eqn:E.
      { exfalso. apply Hnz. rewrite <- E0, <- E1. now apply flat_nil_iff. }
      cbn [bind]. eexists. split; [reflexivity|].
      split; [now apply arrays_ok_grid_wf|]. cbn [latlons currents nav_graph].
      split; [assumption|]. split; [assumption|].
      eexists. split; [reflexivity|].
      rewrite (build_graph_verbose grid flow nav_timestep loud loud _ None _ None).
      apply (build_graph_ok _ Hwf).
      unfold grid_dims. cbn [currents]. intros [= Ey Ex]. now apply Hne.
    + unfold grid_dims. cbn [currents]. intros [= Ey Ex]. now apply Hne.
Qed.

(** [__init__] on two well-formed arrays of the same shape raises
    IndexError for a grid of a single cell and ValueError for a grid
    without cells; for every other grid it returns a module that holds
    the arrays, the graph built from them and the tree of all the
    coordinates in row-major order. *)
Theorem init_outcome {geod : Geod} (nav_timestep : R) (grid flow : ndarray (R * R))
    (loud : bool) (out : stdout) :
  arrays_ok grid flow ->
  (shape0 flow = 1 /\ shape1 flow = 1 ->
   snd (__init__ nav_timestep grid flow loud out) = Err IndexError) /\
  (shape0 flow * shape1 flow = 0 ->
   snd (__init__ nav_timestep grid flow loud out) = Err ValueError) /\
  (~ (shape0 flow = 1 /\ shape1 flow = 1) -> shape0 flow * shape1 flow <> 0 ->
   exists self G,
     snd (__init__ nav_timestep grid flow loud out) = Ok self /\
     latlons self = grid /\ currents self = flow /\
     timestep self = nav_timestep /\ verbose self = loud /\
     nav_graph self = Some G /\ build_graph self = Ok G /\
     kdtree self = Some (flat grid)).
Proof.
  intros Hok. destruct (init_outcome_gen nav_timestep grid flow loud out Hok) as (H1 & H2 & H3).
  split; [assumption|]. split; [assumption|].
  intros Hne Hnz. destruct (H3 Hne Hnz) as (G & Hr & (_ & _ & _ & G' & HG' & Hb)).
  cbn [nav_graph] in HG'. injection HG' as <-.
  eexists. exists G. split; [exact Hr|]. cbn [latlons currents timestep verbose nav_graph kdtree].
  repeat split; try reflexivity. exact Hb.
Qed.

Lemma square_arrays_ok : arrays_ok square_latlons still_water.
Proof. unfold arrays_ok, ndarray_wf, UINT_MAX. cbn. repeat split; lia. Qed.

Lemma init_outcome_witness :
  exists self G,
    snd (@__init__ taxicab_geod 3600%R square_latlons still_water false []) = Ok self /\
    nav_graph self = Some G /\ kdtree self = Some (flat square_latlons).
Proof.
  destruct (@init_outcome taxicab_geod 3600%R square_latlons still_water false []
              square_arrays_ok) as (_ & _ & H).
  destruct H as (self & G & Hr & _ & _ & _ & _ & Hg & _ & Hk).
  - cbn. lia.
  - cbn. lia.
  - exists self, G. auto.
Defined.

(** ** Updating the field, continued *)

(** [set_currents_map] with two well-formed arrays of the same shape:
    for a grid of a single cell it raises IndexError and leaves a module
    that holds the new arrays together with the previous graph; for
    every other grid it succeeds and leaves a module that holds the new
    arrays and the graph built from them.  The timestep, the verbose
    flag and the tree are as before in both cases. *)
Theorem set_currents_map_outcome {geod : Geod} (self : ModuleNavigation)
    (grid flow : ndarray (R * R)) (out : stdout) :
  arrays_ok grid flow ->
  (shape0 flow = 1 /\ shape1 flow = 1 ->
   snd (set_currents_map self grid flow out)
     = (mk_ModuleNavigation grid flow (timestep self) (verbose self)
                            (nav_graph self) (kdtree self), Err IndexError)) /\
  (~ (shape0 flow = 1 /\ shape1 flow = 1) ->
   exists G,
     snd (set_currents_map self grid flow out)
       = (mk_ModuleNavigation grid flow (timestep self) (verbose self)
                              (Some G) (kdtree self), Ok tt) /\
     engine_ok (mk_ModuleNavigation grid flow (timestep self) (verbose self)
                                    (Some G) (kdtree self))).
Proof.
  intros Hok. pose proof Hok as (H1 & H2 & E0 & E1 & U0 & U1).
  pose proof (arrays_ok_grid_wf grid flow (timestep self) (verbose self)
                (nav_graph self) (kdtree self) Hok) as Hwf.
  rewrite set_currents_map_result. split.
  - intros [Ey Ex]. rewrite (build_graph_1x1 _ Hwf); [reflexivity|].
    unfold grid_dims. cbn [currents]. now rewrite Ey, Ex.
  - intros Hne.
    assert (Hd : grid_dims (mk_ModuleNavigation grid flow (timestep self) (verbose self)
                              (nav_graph self) (kdtree self)) <> (1, 1)).
    { unfold grid_dims. cbn [currents]. intros [= Ey Ex]. now apply Hne. }
    rewrite (build_graph_ok _ Hwf Hd). eexists. split; [reflexivity|].
    split; [now apply arrays_ok_grid_wf|]. cbn [latlons currents nav_graph].
    split; [assumption|]. split; [assumption|].
    eexists. split; [reflexivity|].
    rewrite (build_graph_verbose grid flow (timestep self) (verbose self) (verbose self)
               _ (nav_graph self) _ (kdtree self)).
    apply (build_graph_ok _ Hwf Hd).
Qed.

Lemma mirrored_arrays_ok : arrays_ok mirrored_latlons streams.
Proof. unfold arrays_ok, ndarray_wf, UINT_MAX. cbn. repeat split; lia. Qed.

Lemma set_currents_map_outcome_witness :
  exists G,
    snd (@set_currents_map taxicab_geod square_engine mirrored_latlons streams [])
      = (mk_ModuleNavigation mirrored_latlons streams 3600%R false (Some G)
                             (Some (flat square_latlons)), Ok tt).
Proof.
  destruct (@set_currents_map_outcome taxicab_geod square_engine mirrored_latlons streams []
              mirrored_arrays_ok) as (_ & H).
  destruct H as (G & Hr & _).
  - cbn. lia.
  - exists G. exact Hr.
Defined.

(** ** Looking a position up *)

Lemma nearest_from_spec (p : R * R) (l pre : list (R * R)) (bi : nat) (b : R * R) :
  nth_error pre bi = Some b ->
  (forall x, In x pre -> (sq_dist p b <= sq_dist p x)%R) ->
  nth_error (pre ++ l) (fst (nearest_from p bi b (List.length pre) l))
    = Some (snd (nearest_from p bi b (List.length pre) l)) /\
  (forall x, In x (pre ++ l) ->
     (sq_dist p (snd (nearest_from p bi b (List.length pre) l)) <= sq_dist p x)%R).
Proof.
  revert pre bi b. induction l as [|q l IH]; intros pre bi b Hb Hmin.
  - cbn [nearest_from fst snd]. rewrite app_nil_r. auto.
  - cbn [nearest_from].
    assert (El : S (List.length pre) = List.length (pre ++ [q])).
    { rewrite length_app. cbn. lia. }
    assert (Ea : pre ++ q :: l = (pre ++ [q]) ++ l).
    { rewrite <- app_assoc. reflexivity. }
    rewrite El, Ea.
    destruct (Rlt_dec (sq_dist p q) (sq_dist p b)) as [Hlt|Hge].
    + apply IH.
      * rewrite nth_error_app2 by lia. now rewrite Nat.sub_diag.
      * intros x Hx. apply in_app_or in Hx. destruct Hx as [Hx|[<-|[]]].
        -- specialize (Hmin x Hx). lra.
        -- lra.
    + apply IH.
      * rewrite nth_error_app1; [assumption|]. apply nth_error_Some. congruence.
      * intros x Hx. apply in_app_or in Hx. destruct Hx as [Hx|[<-|[]]].
        -- now apply Hmin.
        -- lra.
Qed.

Lemma KDTree_query_spec (tree : KDTree) (p : R * R) :
  tree <> [] ->
  exists i q,
    snd (KDTree_query tree p) = Z.of_nat i /\
    nth_error tree i = Some q /\
    forall x, In x tree -> (sq_dist p q <= sq_dist p x)%R.
Proof.
  destruct tree as [|q0 l]; [congruence|]. intros _.
  unfold KDTree_query.
  pose proof (nearest_from_spec p l [q0] 0 q0 eq_refl) as H.
  cbn [List.length app] in H.
  destruct (nearest_from p 0 q0 1 l) as [i q]. cbn [fst snd] in *.
  destruct H as [H1 H2].
  - intros x [<-|[]]. lra.
  - exists i, q. auto.
Qed.

Lemma cell_nth {A} (d : A) (a : ndarray A) (i : nat) :
  0 < shape1 a ->
  cell d a (Z.of_nat i / shape1 a, Z.of_nat i mod shape1 a) = nth i (flat a) d.
Proof.
  intros HX. unfold cell. cbn [fst snd]. f_equal.
  rewrite Z.mul_comm, <- Z.div_mod by lia. apply Nat2Z.id.
Qed.

Lemma cell_In {A} (d : A) (a : ndarray A) (c : Z * Z) :
  ndarray_wf a -> cell_in_grid (shape0 a, shape1 a) c -> In (cell d a c) (flat a).
Proof.
  intros (H0 & H1 & Hl) [Hy Hx]. cbn [fst snd] in Hy, Hx. unfold cell.
  apply nth_In. nia.
Qed.

Lemma sq_dist_zero (p q : R * R) : (sq_dist p q <= 0)%R -> q = p.
Proof.
  destruct p as [a b], q as [c d]. unfold sq_dist. cbn [fst snd]. intros H.
  pose proof (pow2_ge_0 (a - c)) as Pa. pose proof (pow2_ge_0 (b - d)) as Pb.
  assert (Ea : ((a - c) ^ 2 = 0)%R) by lra.
  assert (Eb : ((b - d) ^ 2 = 0)%R) by lra.
  assert (Ha : (a - c = 0)%R).
  { apply Rmult_integral in Ea. destruct Ea as [Ea|Ea]; [exact Ea|].
    rewrite Rmult_1_r in Ea. exact Ea. }
  assert (Hb : (b - d = 0)%R).
  { apply Rmult_integral in Eb. destruct Eb as [Eb|Eb]; [exact Eb|].
    rewrite Rmult_1_r in Eb. exact Eb. }
  f_equal; lra.
Qed.

Lemma sq_dist_refl (p : R * R) : sq_dist p p = 0%R.
Proof. unfold sq_dist. ring. Qed.

Lemma geo_idx_spec (self : ModuleNavigation) (p : R * R) :
  ndarray_wf (latlons self) -> tree_fresh self ->
  shape0 (latlons self) * shape1 (latlons self) <> 0 ->
  exists c,
    _geo_idx self p = Ok c /\
    cell_in_grid (shape0 (latlons self), shape1 (latlons self)) c /\
    forall c', cell_in_grid (shape0 (latlons self), shape1 (latlons self)) c' ->
      (sq_dist p (coord_at self c) <= sq_dist p (coord_at self c'))%R.
Proof.
  intros Hwf Hfresh Hnz. pose proof Hwf as (H0 & H1 & Hl).
  assert (Hne : flat (latlons self) <> []).
  { intros E. apply Hnz. now apply flat_nil_iff. }
  destruct (KDTree_query_spec (flat (latlons self)) p Hne) as (i & q & Hi & Hq & Hmin).
  assert (Hlt : (i < List.length (flat (latlons self)))%nat).
  { apply nth_error_Some. congruence. }
  assert (HX : 0 < shape1 (latlons self)) by nia.
  exists (Z.of_nat i / shape1 (latlons self), Z.of_nat i mod shape1 (latlons self)).
  split; [|split].
  - unfold _geo_idx. destruct p as [lat lon]. rewrite Hfresh. cbn [attr bind].
    rewrite Hi. unfold unravel_index.
    replace ((0 <=? Z.of_nat i) && (Z.of_nat i <? shape0 (latlons self) * shape1 (latlons self)))
      with true; [reflexivity|].
    symmetry. apply andb_true_iff. split; [apply Z.leb_le|apply Z.ltb_lt]; lia.
  - split; cbn [fst snd].
    + split; [apply Z.div_pos; lia|]. apply Z.div_lt_upper_bound; lia.
    + apply Z.mod_pos_bound. lia.
  - intros c' Hc'. unfold coord_at. rewrite cell_nth by assumption.
    rewrite (nth_error_nth _ _ _ Hq). apply Hmin. now apply cell_In.
Qed.

(** On a module whose tree was built from its grid, [_geo_idx] returns a
    cell of the grid whose coordinate is nearest to the position: no
    cell of the grid has a coordinate nearer to it.  A position that is
    the coordinate of a cell resolves to a cell with that coordinate. *)
Theorem geo_idx_nearest_cell (self : ModuleNavigation) (p : R * R) :
  ndarray_wf (latlons self) -> tree_fresh self ->
  shape0 (latlons self) * shape1 (latlons self) <> 0 ->
  exists c,
    _geo_idx self p = Ok c /\
    cell_in_grid (shape0 (latlons self), shape1 (latlons self)) c /\
    (forall c', cell_in_grid (shape0 (latlons self), shape1 (latlons self)) c' ->
       (sq_dist p (coord_at self c) <= sq_dist p (coord_at self c'))%R) /\
    (forall c', cell_in_grid (shape0 (latlons self), shape1 (latlons self)) c' ->
       coord_at self c' = p -> coord_at self c = p).
Proof.
  intros Hwf Hfresh Hnz.
  destruct (geo_idx_spec self p Hwf Hfresh Hnz) as (c & Hc & Hin & Hmin).
  exists c. repeat split; try assumption; try apply Hin.
  intros c' Hc' E. apply sq_dist_zero. specialize (Hmin c' Hc').
  rewrite E, sq_dist_refl in Hmin. exact Hmin.
Qed.

Lemma square_engine_fresh : tree_fresh square_engine.
Proof. reflexivity. Qed.

Lemma square_latlons_wf : ndarray_wf (latlons square_engine).
Proof. unfold ndarray_wf. cbn. lia. Qed.

Lemma geo_idx_nearest_cell_witness :
  exists c, _geo_idx square_engine (1, 1)%R = Ok c /\ coord_at square_engine c = (1, 1)%R.
Proof.
  destruct (geo_idx_nearest_cell square_engine (1, 1)%R square_latlons_wf square_engine_fresh)
    as (c & Hc & _ & _ & Hex).
  - cbn. lia.
  - exists c. split; [exact Hc|]. apply (Hex (1, 1)).
    + unfold cell_in_grid. cbn. lia.
    + reflexivity.
Defined.



(** ** Shortest routes *)

Lemma walk_to_reachable (G : DiGraph) (s t : NodeId) (p : list NodeId) (c : R) :
  walk_to G s t p c -> reachable G s t.
Proof.
  induction 1 as [|v u p c adj a Hw IH Hadj Ha]; [constructor|].
  apply (reach_step G s v u IH). now exists adj, a.
Qed.

Lemma reachable_walk_to (G : DiGraph) (s t : NodeId) :
  reachable G s t -> exists p c, walk_to G s t p c.
Proof.
  induction 1 as [|u v Hr (p & c & IH) (adj & a & Hadj & Ha)].
  - exists [s], 0%R. constructor.
  - exists (p ++ [v]), (c + weight a)%R. now apply (walk_edge G s u v p c adj a).
Qed.

Lemma walk_to_cost_nonneg (G : DiGraph) (s t : NodeId) (p : list NodeId) (c : R) :
  nonneg_weights G -> walk_to G s t p c -> (0 <= c)%R.
Proof.
  intros Hnn. induction 1 as [|v u p c adj a Hw IH Hadj Ha]; [lra|].
  pose proof (Hnn v adj u a Hadj (dict_get_In _ _ _ Ha)). lra.
Qed.

Lemma walk_to_head (G : DiGraph) (s t : NodeId) (p : list NodeId) (c : R) :
  walk_to G s t p c -> exists rest, p = s :: rest /\ last p s = t.
Proof.
  induction 1 as [|v u p c adj a Hw (rest & -> & Hl) Hadj Ha].
  - exists []. auto.
  - exists (rest ++ [u]). split; [reflexivity|]. apply last_last.
Qed.

Lemma walk_to_first_edge (G : DiGraph) (s t : NodeId) (p : list NodeId) (c : R) :
  walk_to G s t p c -> forall n rest, p = s :: n :: rest -> has_edge G s n.
Proof.
  induction 1 as [|v u p c adj a Hw IH Hadj Ha]; intros n rest E; [discriminate|].
  destruct (walk_to_head _ _ _ _ _ Hw) as (rest0 & -> & Hl).
  destruct rest0 as [|n0 r].
  - cbn in Hl. subst v. cbn in E. injection E as <- _. now exists adj, a.
  - cbn [app] in E. injection E as <- _. now apply (IH n0 r).
Qed.

Lemma walk_to_other (G : DiGraph) (s t : NodeId) (p : list NodeId) (c : R) :
  walk_to G s t p c -> s <> t ->
  exists n rest, p = s :: n :: rest /\ has_edge G s n.
Proof.
  intros Hw Hne. destruct (walk_to_head _ _ _ _ _ Hw) as (rest & E & Hl).
  destruct rest as [|n rest].
  - subst p. cbn in Hl. congruence.
  - exists n, rest. split; [assumption|]. now apply (walk_to_first_edge G s t p c Hw n rest).
Qed.

Lemma edges_seen_le (G : DiGraph) (st st' : dijkstra_state) (x : NodeId) :
  dist st' = dist st -> seen_le st st' -> edges_seen G st x -> edges_seen G st' x.
Proof.
  intros Ed Hle H dx adj y a Hx Hadj Ha. rewrite Ed in Hx.
  destruct (H dx adj y a Hx Hadj Ha) as (sy & Hsy & Hb).
  destruct (Hle y sy Hsy) as (sy' & Hsy' & Hb').
  exists sy'. split; [assumption|lra].
Qed.

Lemma seen_le_refl (st : dijkstra_state) : seen_le st st.
Proof. intros y sy H. exists sy. split; [assumption|lra]. Qed.

Lemma seen_le_trans (st1 st2 st3 : dijkstra_state) :
  seen_le st1 st2 -> seen_le st2 st3 -> seen_le st1 st3.
Proof.
  intros H12 H23 y sy H. destruct (H12 y sy H) as (sy2 & H2 & B2).
  destruct (H23 y sy2 H2) as (sy3 & H3 & B3). exists sy3. split; [assumption|lra].
Qed.

Section ShortestSearch.
Variable G : DiGraph.
Variable s : NodeId.
Hypothesis Hwf : graph_wf G.
Hypothesis Hnn : nonneg_weights G.
Hypothesis Hs : has_node G s = true.

Lemma shortest_inv_init :
  shortest_inv G s (dijkstra_init s) /\ forall x, edges_seen G (dijkstra_init s) x.
Proof.
  unfold shortest_inv, edges_seen, dijkstra_init. cbn [dist seen paths fringe dict_get].
  split; [|intros; discriminate].
  split; [|split; [|split; [|split]]].
  - intros u x H. destruct (bytes_eq_dec u s) as [->|]; [|discriminate].
    injection H as <-. exists [s]. split; [reflexivity|constructor].
  - intros; discriminate.
  - intros y sy _ H. destruct (bytes_eq_dec y s) as [->|]; [|discriminate].
    injection H as <-. exists 0%nat. now left.
  - intros x c u [[= <- <- <-]|[]] _. exists 0%R.
    destruct (bytes_eq_dec s s); [|congruence]. split; [reflexivity|lra].
  - exists 0%R. destruct (bytes_eq_dec s s); [|congruence]. split; [reflexivity|lra].
Qed.

(** Every walk from the source ends in a searched node at no more than
    its cost, or passes a node that is seen at no more than its cost
    and not yet searched. *)
Lemma shortest_frontier (st : dijkstra_state) :
  shortest_inv G s st -> (forall x, edges_seen G st x) ->
  forall z q c, walk_to G s z q c ->
    (exists dz, dict_get (dist st) z = Some dz /\ (dz <= c)%R) \/
    (exists y sy, dict_get (dist st) y = None /\ dict_get (seen st) y = Some sy /\
                  (sy <= c)%R).
Proof.
  intros (I1 & I2 & I5 & I7 & (x0 & Hx0 & Bx0)) Hcl z q c Hw.
  induction Hw as [|v u p c adj a Hw IH Hadj Ha].
  - destruct (dict_get (dist st) s) as [ds|] eqn:Ed.
    + left. exists ds. split; [reflexivity|]. apply I2 in Ed. rewrite Ed in Hx0.
      injection Hx0 as ->. assumption.
    + right. exists s, x0. auto.
  - pose proof (Hnn v adj u a Hadj (dict_get_In _ _ _ Ha)) as Hw0.
    destruct IH as [(dv & Hdv & Bv)|(y & sy & Hy & Hsy & By)].
    + destruct (Hcl v dv adj u a Hdv Hadj Ha) as (su & Hsu & Bu).
      destruct (dict_get (dist st) u) as [du|] eqn:Ed.
      * left. exists du. split; [reflexivity|]. apply I2 in Ed. rewrite Ed in Hsu.
        injection Hsu as ->. lra.
      * right. exists u, su. split; [assumption|]. split; [assumption|lra].
    + right. exists y, sy. split; [assumption|]. split; [assumption|lra].
Qed.

Lemma shortest_pop_min (st : dijkstra_state) (d : R) (c : nat) (v : NodeId)
    (fr : list heap_entry) (y : NodeId) (sy : R) :
  shortest_inv G s st -> heappop (fringe st) = Some ((d, c, v), fr) ->
  dict_get (dist st) y = None -> dict_get (seen st) y = Some sy -> (d <= sy)%R.
Proof.
  intros (_ & _ & I5 & _) Ep Hy Hsy.
  destruct (heappop_spec _ _ _ Ep) as (Hmin & Hin & _).
  destruct (I5 y sy Hy Hsy) as (c' & He). apply Hin in He.
  destruct He as [E|He].
  - injection E as -> _ _. lra.
  - apply (Hmin _ He).
Qed.

Lemma shortest_pop_seen (st : dijkstra_state) (d : R) (c : nat) (v : NodeId)
    (fr : list heap_entry) :
  shortest_inv G s st -> heappop (fringe st) = Some ((d, c, v), fr) ->
  dict_get (dist st) v = None -> dict_get (seen st) v = Some d.
Proof.
  intros Hinv Ep Hv. pose proof Hinv as (_ & _ & _ & I7 & _).
  destruct (heappop_spec _ _ _ Ep) as (_ & Hin & _).
  destruct (I7 d c v) as (su & Hsu & Bu); [apply Hin; now left|assumption|].
  pose proof (shortest_pop_min st d c v fr v su Hinv Ep Hv Hsu).
  rewrite Hsu. f_equal. lra.
Qed.

Lemma shortest_inv_skip (st : dijkstra_state) (d : R) (c : nat) (v : NodeId)
    (fr : list heap_entry) :
  shortest_inv G s st -> heappop (fringe st) = Some ((d, c, v), fr) ->
  dict_mem (dist st) v = true ->
  shortest_inv G s (mk_dstate (dist st) (seen st) (paths st) fr (counter st)).
Proof.
  intros (I1 & I2 & I5 & I7 & I6) Ep Hv.
  destruct (heappop_spec _ _ _ Ep) as (_ & Hin & _).
  unfold shortest_inv. cbn [dist seen paths fringe].
  split; [assumption|]. split; [assumption|]. split; [|split; [|assumption]].
  - intros y sy Hy Hsy. destruct (I5 y sy Hy Hsy) as (c' & He). apply Hin in He.
    destruct He as [E|He]; [|now exists c'].
    injection E as _ _ ->. unfold dict_mem in Hv. rewrite Hy in Hv. discriminate.
  - intros x c' u He Hu. apply (I7 x c' u); [|assumption]. apply Hin. now right.
Qed.

Lemma shortest_inv_take (st : dijkstra_state) (d : R) (c : nat) (v : NodeId)
    (fr : list heap_entry) :
  shortest_inv G s st -> heappop (fringe st) = Some ((d, c, v), fr) ->
  dict_mem (dist st) v = false ->
  shortest_inv G s (mk_dstate (dict_set (dist st) v d) (seen st) (paths st) fr (counter st)) /\
  forall x, edges_seen G st x -> x <> v ->
    edges_seen G (mk_dstate (dict_set (dist st) v d) (seen st) (paths st) fr (counter st)) x.
Proof.
  intros Hinv Ep Hv. pose proof Hinv as (I1 & I2 & I5 & I7 & I6).
  assert (Hvn : dict_get (dist st) v = None).
  { unfold dict_mem in Hv. destruct (dict_get (dist st) v); [discriminate|reflexivity]. }
  pose proof (shortest_pop_seen st d c v fr Hinv Ep Hvn) as Hsv.
  destruct (heappop_spec _ _ _ Ep) as (_ & Hin & _).
  split.
  - unfold shortest_inv. cbn [dist seen paths fringe].
    split; [assumption|]. split; [|split; [|split; [|assumption]]].
    + intros u d' Hu. destruct (bytes_eq_dec u v) as [->|Hne].
      * rewrite dict_get_set_same in Hu. injection Hu as <-. assumption.
      * rewrite dict_get_set_other in Hu by assumption. now apply I2.
    + intros y sy Hy Hsy. destruct (bytes_eq_dec y v) as [->|Hne].
      * rewrite dict_get_set_same in Hy. discriminate.
      * rewrite dict_get_set_other in Hy by assumption.
        destruct (I5 y sy Hy Hsy) as (c' & He). apply Hin in He.
        destruct He as [E|He]; [|now exists c'].
        injection E as _ _ ->. congruence.
    + intros x c' u He Hu. destruct (bytes_eq_dec u v) as [->|Hne].
      * rewrite dict_get_set_same in Hu. discriminate.
      * rewrite dict_get_set_other in Hu by assumption.
        apply (I7 x c' u); [|assumption]. apply Hin. now right.
  - intros x Hx Hne dx adj y a Hd. cbn [dist seen] in *.
    rewrite dict_get_set_other in Hd by assumption. now apply Hx.
Qed.

Lemma shortest_relax_step (v : NodeId) (d : R) (adj : dict edge_attr)
    (st st' : dijkstra_state) (u : NodeId) (e : edge_attr) :
  dict_get (_succ G) v = Some adj -> In (u, e) adj ->
  relax_inv G s v d st -> shortest_inv G s st ->
  relax v st (u, e) = Ok st' ->
  shortest_inv G s st' /\ seen_le st st' /\ dist st' = dist st /\
  exists su, dict_get (seen st') u = Some su /\ (su <= d + weight e)%R.
Proof.
  intros Hadj Hin (_ & _ & Hv & Hmax & _) Hinv Hr.
  pose proof Hinv as (I1 & I2 & I5 & I7 & (x0 & Hx0 & Bx0)).
  pose proof (Hnn v adj u e Hadj Hin) as Hw0.
  destruct (relax_cases v st st' u e Hr) as (dv & Hdv & Hcases).
  assert (dv = d) by congruence. subst dv.
  destruct Hcases as [(du & Hdu & ->)|[(Hdu & su & Hsu & Hge & ->)|(Hdu & Hold & pv & Hpv & ->)]].
  - split; [assumption|]. split; [apply seen_le_refl|]. split; [reflexivity|].
    exists du. split; [now apply I2|]. specialize (Hmax u du Hdu). lra.
  - split; [assumption|]. split; [apply seen_le_refl|]. split; [reflexivity|].
    exists su. split; [assumption|lra].
  - assert (Hlt : forall su, dict_get (seen st) u = Some su -> (d + weight e <= su)%R).
    { intros su Hsu. destruct Hold as [Hn|(su' & Hsu' & Hl)]; [congruence|].
      rewrite Hsu in Hsu'. injection Hsu' as <-. lra. }
    unfold pushed. split; [|split; [|split; [reflexivity|]]].
    + unfold shortest_inv. cbn [dist seen paths fringe].
      split; [|split; [|split; [|split]]].
      * intros u' x Hx. destruct (bytes_eq_dec u' u) as [->|Hne].
        -- rewrite dict_get_set_same in Hx. injection Hx as <-.
           rewrite dict_get_set_same. exists (pv ++ [u]). split; [reflexivity|].
           destruct (I1 v d (I2 v d Hv)) as (p0 & Hp0 & Hw).
           assert (p0 = pv) by congruence. subst p0.
           apply (walk_edge G s v u pv d adj e Hw Hadj).
           apply In_dict_get; [|assumption].
           destruct Hwf as (_ & _ & Hk). apply (Hk v adj Hadj).
        -- rewrite dict_get_set_other in Hx by assumption.
           rewrite dict_get_set_other by assumption. now apply I1.
      * intros u' d' Hu'. destruct (bytes_eq_dec u' u) as [->|Hne]; [congruence|].
        rewrite dict_get_set_other by assumption. now apply I2.
      * intros y sy Hy Hsy. destruct (bytes_eq_dec y u) as [->|Hne].
        -- rewrite dict_get_set_same in Hsy. injection Hsy as <-.
           exists (counter st). now left.
        -- rewrite dict_get_set_other in Hsy by assumption.
           destruct (I5 y sy Hy Hsy) as (c' & He). exists c'. now right.
      * intros x c' u' [E|He] Hu'.
        -- injection E as <- _ <-. rewrite dict_get_set_same.
           exists (d + weight e)%R. split; [reflexivity|lra].
        -- destruct (I7 x c' u' He Hu') as (su & Hsu & Bu).
           destruct (bytes_eq_dec u' u) as [->|Hne].
           ++ rewrite dict_get_set_same. exists (d + weight e)%R. split; [reflexivity|].
              specialize (Hlt su Hsu). lra.
           ++ rewrite dict_get_set_other by assumption. exists su. auto.
      * destruct (bytes_eq_dec s u) as [<-|Hne].
        -- rewrite dict_get_set_same. exists (d + weight e)%R. split; [reflexivity|].
           specialize (Hlt x0 Hx0). lra.
        -- rewrite dict_get_set_other by assumption. exists x0. auto.
    + intros y sy Hsy. cbn [seen]. destruct (bytes_eq_dec y u) as [->|Hne].
      * rewrite dict_get_set_same. exists (d + weight e)%R. split; [reflexivity|].
        now apply Hlt.
      * rewrite dict_get_set_other by assumption. exists sy. split; [assumption|lra].
    + cbn [seen]. rewrite dict_get_set_same. exists (d + weight e)%R.
      split; [reflexivity|lra].
Qed.

Lemma shortest_relax_fold (v : NodeId) (d : R) (adj : dict edge_attr) :
  dict_get (_succ G) v = Some adj ->
  forall l st st',
    (forall ue, In ue l -> In ue adj) ->
    relax_inv G s v d st -> shortest_inv G s st ->
    foldM (relax v) l st = Ok st' ->
    shortest_inv G s st' /\ seen_le st st' /\ dist st' = dist st /\
    forall u e, In (u, e) l ->
      exists su, dict_get (seen st') u = Some su /\ (su <= d + weight e)%R.
Proof.
  intros Hadj. induction l as [|[u e] l IH]; intros st st' Hsub Hr Hinv Hf.
  - cbn in Hf. injection Hf as <-. split; [assumption|]. split; [apply seen_le_refl|].
    split; [reflexivity|]. intros u e [].
  - cbn [foldM] in Hf.
    destruct (relax_inv_step G s Hwf Hnn v d adj st (u, e) Hadj (Hsub _ (or_introl eq_refl)) Hr)
      as (st1 & Hst1 & Hr1).
    rewrite Hst1 in Hf. cbn [bind] in Hf.
    destruct (shortest_relax_step v d adj st st1 u e Hadj (Hsub _ (or_introl eq_refl))
                Hr Hinv Hst1) as (Hinv1 & Hle1 & Ed1 & su & Hsu & Bu).
    destruct (IH st1 st' (fun ue H => Hsub ue (or_intror H)) Hr1 Hinv1 Hf)
      as (Hinv' & Hle' & Ed' & Hcl).
    split; [assumption|]. split; [now apply (seen_le_trans st st1 st')|].
    split; [congruence|].
    intros u' e' [E|Hin].
    + injection E as <- <-. destruct (Hle' u su Hsu) as (su' & Hsu' & Bu').
      exists su'. split; [assumption|lra].
    + now apply Hcl.
Qed.

Lemma dijkstra_loop_shortest (t : NodeId) (fuel : nat) (r : result dijkstra_state) :
  dijkstra_loop fuel G t (dijkstra_init s) = Some r ->
  exists st', r = Ok st' /\ shortest_done G s t st'.
Proof.
  apply (dijkstra_loop_invariant G t
           (fun st => search_inv G s st /\ shortest_inv G s st /\
                      forall x, edges_seen G st x)
           (shortest_done G s t)).
  - intros st d c v fr (HQ & Hinv & Hcl) Ep.
    destruct (search_inv_pop G s st d c v fr HQ Ep) as (H1 & H2 & adj & Ha).
    split.
    + intros Hv. split; [assumption|]. split; [now apply (shortest_inv_skip st d c v fr)|].
      exact Hcl.
    + intros Hv.
      destruct (shortest_inv_take st d c v fr Hinv Ep Hv) as (Hinv1 & Hcl1).
      assert (Hvn : dict_get (dist st) v = None).
      { unfold dict_mem in Hv. destruct (dict_get (dist st) v); [discriminate|reflexivity]. }
      split.
      * intros ->. split.
        -- cbn [dist paths]. intros d' Hd'. rewrite dict_get_set_same in Hd'.
           injection Hd' as <-.
           pose proof (shortest_pop_seen st d c t fr Hinv Ep Hvn) as Hst.
           pose proof Hinv as (I1 & _). destruct (I1 t d Hst) as (p & Hp & Hw).
           exists p. split; [assumption|]. split; [assumption|].
           intros q c' Hq.
           destruct (shortest_frontier st Hinv Hcl t q c' Hq)
             as [(dz & Hdz & _)|(y & sy & Hy & Hsy & By)]; [congruence|].
           pose proof (shortest_pop_min st d c t fr y sy Hinv Ep Hy Hsy). lra.
        -- left. cbn [dist]. rewrite dict_mem_set.
           destruct (bytes_eq_dec t t); [reflexivity|congruence].
      * intros Hne.
        destruct (relax_inv_fold G s Hwf Hnn v d adj _ Ha H2) as (st' & Hf & Hr').
        destruct (shortest_relax_fold v d adj Ha adj _ st' (fun ue H => H) H2 Hinv1 Hf)
          as (Hinv' & Hle' & Ed' & Hcl').
        exists adj, st'. split; [assumption|]. split; [assumption|].
        split; [now apply (relax_inv_search G s v d)|]. split; [assumption|].
        intros x. destruct (bytes_eq_dec x v) as [->|Hxv].
        -- intros dx adj' y a Hdx Hadj' Hy. rewrite Ed' in Hdx. cbn [dist] in Hdx.
           rewrite dict_get_set_same in Hdx. injection Hdx as <-.
           assert (adj' = adj) by congruence. subst adj'.
           apply Hcl'. now apply dict_get_In.
        -- apply (edges_seen_le G _ st' x Ed' Hle'). now apply Hcl1.
  - intros st (HQ & Hinv & Hcl) Hempty. pose proof Hinv as (I1 & I2 & I5 & I7 & I6).
    split.
    + intros d Hd. destruct (I1 t d (I2 t d Hd)) as (p & Hp & Hw).
      exists p. split; [assumption|]. split; [assumption|].
      intros q c Hq.
      destruct (shortest_frontier st Hinv Hcl t q c Hq)
        as [(dz & Hdz & Bz)|(y & sy & Hy & Hsy & _)].
      * assert (dz = d) by congruence. lra.
      * destruct (I5 y sy Hy Hsy) as (c' & He). rewrite Hempty in He. destruct He.
    + right. intros v Hr.
      assert (Hall : forall y sy, dict_get (seen st) y = Some sy ->
                                  dict_mem (dist st) y = true).
      { intros y sy Hsy. unfold dict_mem.
        destruct (dict_get (dist st) y) eqn:Ey; [reflexivity|].
        destruct (I5 y sy Ey Hsy) as (c' & He). rewrite Hempty in He. destruct He. }
      induction Hr as [|u v Hr IH (adj & a & Hadj & Ha)].
      * destruct I6 as (x0 & Hx0 & _). now apply (Hall s x0).
      * unfold dict_mem in IH. destruct (dict_get (dist st) u) as [du|] eqn:Eu; [|discriminate].
        destruct (Hcl u du adj v a Eu Hadj Ha) as (sv & Hsv & _). now apply (Hall v sv).
  - split; [apply search_inv_init; assumption|]. apply shortest_inv_init.
Qed.

(** [dijkstra_path] finds a walk to every node that can be reached from
    the source, and no walk to that node costs less. *)
Lemma dijkstra_path_shortest (t : NodeId) :
  reachable G s t ->
  exists p c, dijkstra_path G s t = Ok p /\ walk_to G s t p c /\
              forall q c', walk_to G s t q c' -> (c <= c')%R.
Proof.
  intros Hr. unfold dijkstra_path, multi_source_dijkstra. rewrite Hs. cbn [negb].
  destruct (bytes_eq_dec t s) as [->|Hne].
  - exists [s], 0%R. split; [reflexivity|]. split; [constructor|].
    intros q c' Hq. now apply (walk_to_cost_nonneg G s s q c').
  - destruct (dijkstra_multisource_loop G s t) as (r & Hloop & ->).
    destruct (dijkstra_loop_shortest t _ r Hloop) as (st' & -> & Hpath & Hfound).
    cbn [bind].
    assert (Ht : dict_mem (dist st') t = true).
    { destruct Hfound as [H|H]; [assumption|now apply H]. }
    unfold dict_mem in Ht. destruct (dict_get (dist st') t) as [d|] eqn:Ed; [|discriminate].
    destruct (Hpath d eq_refl) as (p & Hp & Hw & Hopt). rewrite Hp. cbn [bind].
    exists p, d. auto.
Qed.
End ShortestSearch.

Section SimplePaths.
Variable G : DiGraph.
Variable s : NodeId.
Hypothesis Hwf : graph_wf G.
Hypothesis Hnn : nonneg_weights G.
Hypothesis Hs : has_node G s = true.

Lemma simple_inv_init : simple_inv (dijkstra_init s).
Proof.
  intros u p. unfold dijkstra_init. cbn [paths dist dict_get].
  destruct (bytes_eq_dec u s) as [->|]; [|discriminate]. intros [= <-]. split.
  - constructor; [intros []|constructor].
  - intros w [<-|[]]. now left.
Qed.

Lemma simple_inv_take (st : dijkstra_state) (v : NodeId) (d : R) (fr : list heap_entry) :
  simple_inv st ->
  simple_inv (mk_dstate (dict_set (dist st) v d) (seen st) (paths st) fr (counter st)).
Proof.
  intros H u p Hp. cbn [paths dist] in *. destruct (H u p Hp) as (Hnd & Hin).
  split; [assumption|]. intros w Hw. destruct (Hin w Hw) as [->|Hd]; [now left|right].
  rewrite dict_mem_set. destruct (bytes_eq_dec w v); [reflexivity|assumption].
Qed.

Lemma simple_relax_step (v : NodeId) (st st' : dijkstra_state) (ue : NodeId * edge_attr) :
  simple_inv st /\ dict_mem (dist st) v = true ->
  relax v st ue = Ok st' ->
  simple_inv st' /\ dict_mem (dist st') v = true.
Proof.
  intros (Hsimple & Hv) Hr. destruct ue as [u e].
  destruct (relax_cases v st st' u e Hr) as (dv & Hdv & Hcases).
  destruct Hcases as [(du & Hdu & ->)|[(Hdu & su & Hsu & Hge & ->)|(Hdu & Hold & pv & Hpv & ->)]];
    [auto|auto|].
  unfold pushed. cbn [dist]. split; [|assumption].
  intros u' p Hp. cbn [paths dist] in *.
  destruct (bytes_eq_dec u' u) as [->|Hne].
  - rewrite dict_get_set_same in Hp. injection Hp as <-.
    destruct (Hsimple v pv Hpv) as (Hnd & Hin).
    assert (Hnot : ~ In u pv).
    { intros Hu. destruct (Hin u Hu) as [->|Hd].
      - congruence.
      - unfold dict_mem in Hd. rewrite Hdu in Hd. discriminate. }
    split.
    + apply NoDup_app; [assumption|constructor; [intros []|constructor]|].
      intros w Hw [<-|[]]. contradiction.
    + intros w Hw. apply in_app_or in Hw. destruct Hw as [Hw|[<-|[]]]; [|now left].
      right. destruct (Hin w Hw) as [->|Hd]; assumption.
  - rewrite dict_get_set_other in Hp by assumption. now apply Hsimple.
Qed.

Lemma dijkstra_loop_simple (t : NodeId) (fuel : nat) (r : result dijkstra_state) :
  dijkstra_loop fuel G t (dijkstra_init s) = Some r ->
  exists st', r = Ok st' /\ forall p, dict_get (paths st') t = Some p -> NoDup p.
Proof.
  apply (dijkstra_loop_invariant G t
           (fun st => search_inv G s st /\ simple_inv st)
           (fun st => forall p, dict_get (paths st) t = Some p -> NoDup p)).
  - intros st d c v fr (HQ & Hsimple) Ep.
    destruct (search_inv_pop G s st d c v fr HQ Ep) as (H1 & H2 & adj & Ha).
    split.
    + intros _. split; [assumption|]. exact Hsimple.
    + intros _. split.
      * intros _ p Hp. cbn [paths] in Hp. apply (Hsimple t p Hp).
      * intros _.
        destruct (relax_inv_fold G s Hwf Hnn v d adj _ Ha H2) as (st' & Hf & Hr').
        exists adj, st'. split; [assumption|]. split; [assumption|].
        split; [now apply (relax_inv_search G s v d)|].
        refine (proj1 (foldM_invariant (relax v)
                         (fun st0 => simple_inv st0 /\ dict_mem (dist st0) v = true) adj
                         (fun st0 ue st1 _ => simple_relax_step v st0 st1 ue) _ st' _ Hf)).
        split; [now apply simple_inv_take|]. cbn [dist]. rewrite dict_mem_set.
        destruct (bytes_eq_dec v v); [reflexivity|congruence].
  - intros st (_ & Hsimple) _ p Hp. apply (Hsimple t p Hp).
  - split; [now apply search_inv_init|apply simple_inv_init].
Qed.

(** The path that [dijkstra_path] returns visits no node twice. *)
Lemma dijkstra_path_simple (t : NodeId) (p : list NodeId) :
  dijkstra_path G s t = Ok p -> NoDup p.
Proof.
  unfold dijkstra_path, multi_source_dijkstra. rewrite Hs. cbn [negb].
  destruct (bytes_eq_dec t s) as [->|Hne].
  - cbn [bind]. intros [= <-]. constructor; [intros []|constructor].
  - destruct (dijkstra_multisource_loop G s t) as (r & Hloop & ->).
    destruct (dijkstra_loop_simple t _ r Hloop) as (st' & -> & Hsimple). cbn [bind].
    destruct (dict_get (dist st') t) as [d|]; [|discriminate].
    destruct (dict_get (paths st') t) as [p'|] eqn:Ep; [|discriminate].
    cbn [bind]. intros [= <-]. now apply Hsimple.
Qed.
End SimplePaths.

(** ** Routes over the grid *)

Lemma mapM_map {A B} (f : A -> result B) (h : B -> A) (l : list B) :
  (forall b, In b l -> f (h b) = Ok b) -> mapM f (map h l) = Ok l.
Proof.
  induction l as [|b l IH]; intros H; [reflexivity|]. cbn [map mapM].
  rewrite (H b (or_introl eq_refl)). cbn [bind].
  rewrite IH by (intros b' Hb'; apply H; now right). reflexivity.
Qed.

Section GridRoutes.
Context {geod : Geod}.
Variable self : ModuleNavigation.
Hypothesis Hwf : grid_wf self.
Variable G : DiGraph.
Hypothesis HG : build_graph self = Ok G.

Lemma route_to_in_grid (cs ct : Z * Z) (cells : list (Z * Z)) (c : R) :
  cell_in_grid (grid_dims self) cs -> route_to self cs ct cells c ->
  cell_in_grid (grid_dims self) ct /\ Forall (cell_in_grid (grid_dims self)) cells.
Proof.
  intros Hcs. induction 1 as [|a b l c Hr (Ha & Hall) Hb Hk].
  - split; [assumption|]. now constructor.
  - split; [assumption|]. apply Forall_app. split; [assumption|]. now constructor.
Qed.

Lemma route_to_head (cs ct : Z * Z) (cells : list (Z * Z)) (c : R) :
  route_to self cs ct cells c -> exists rest, cells = cs :: rest /\ last cells cs = ct.
Proof.
  induction 1 as [|a b l c Hr (rest & -> & Hl) Hb Hk].
  - exists []. auto.
  - exists (rest ++ [b]). split; [reflexivity|]. apply last_last.
Qed.

Lemma route_to_first_hop (cs ct : Z * Z) (cells : list (Z * Z)) (c : R) :
  route_to self cs ct cells c ->
  forall c1 rest, cells = cs :: c1 :: rest ->
    king_move cs c1 /\ cell_in_grid (grid_dims self) c1.
Proof.
  induction 1 as [|a b l c Hr IH Hb Hk]; intros c1 rest E; [discriminate|].
  destruct (route_to_head _ _ _ _ Hr) as (rest0 & -> & Hl).
  destruct rest0 as [|n0 r].
  - cbn in Hl. subst a. cbn in E. injection E as <- _. auto.
  - cbn [app] in E. injection E as <- _. now apply (IH n0 r).
Qed.

Lemma route_walk (cs ct : Z * Z) (cells : list (Z * Z)) (c : R) :
  cell_in_grid (grid_dims self) cs -> route_to self cs ct cells c ->
  walk_to G (node_of cs) (node_of ct) (map node_of cells) c.
Proof.
  intros Hcs. induction 1 as [|a b l c Hr IH Hb Hk]; [constructor|].
  destruct (route_to_in_grid cs a l c Hcs Hr) as (Ha & _).
  destruct (graph_edge_lookup self Hwf G HG a b Ha Hb Hk) as (adj & Hadj & He).
  rewrite map_app. cbn [map].
  apply (walk_edge G (node_of cs) (node_of a) (node_of b) (map node_of l) c adj _ IH Hadj He).
Qed.

Lemma walk_route (cs : Z * Z) (t : NodeId) (p : list NodeId) (c : R) :
  cell_in_grid (grid_dims self) cs -> walk_to G (node_of cs) t p c ->
  exists ct cells, t = node_of ct /\ p = map node_of cells /\ route_to self cs ct cells c.
Proof.
  intros Hcs. induction 1 as [|v u p c adj a Hw (cv & cells & -> & -> & Hr) Hadj Ha].
  - exists cs, [cs]. split; [reflexivity|]. split; [reflexivity|constructor].
  - destruct (route_to_in_grid cs cv cells c Hcs Hr) as (Hcv & _).
    destruct (graph_entry_edge self Hwf G HG _ adj u a Hadj (dict_get_In _ _ _ Ha))
      as (s0 & d0 & Hs0 & Hd0 & Hk & E).
    unfold spec_edge in E.
    assert (E1 : node_of cv = node_of s0) by exact (f_equal (fun t => fst (fst t)) E).
    assert (E2 : u = node_of d0) by exact (f_equal (fun t => snd (fst t)) E).
    assert (E3 : a = mk_attr (spec_cost (timestep self) (coord_at self s0) (coord_at self d0)
                                        (flow_at self s0))
                             (theta (coord_at self s0) (coord_at self d0)))
      by exact (f_equal snd E).
    apply (node_of_inj_grid self Hwf) in E1; [|assumption|assumption]. subst s0 u a.
    exists d0, (cells ++ [d0]). split; [reflexivity|]. split.
    + rewrite map_app. reflexivity.
    + cbn [weight]. now constructor.
Qed.

Lemma route_exists (cs : Z * Z) :
  cell_in_grid (grid_dims self) cs ->
  forall (n : nat) (ct : Z * Z),
    cell_in_grid (grid_dims self) ct ->
    Z.abs (fst ct - fst cs) + Z.abs (snd ct - snd cs) <= Z.of_nat n ->
    exists cells c, route_to self cs ct cells c.
Proof.
  intros Hcs. induction n as [|n IH]; intros ct Hct Hn.
  - assert (ct = cs).
    { destruct ct, cs. cbn [fst snd] in Hn. f_equal; lia. }
    subst ct. exists [cs], 0%R. constructor.
  - destruct (Z.eq_dec (fst ct) (fst cs)) as [Ey|Ny];
      [destruct (Z.eq_dec (snd ct) (snd cs)) as [Ex|Nx]|].
    + assert (ct = cs) by (destruct ct, cs; cbn [fst snd] in *; f_equal; lia).
      subst ct. exists [cs], 0%R. constructor.
    + destruct (IH (fst ct, snd ct - Z.sgn (snd ct - snd cs))) as (cells & c & Hr).
      * destruct Hcs as [Hy Hx], Hct as [Hy' Hx']. split; cbn [fst snd]; lia.
      * cbn [fst snd]. lia.
      * exists (cells ++ [ct]). eexists. apply (route_hop self cs _ ct cells c Hr Hct).
        split; [|cbn [fst snd]; lia].
        intros E. apply (f_equal snd) in E. cbn [snd] in E. lia.
    + destruct (IH (fst ct - Z.sgn (fst ct - fst cs), snd ct - Z.sgn (snd ct - snd cs)))
        as (cells & c & Hr).
      * destruct Hcs as [Hy Hx], Hct as [Hy' Hx']. split; cbn [fst snd]; lia.
      * cbn [fst snd]. lia.
      * exists (cells ++ [ct]). eexists. apply (route_hop self cs _ ct cells c Hr Hct).
        split; [|cbn [fst snd]; lia].
        intros E. apply (f_equal fst) in E. cbn [fst] in E. lia.
Qed.

Lemma grid_reachable (cs ct : Z * Z) :
  cell_in_grid (grid_dims self) cs -> cell_in_grid (grid_dims self) ct ->
  reachable G (node_of cs) (node_of ct).
Proof.
  intros Hcs Hct.
  destruct (route_exists cs Hcs
              (Z.to_nat (Z.abs (fst ct - fst cs) + Z.abs (snd ct - snd cs))) ct Hct)
    as (cells & c & Hr); [lia|].
  apply (walk_to_reachable G _ _ (map node_of cells) c). now apply route_walk.
Qed.

Lemma dijkstra_path_route (cs ct : Z * Z) :
  cell_in_grid (grid_dims self) cs -> cell_in_grid (grid_dims self) ct ->
  exists cells c,
    dijkstra_path G (node_of cs) (node_of ct) = Ok (map node_of cells) /\
    route_to self cs ct cells c /\
    NoDup cells /\
    forall cells' c', route_to self cs ct cells' c' -> (c <= c')%R.
Proof.
  intros Hcs Hct.
  destruct (built_graph_wf_nonneg self G Hwf HG) as (Hgw & Hnn).
  destruct (dijkstra_path_shortest G (node_of cs) Hgw Hnn
              (graph_has_node self Hwf G HG cs Hcs) (node_of ct)
              (grid_reachable cs ct Hcs Hct)) as (p & c & Hp & Hw & Hopt).
  destruct (walk_route cs _ p c Hcs Hw) as (ct' & cells & E & -> & Hr).
  destruct (route_to_in_grid cs ct' cells c Hcs Hr) as (Hct' & _).
  apply (node_of_inj_grid self Hwf) in E; [|assumption|assumption]. subst ct'.
  exists cells, c. split; [assumption|]. split; [assumption|]. split.
  - apply (NoDup_map_inv node_of).
    apply (dijkstra_path_simple G (node_of cs) Hgw Hnn
             (graph_has_node self Hwf G HG cs Hcs) (node_of ct)). exact Hp.
  - intros cells' c' Hr'. apply (Hopt (map node_of cells') c'). now apply route_walk.
Qed.
End GridRoutes.

Lemma get_next_azimuth_route {geod : Geod} (self : ModuleNavigation)
    (geo_pos geo_dest : R * R) (cs ct : Z * Z) :
  engine_ok self ->
  _geo_idx self geo_pos = Ok cs -> _geo_idx self geo_dest = Ok ct ->
  cs <> ct ->
  exists c1 rest cost,
    get_next_azimuth self geo_pos geo_dest
      = Ok (theta (coord_at self cs) (coord_at self c1),
            map (coord_at self) (cs :: c1 :: rest)) /\
    route_to self cs ct (cs :: c1 :: rest) cost /\
    NoDup (cs :: c1 :: rest) /\
    forall cells' cost', route_to self cs ct cells' cost' -> (cost <= cost')%R.
Proof.
  intros Hok Hp Hd Hne.
  pose proof (engine_geo_idx_cell self Hok _ _ Hp) as Hcs.
  pose proof (engine_geo_idx_cell self Hok _ _ Hd) as Hct.
  destruct Hok as (Hwf & _ & _ & G & HG & Hb).
  destruct (dijkstra_path_route self Hwf G Hb cs ct Hcs Hct)
    as (cells & cost & Hpath & Hr & Hnd & Hopt).
  destruct (route_to_head self cs ct cells cost Hr) as (rest0 & E & Hl).
  destruct rest0 as [|c1 rest]; [subst cells; cbn in Hl; congruence|]. subst cells.
  destruct (route_to_first_hop self cs ct _ cost Hr c1 rest eq_refl) as (Hk & Hc1).
  destruct (route_to_in_grid self cs ct _ cost Hcs Hr) as (_ & Hall).
  exists c1, rest, cost. split; [|split; [assumption|split; assumption]].
  unfold get_next_azimuth. rewrite Hp, Hd. cbn [bind].
  rewrite (node_of_encode self Hwf cs Hcs), (node_of_encode self Hwf ct Hct). cbn [bind].
  rewrite HG. cbn [attr bind]. rewrite Hpath. cbn [bind map list_getitem nth_error].
  rewrite (graph_edges_getitem self Hwf G Hb cs c1 Hcs Hc1 Hk). cbn [bind].
  change (node_of cs :: node_of c1 :: map node_of rest) with (map node_of (cs :: c1 :: rest)).
  rewrite mapM_map.
  - cbn [bind].
    rewrite (mapM_ok _ (coord_at self)).
    + cbn [bind spec_edge snd azimuth]. reflexivity.
    + intros [y x] Hin. rewrite Forall_forall in Hall.
      apply (latlons_getitem self Hwf (y, x)). now apply Hall.
  - intros b Hin. rewrite Forall_forall in Hall.
    destruct Hwf as (_ & _ & _ & _ & HU0 & HU1).
    apply (decode_node_of (grid_dims self) b HU0 HU1). now apply Hall.
Qed.

(** On a consistent module, [get_next_azimuth] between positions that
    resolve to two different cells returns a cheapest route: the
    coordinates of the cells of a route of king moves from the cell of
    the position to the cell of the destination, such that no route
    between the two cells costs less, together with the azimuth from the
    first to the second cell of that route. *)
Theorem get_next_azimuth_cheapest_route {geod : Geod} (self : ModuleNavigation)
    (geo_pos geo_dest : R * R) (cs ct : Z * Z) :
  engine_ok self ->
  _geo_idx self geo_pos = Ok cs -> _geo_idx self geo_dest = Ok ct ->
  cs <> ct ->
  exists c1 rest cost,
    get_next_azimuth self geo_pos geo_dest
      = Ok (theta (coord_at self cs) (coord_at self c1),
            map (coord_at self) (cs :: c1 :: rest)) /\
    route_to self cs ct (cs :: c1 :: rest) cost /\
    forall cells' cost', route_to self cs ct cells' cost' -> (cost <= cost')%R.
Proof.
  intros Hok Hp Hd Hne.
  destruct (get_next_azimuth_route self geo_pos geo_dest cs ct Hok Hp Hd Hne)
    as (c1 & rest & cost & Hr & Hroute & _ & Hopt).
  exists c1, rest, cost. auto.
Qed.

Lemma origin_is_not_far : (0, 0) <> (1, 1).
Proof. discriminate. Qed.

Lemma get_next_azimuth_cheapest_route_witness :
  exists c1 rest cost,
    get_next_azimuth square_engine (0, 0)%R (1, 1)%R
      = Ok (@theta taxicab_geod (coord_at square_engine (0, 0)) (coord_at square_engine c1),
            map (coord_at square_engine) ((0, 0) :: c1 :: rest)) /\
    @route_to taxicab_geod square_engine (0, 0) (1, 1) ((0, 0) :: c1 :: rest) cost.
Proof.
  destruct (@get_next_azimuth_cheapest_route taxicab_geod square_engine (0, 0)%R (1, 1)%R
              (0, 0) (1, 1) square_engine_ok square_geo_idx_origin square_geo_idx_far
              origin_is_not_far) as (c1 & rest & cost & H1 & H2 & _).
  exists c1, rest, cost. split; assumption.
Defined.

(** ** Grids whose arrays do not fit together *)

Lemma getitem2_raises {A} (a : ndarray A) (y x : Z) (e : exn) :
  getitem2 a y x = Err e -> e = IndexError.
Proof.
  unfold getitem2, norm_index.
  destruct ((0 <=? y) && (y <? shape0 a)); cbn [bind];
    [|destruct ((- shape0 a <=? y) && (y <? 0)); cbn [bind]; [|congruence]];
    (destruct ((0 <=? x) && (x <? shape1 a)); cbn [bind];
     [|destruct ((- shape1 a <=? x) && (x <? 0)); cbn [bind]; [|congruence]]);
    match goal with |- context [nth_error ?l ?n] => destruct (nth_error l n) end;
    congruence.
Qed.

Lemma getitem2_outside {A} (a : ndarray A) (y x : Z) :
  0 <= y -> 0 <= x -> shape0 a <= y \/ shape1 a <= x ->
  getitem2 a y x = Err IndexError.
Proof.
  intros Hy Hx Hout.
  destruct (getitem2 a y x) as [v|e] eqn:E; [|now rewrite (getitem2_raises a y x e E)].
  exfalso. unfold getitem2, norm_index in E.
  destruct ((0 <=? y) && (y <? shape0 a)) eqn:Ey; cbn [bind] in E.
  - destruct ((0 <=? x) && (x <? shape1 a)) eqn:Ex; cbn [bind] in E.
    + apply andb_true_iff in Ey, Ex. lia.
    + destruct ((- shape1 a <=? x) && (x <? 0)) eqn:Ex'; cbn [bind] in E; [|discriminate].
      apply andb_true_iff in Ex'. lia.
  - destruct ((- shape0 a <=? y) && (y <? 0)) eqn:Ey'; cbn [bind] in E; [|discriminate].
    apply andb_true_iff in Ey'. lia.
Qed.

Lemma mapM_raises {A B} (f : A -> result B) (l : list A) (e : exn) :
  (forall a e', In a l -> f a = Err e' -> e' = e) ->
  forall e', mapM f l = Err e' -> e' = e.
Proof.
  induction l as [|a l IH]; intros H e' E; [discriminate|]. cbn [mapM] in E.
  destruct (f a) as [b|e0] eqn:Ea; cbn [bind] in E.
  - destruct (mapM f l) as [bs|e1] eqn:El; cbn [bind] in E; [discriminate|].
    injection E as <-. apply IH; [|reflexivity]. intros a' e'' Hin. apply H. now right.
  - injection E as <-. apply (H a e0); [now left|assumption].
Qed.

Lemma foldM_raises {A S} (f : S -> A -> result S) (l : list A) (e : exn) :
  (forall s a e', In a l -> f s a = Err e' -> e' = e) ->
  (exists a, In a l /\ forall s, f s a = Err e) ->
  forall s, foldM f l s = Err e.
Proof.
  induction l as [|a l IH]; intros Honly (b & Hb & Hfail) s; [destruct Hb|].
  cbn [foldM]. destruct (f s a) as [s'|e'] eqn:Ea; cbn [bind].
  - apply IH.
    + intros s0 a0 e0 Hin. apply Honly. now right.
    + destruct Hb as [->|Hb]; [rewrite Hfail in Ea; discriminate|]. now exists b.
  - f_equal. apply (Honly s a e'); [now left|assumption].
Qed.

Lemma all_cells_empty (dims : Z * Z) :
  0 <= fst dims -> 0 <= snd dims -> fst dims * snd dims = 0 -> all_cells dims = [].
Proof.
  intros H0 H1 Hz.
  destruct (all_cells dims) as [|c l] eqn:E; [reflexivity|]. exfalso.
  assert (Hc : In c (all_cells dims)) by (rewrite E; now left).
  apply all_cells_In in Hc. destruct Hc as [Hy Hx]. nia.
Qed.

Section Mismatch.
Context {geod : Geod}.
Variable self : ModuleNavigation.
Hypothesis Hl : ndarray_wf (latlons self).
Hypothesis Hc : ndarray_wf (currents self).
Hypothesis HU0 : shape0 (currents self) <= UINT_MAX + 1.
Hypothesis HU1 : shape1 (currents self) <= UINT_MAX + 1.

Lemma cell_encode (c : Z * Z) :
  cell_in_grid (grid_dims self) c -> _encode_node_id c = Ok (node_of c).
Proof.
  intros [Hy Hx]. unfold grid_dims in Hy, Hx. cbn [fst snd] in Hy, Hx.
  destruct c as [y x]. cbn [fst snd] in *. apply encode_ok; lia.
Qed.

Lemma get_neighbors_raises (c : Z * Z) (e : exn) :
  cell_in_grid (grid_dims self) c ->
  _get_neighbors self (fst c) (snd c) (grid_dims self) = Err e -> e = IndexError.
Proof.
  intros Hin. unfold _get_neighbors.
  replace (fst c, snd c) with c by now destruct c.
  rewrite (cell_encode c Hin). cbn [bind].
  destruct (getitem2 (latlons self) (fst c) (snd c)) as [[lat_src lon_src]|e0] eqn:E0;
    cbn [bind]; [|intros [= <-]; now apply (getitem2_raises _ _ _ _ E0)].
  pose proof (valid_neighbors_in_bounds (fst c) (snd c) (grid_dims self)) as Hvn.
  rewrite Forall_forall in Hvn.
  remember (valid_neighbors (fst c) (snd c) (grid_dims self)) as vn eqn:Evn. clear Evn.
  destruct (mapM _ vn) as [coords|e1] eqn:E1; cbn [bind].
  2:{ intros [= <-]. apply (mapM_raises _ vn IndexError) in E1; [assumption|].
      intros [yd xd] e' _ H. now apply (getitem2_raises _ _ _ _ H). }
  destruct (columns coords) as [[lats lons]|e2] eqn:E2; cbn [bind].
  2:{ intros [= <-]. unfold columns in E2. destruct coords; congruence. }
  pose proof (getitem2_in (0%R, 0%R) (currents self) c Hc Hin) as E3.
  rewrite E3. cbn [bind]. destruct (cell (0%R, 0%R) (currents self) c) as [cu cv].
  rewrite (mapM_ok _ node_of vn); [cbn [bind]; discriminate|].
  intros a Ha. apply cell_encode. now apply Hvn.
Qed.

Lemma get_neighbors_outside (c : Z * Z) :
  cell_in_grid (grid_dims self) c ->
  shape0 (latlons self) <= fst c \/ shape1 (latlons self) <= snd c ->
  _get_neighbors self (fst c) (snd c) (grid_dims self) = Err IndexError.
Proof.
  intros Hin Hout. unfold _get_neighbors.
  replace (fst c, snd c) with c by now destruct c.
  rewrite (cell_encode c Hin). cbn [bind].
  destruct Hin as [Hy Hx].
  rewrite getitem2_outside; [reflexivity| lia | lia | assumption].
Qed.

Lemma build_graph_mismatch :
  shape0 (currents self) * shape1 (currents self) <> 0 ->
  shape0 (latlons self) < shape0 (currents self) \/
  shape1 (latlons self) < shape1 (currents self) ->
  build_graph self = Err IndexError.
Proof.
  intros Hnz Hsmall. destruct Hc as (H0 & H1 & _). unfold build_graph.
  apply foldM_raises.
  - intros G c e Hin E. apply all_cells_In in Hin.
    destruct (_get_neighbors self (fst c) (snd c) (grid_dims self)) as [ns|e0] eqn:En;
      cbn [bind] in E; [discriminate|].
    injection E as <-. now apply (get_neighbors_raises c e0 Hin).
  - exists (shape0 (currents self) - 1, shape1 (currents self) - 1).
    assert (Hin : cell_in_grid (grid_dims self)
                    (shape0 (currents self) - 1, shape1 (currents self) - 1)).
    { unfold cell_in_grid, grid_dims. cbn [fst snd]. nia. }
    split; [now apply all_cells_In|].
    intros G. rewrite (get_neighbors_outside _ Hin); [reflexivity|]. cbn [fst snd]. lia.
Qed.
End Mismatch.

(** [_transform_map] on well-formed arrays whose dimensions fit the node
    ids raises nothing but IndexError, whether it prints or not.  It
    raises it for the grid of a single cell and for a flow field with a
    cell that has no coordinate; it returns a graph when the flow field
    has no cell and when, the grid not being a single cell, every cell
    of the flow field has a coordinate. *)
Theorem transform_map_outcome {geod : Geod} (self : ModuleNavigation) (out : stdout) :
  ndarray_wf (latlons self) -> ndarray_wf (currents self) ->
  shape0 (currents self) <= UINT_MAX + 1 -> shape1 (currents self) <= UINT_MAX + 1 ->
  (forall e, snd (_transform_map self out) = Err e -> e = IndexError) /\
  (grid_dims self = (1, 1) -> snd (_transform_map self out) = Err IndexError) /\
  (shape0 (currents self) * shape1 (currents self) <> 0 ->
   shape0 (latlons self) < shape0 (currents self) \/
   shape1 (latlons self) < shape1 (currents self) ->
   snd (_transform_map self out) = Err IndexError) /\
  (shape0 (currents self) * shape1 (currents self) = 0 ->
   snd (_transform_map self out) = Ok empty_DiGraph) /\
  (grid_dims self <> (1, 1) ->
   shape0 (currents self) <= shape0 (latlons self) ->
   shape1 (currents self) <= shape1 (latlons self) ->
   exists G, snd (_transform_map self out) = Ok G).
Proof.
  intros Hl Hc HU0 HU1. rewrite transform_map_result.
  assert (Hmis : shape0 (currents self) * shape1 (currents self) <> 0 ->
                 shape0 (latlons self) < shape0 (currents self) \/
                 shape1 (latlons self) < shape1 (currents self) ->
                 build_graph self = Err IndexError)
    by (apply build_graph_mismatch; assumption).
  assert (Hcov : shape0 (currents self) <= shape0 (latlons self) ->
                 shape1 (currents self) <= shape1 (latlons self) -> grid_wf self)
    by (intros; unfold grid_wf; auto 10).
  assert (Hempty : shape0 (currents self) * shape1 (currents self) = 0 ->
                   build_graph self = Ok empty_DiGraph).
  { intros Hz. unfold build_graph. rewrite all_cells_empty; [reflexivity| | |exact Hz];
      unfold grid_dims; cbn [fst snd]; apply Hc. }
  split; [|split; [|split; [|split]]].
  - intros e He.
    destruct (Z.eq_dec (shape0 (currents self) * shape1 (currents self)) 0) as [Hz|Hnz].
    { rewrite (Hempty Hz) in He. discriminate. }
    destruct (Z_lt_le_dec (shape0 (latlons self)) (shape0 (currents self))) as [H0|H0].
    { rewrite (Hmis Hnz (or_introl H0)) in He. congruence. }
    destruct (Z_lt_le_dec (shape1 (latlons self)) (shape1 (currents self))) as [H1|H1].
    { rewrite (Hmis Hnz (or_intror H1)) in He. congruence. }
    destruct (Z.eq_dec (shape0 (currents self)) 1) as [E0|N0];
      [destruct (Z.eq_dec (shape1 (currents self)) 1) as [E1|N1]|].
    + rewrite (build_graph_1x1 self (Hcov H0 H1)) in He; [congruence|].
      unfold grid_dims. now rewrite E0, E1.
    + rewrite (build_graph_ok self (Hcov H0 H1)) in He; [discriminate|].
      unfold grid_dims. intros [= _ E]. contradiction.
    + rewrite (build_graph_ok self (Hcov H0 H1)) in He; [discriminate|].
      unfold grid_dims. intros [= E _]. contradiction.
  - intros Hd. unfold grid_dims in Hd. injection Hd as E0 E1.
    destruct (Z_lt_le_dec (shape0 (latlons self)) (shape0 (currents self))) as [H0|H0].
    { apply Hmis; [rewrite E0, E1; lia|now left]. }
    destruct (Z_lt_le_dec (shape1 (latlons self)) (shape1 (currents self))) as [H1|H1].
    { apply Hmis; [rewrite E0, E1; lia|now right]. }
    apply (build_graph_1x1 self (Hcov H0 H1)). unfold grid_dims. now rewrite E0, E1.
  - exact Hmis.
  - exact Hempty.
  - intros Hd H0 H1. eexists. apply (build_graph_ok self (Hcov H0 H1) Hd).
Qed.

Lemma transform_map_outcome_witness :
  snd (@_transform_map taxicab_geod single_cell_module []) = Err IndexError /\
  exists G, snd (@_transform_map taxicab_geod square_module []) = Ok G.
Proof.
  split.
  - destruct (@transform_map_outcome taxicab_geod single_cell_module [])
      as (_ & H & _); try (unfold ndarray_wf, UINT_MAX; cbn; lia).
    apply H. reflexivity.
  - destruct (@transform_map_outcome taxicab_geod square_module [])
      as (_ & _ & _ & _ & H); try (unfold ndarray_wf, UINT_MAX; cbn; lia).
    apply H; [discriminate|cbn; lia|cbn; lia].
Defined.

Lemma graph_of_grid_witness :
  exists G,
    snd (@_transform_map taxicab_geod square_module []) = Ok G /\
    has_edge G (node_of (0, 0)) (node_of (1, 1)) /\
    Z.of_nat (number_of_edges G) <= 32.
Proof.
  destruct (@graph_of_grid taxicab_geod square_module [] square_module_wf)
    as (G & HG & _ & Hedge & _ & Hn).
  - discriminate.
  - exists G. split; [exact HG|]. split; [|exact Hn].
    apply Hedge. exists (0, 0), (1, 1).
    unfold cell_in_grid, king_move. cbn. repeat split; try lia. discriminate.
Defined.

(** ** A module from [__init__] *)





(** ** The progress that a verbose build reports *)

Lemma seq_shift_map (idx : Z) (n k : nat) :
  forall a,
    map (fun j => idx + Z.of_nat j) (seq (n + a) k)
    = map (fun j => idx + Z.of_nat n + Z.of_nat j) (seq a k).
Proof.
  induction k as [|k IH]; intros a; [reflexivity|]. cbn [seq map]. f_equal; [lia|].
  rewrite <- (IH (S a)). f_equal. f_equal. lia.
Qed.

Section ProgressOutput.
Context {geod : Geod}.
Variable self : ModuleNavigation.
Hypothesis Hv : verbose self = true.

Let total : Z := shape0 (currents self) * shape1 (currents self).

Let report (i : Z) : stdout :=
  progress_line i total :: (if i =? total then [LF] else []).

Let reports (idx : Z) (n : nat) : stdout :=
  flat_map report (map (fun k => idx + Z.of_nat k) (seq 1 n)).

Let body (y x : Z) (s : Z * DiGraph) : IO (Z * DiGraph) :=
  let '(idx, currents_graph) := s in
  idx <~ (if verbose self
          then let idx := idx + 1 in
               u <~ print_progress_bar idx (shape0 (currents self) * shape1 (currents self))
                                       50 fill_default ;;
               io_ret idx
          else io_ret idx) ;;
  ns <~ io_lift (_get_neighbors self y x (shape0 (currents self), shape1 (currents self))) ;;
  io_ret (idx, add_edges_from currents_graph ns).

Lemma print_progress_bar_report (i : Z) (out : stdout) :
  total <> 0 ->
  print_progress_bar i (shape0 (currents self) * shape1 (currents self)) 50 fill_default out
  = (out ++ report i, Ok tt).
Proof.
  intros Ht. unfold print_progress_bar, io_bind, io_lift, print, io_ret, report, progress_line.
  fold total. apply Z.eqb_neq in Ht. rewrite Ht.
  destruct (i =? total); cbn [app]; [rewrite <- app_assoc|]; reflexivity.
Qed.

Lemma reports_app (idx : Z) (n m : nat) :
  reports idx (n + m) = reports idx n ++ reports (idx + Z.of_nat n) m.
Proof.
  unfold reports. rewrite seq_app, map_app, flat_map_app. f_equal.
  rewrite (Nat.add_comm 1 n). now rewrite seq_shift_map.
Qed.

Lemma body_output (y x : Z) (idx : Z) (G : DiGraph) (out out' : stdout)
    (idx' : Z) (G' : DiGraph) :
  total <> 0 ->
  body y x (idx, G) out = (out', Ok (idx', G')) ->
  idx' = idx + 1 /\ out' = out ++ report (idx + 1).
Proof.
  intros Ht. unfold body. rewrite Hv. unfold io_bind.
  rewrite (print_progress_bar_report (idx + 1) out Ht). unfold io_ret, io_lift.
  destruct (_get_neighbors self y x _) as [ns|e]; [|discriminate].
  intros [= <- <- <-]. auto.
Qed.

Lemma inner_loop_output (y : Z) (xs : list Z) :
  total <> 0 \/ xs = [] ->
  forall idx G out out' idx' G',
    for_each xs (body y) (idx, G) out = (out', Ok (idx', G')) ->
    idx' = idx + Z.of_nat (List.length xs) /\
    out' = out ++ reports idx (List.length xs).
Proof.
  intros Ht. induction xs as [|x xs IH]; intros idx G out out' idx' G' E.
  - cbn in E. injection E as <- <- <-. unfold reports. cbn. rewrite app_nil_r.
    split; [lia|reflexivity].
  - destruct Ht as [Ht|Ht]; [|discriminate].
    cbn [for_each] in E. unfold io_bind at 1 in E.
    destruct (body y x (idx, G) out) as [o1 [[i1 G1]|e1]] eqn:Eb; [|discriminate].
    destruct (body_output y x idx G out o1 i1 G1 Ht Eb) as (-> & ->).
    destruct (IH (or_introl Ht) _ _ _ _ _ _ E) as (-> & ->).
    split; [cbn [List.length]; lia|].
    replace (List.length (x :: xs)) with (1 + List.length xs)%nat by reflexivity.
    rewrite (reports_app idx 1 (List.length xs)), app_assoc. f_equal. f_equal.
    unfold reports. cbn. now rewrite app_nil_r.
Qed.

Lemma outer_loop_output (ys : list Z) :
  (ys <> [] -> 0 < shape0 (currents self)) ->
  forall idx G out out' idx' G',
    for_each ys (fun y => for_each (range (shape1 (currents self))) (body y)) (idx, G) out
      = (out', Ok (idx', G')) ->
    out' = out ++ reports idx (List.length ys * List.length (range (shape1 (currents self)))).
Proof.
  intros Hy. induction ys as [|y ys IH]; intros idx G out out' idx' G' E.
  - cbn in E. injection E as <- <- <-. unfold reports. cbn. now rewrite app_nil_r.
  - cbn [for_each] in E. unfold io_bind at 1 in E.
    assert (Ht : total <> 0 \/ range (shape1 (currents self)) = []).
    { destruct (range (shape1 (currents self))) as [|x0 l] eqn:Er; [now right|left].
      assert (Hx : In x0 (range (shape1 (currents self)))) by (rewrite Er; now left).
      apply range_In in Hx. specialize (Hy ltac:(discriminate)). unfold total. nia. }
    destruct (for_each (range (shape1 (currents self))) (body y) (idx, G) out)
      as [o1 [[i1 G1]|e1]] eqn:Ei; [|discriminate].
    destruct (inner_loop_output y _ Ht _ _ _ _ _ _ Ei) as (-> & ->).
    assert (Hys : ys <> [] -> 0 < shape0 (currents self)).
    { intros _. apply Hy. discriminate. }
    rewrite (IH Hys _ _ _ _ _ _ E).
    rewrite <- app_assoc. f_equal.
    replace (List.length (y :: ys) * List.length (range (shape1 (currents self))))%nat
      with (List.length (range (shape1 (currents self)))
            + List.length ys * List.length (range (shape1 (currents self))))%nat
      by reflexivity.
    now rewrite reports_app.
Qed.

Lemma reports_lines (n : nat) :
  Z.of_nat n = total ->
  reports 0 n
  = map (fun i => progress_line (Z.of_nat i) total) (seq 1 n)
    ++ (if total =? 0 then [] else [LF]).
Proof.
  intros En. unfold reports.
  assert (Hbefore : forall l : list nat,
            (forall i, In i l -> Z.of_nat i <> total) ->
            flat_map report (map (fun k => 0 + Z.of_nat k) l)
            = map (fun i => progress_line (Z.of_nat i) total) l).
  { induction l as [|i l IH]; intros Hl; [reflexivity|]. cbn [map flat_map].
    rewrite IH by (intros j Hj; apply Hl; now right).
    unfold report. cbn [Z.add].
    assert (Hi : (Z.of_nat i =? total) = false)
      by (apply Z.eqb_neq, Hl; now left).
    rewrite Hi. reflexivity. }
  destruct n as [|n].
  - cbn. rewrite <- En. reflexivity.
  - replace (S n) with (n + 1)%nat by lia. rewrite seq_app, !map_app, flat_map_app.
    rewrite Hbefore.
    2:{ intros i Hi. apply in_seq in Hi. lia. }
    rewrite <- app_assoc. f_equal. cbn [seq map flat_map]. unfold report. cbn [Z.add].
    replace (Z.of_nat (1 + n)) with total by lia.
    rewrite Z.eqb_refl.
    assert (Hz : (total =? 0) = false) by (apply Z.eqb_neq; lia).
    rewrite Hz. reflexivity.
Qed.

Lemma transform_map_output (out : stdout) (G : DiGraph) :
  ndarray_wf (currents self) ->
  snd (_transform_map self out) = Ok G ->
  fst (_transform_map self out)
  = out ++ map (fun i => progress_line (Z.of_nat i) total) (seq 1 (Z.to_nat total))
        ++ (if total =? 0 then [] else [LF]).
Proof.
  intros (H0 & H1 & _).
  change (_transform_map self out)
    with (io_bind (for_each (range (shape0 (currents self)))
                     (fun y => for_each (range (shape1 (currents self))) (body y))
                     (0, empty_DiGraph))
                  (fun '(idx, g) => io_ret g) out).
  unfold io_bind.
  assert (Hy : range (shape0 (currents self)) <> [] -> 0 < shape0 (currents self)).
  { intros Hne. destruct (range (shape0 (currents self))) as [|y0 l] eqn:Er; [congruence|].
    assert (Hin : In y0 (range (shape0 (currents self)))) by (rewrite Er; now left).
    apply range_In in Hin. lia. }
  pose proof (outer_loop_output (range (shape0 (currents self))) Hy 0 empty_DiGraph out) as H.
  destruct (for_each (range (shape0 (currents self)))
              (fun y => for_each (range (shape1 (currents self))) (body y))
              (0, empty_DiGraph) out) as [o [[i G1]|e]] eqn:E; [|discriminate].
  intros _. cbn [fst io_ret]. rewrite (H o i G1 eq_refl).
  f_equal.
  assert (En : (List.length (range (shape0 (currents self)))
                * List.length (range (shape1 (currents self))))%nat = Z.to_nat total).
  { unfold range. rewrite !length_map, !length_seq. unfold total. nia. }
  rewrite En. apply reports_lines. unfold total. nia.
Qed.
End ProgressOutput.

(** A verbose [_transform_map] that returns a graph for a flow field of
    [n] cells has printed exactly the [n] progress lines of
    [print_progress_bar], numbered 1 to [n] in this order, and after
    them one newline; for a flow field without cells it has printed
    nothing. *)
Theorem transform_map_progress {geod : Geod} (self : ModuleNavigation) (out : stdout)
    (G : DiGraph) :
  verbose self = true -> ndarray_wf (currents self) ->
  snd (_transform_map self out) = Ok G ->
  fst (_transform_map self out)
  = out ++ map (fun i => progress_line (Z.of_nat i)
                           (shape0 (currents self) * shape1 (currents self)))
               (seq 1 (Z.to_nat (shape0 (currents self) * shape1 (currents self))))
        ++ (if shape0 (currents self) * shape1 (currents self) =? 0 then [] else [LF]).
Proof. intros Hv Hc HG. exact (transform_map_output self Hv out G Hc HG). Qed.

Lemma verbose_square_graph :
  snd (@_transform_map taxicab_geod
         (mk_ModuleNavigation square_latlons still_water 3600%R true None None) [])
  = Ok square_graph.
Proof.
  rewrite transform_map_result.
  rewrite (build_graph_verbose square_latlons still_water 3600%R true false None None None None).
  rewrite <- (transform_map_result square_module []). apply square_module_graph.
Qed.

Lemma transform_map_progress_witness :
  fst (@_transform_map taxicab_geod
         (mk_ModuleNavigation square_latlons still_water 3600%R true None None) [])
  = map (fun i => progress_line (Z.of_nat i) 4) [1; 2; 3; 4]%nat ++ [LF].
Proof.
  apply (@transform_map_progress taxicab_geod
           (mk_ModuleNavigation square_latlons still_water 3600%R true None None) []
           square_graph).
  - reflexivity.
  - unfold ndarray_wf. cbn. lia.
  - apply verbose_square_graph.
Defined.

(** ** A new flow field over the same coordinates *)

Lemma set_currents_map_result_ok {geod : Geod} (self : ModuleNavigation)
    (grid flow : ndarray (R * R)) (out : stdout) :
  arrays_ok grid flow -> ~ (shape0 flow = 1 /\ shape1 flow = 1) ->
  exists G,
    snd (set_currents_map self grid flow out)
      = (mk_ModuleNavigation grid flow (timestep self) (verbose self)
                             (Some G) (kdtree self), Ok tt) /\
    engine_ok (mk_ModuleNavigation grid flow (timestep self) (verbose self)
                                   (Some G) (kdtree self)).
Proof.
  intros Hok Hne. pose proof Hok as (H1 & H2 & E0 & E1 & U0 & U1).
  pose proof (arrays_ok_grid_wf grid flow (timestep self) (verbose self)
                (nav_graph self) (kdtree self) Hok) as Hwf.
  rewrite set_currents_map_result.
  assert (Hd : grid_dims (mk_ModuleNavigation grid flow (timestep self) (verbose self)
                            (nav_graph self) (kdtree self)) <> (1, 1)).
  { unfold grid_dims. cbn [currents]. intros [= Ey Ex]. now apply Hne. }
  rewrite (build_graph_ok _ Hwf Hd). eexists. split; [reflexivity|].
  split; [now apply arrays_ok_grid_wf|]. cbn [latlons currents nav_graph].
  split; [assumption|]. split; [assumption|].
  eexists. split; [reflexivity|].
  rewrite (build_graph_verbose grid flow (timestep self) (verbose self) (verbose self)
             _ (nav_graph self) _ (kdtree self)).
  apply (build_graph_ok _ Hwf Hd).
Qed.

(** [set_currents_map] with the coordinates that the module already has
    and a new flow field of their shape (not a single cell) succeeds,
    every position resolves to the same cell as before, and
    [get_current] then returns the new flow of that cell. *)
Theorem update_flow_then_get_current {geod : Geod} (self : ModuleNavigation)
    (flow : ndarray (R * R)) (out : stdout) :
  tree_fresh self -> arrays_ok (latlons self) flow ->
  shape0 flow * shape1 flow <> 0 -> ~ (shape0 flow = 1 /\ shape1 flow = 1) ->
  exists st',
    snd (set_currents_map self (latlons self) flow out) = (st', Ok tt) /\
    latlons st' = latlons self /\ currents st' = flow /\
    forall geo_pos,
    exists c,
      _geo_idx self geo_pos = Ok c /\ _geo_idx st' geo_pos = Ok c /\
      cell_in_grid (shape0 flow, shape1 flow) c /\
      get_current st' geo_pos = Ok (cell (0%R, 0%R) flow c).
Proof.
  intros Hfresh Harr Hnz Hne. pose proof Harr as (Hl & Hf & E0 & E1 & _).
  destruct (set_currents_map_result_ok self (latlons self) flow out Harr Hne)
    as (G & Hr & Hok).
  eexists. split; [exact Hr|]. split; [reflexivity|]. split; [reflexivity|].
  intros geo_pos.
  destruct (geo_idx_spec self geo_pos Hl Hfresh ltac:(rewrite E0, E1; exact Hnz))
    as (c & Hc & Hin & _).
  exists c. split; [exact Hc|]. split; [exact Hc|].
  rewrite E0, E1 in Hin. split; [exact Hin|].
  unfold get_current.
  change (_geo_idx (mk_ModuleNavigation (latlons self) flow (timestep self) (verbose self)
                                        (Some G) (kdtree self)) geo_pos)
    with (_geo_idx self geo_pos).
  rewrite Hc. cbn [bind]. destruct c as [y x].
  destruct Hok as (Hwf & _).
  apply (currents_getitem _ Hwf (y, x)). exact Hin.
Qed.

Lemma square_streams_ok : arrays_ok (latlons square_engine) streams.
Proof. unfold arrays_ok, ndarray_wf, UINT_MAX. cbn. repeat split; lia. Qed.

Lemma update_flow_then_get_current_witness :
  exists st' c,
    snd (@set_currents_map taxicab_geod square_engine (latlons square_engine) streams [])
      = (st', Ok tt) /\
    _geo_idx st' (1, 1)%R = Ok c /\
    get_current st' (1, 1)%R = Ok (cell (0%R, 0%R) streams c).
Proof.
  destruct (@update_flow_then_get_current taxicab_geod square_engine streams []
              square_engine_fresh square_streams_ok) as (st' & Hr & _ & _ & H).
  - cbn. lia.
  - cbn. lia.
  - destruct (H (1, 1)%R) as (c & _ & Hc & _ & Hg).
    exists st', c. auto.
Defined.

(** On a consistent module, the route that [get_next_azimuth] returns
    between two different cells visits no cell twice and stays within
    the grid: it has at least two and at most as many coordinates as the
    grid has cells. *)
Theorem get_next_azimuth_never_revisits {geod : Geod} (self : ModuleNavigation)
    (geo_pos geo_dest : R * R) (cs ct : Z * Z) :
  engine_ok self ->
  _geo_idx self geo_pos = Ok cs -> _geo_idx self geo_dest = Ok ct ->
  cs <> ct ->
  exists az cells,
    get_next_azimuth self geo_pos geo_dest = Ok (az, map (coord_at self) cells) /\
    NoDup cells /\
    Forall (cell_in_grid (grid_dims self)) cells /\
    (2 <= List.length cells)%nat /\
    Z.of_nat (List.length cells) <= fst (grid_dims self) * snd (grid_dims self).
Proof.
  intros Hok Hp Hd Hne.
  destruct (get_next_azimuth_route self geo_pos geo_dest cs ct Hok Hp Hd Hne)
    as (c1 & rest & cost & Hr & Hroute & Hnd & _).
  pose proof (engine_geo_idx_cell self Hok _ _ Hp) as Hcs.
  destruct Hok as (Hwf & _).
  destruct (route_to_in_grid self cs ct _ cost Hcs Hroute) as (_ & Hall).
  eexists. exists (cs :: c1 :: rest). split; [exact Hr|]. split; [assumption|].
  split; [assumption|]. split; [cbn [List.length]; lia|].
  destruct Hwf as (_ & (H0 & H1 & _) & _).
  rewrite <- (all_cells_length (grid_dims self) H0 H1).
  apply Nat2Z.inj_le. apply NoDup_incl_length; [assumption|].
  intros c Hc. apply all_cells_In. rewrite Forall_forall in Hall. now apply Hall.
Qed.

Lemma get_next_azimuth_never_revisits_witness :
  exists az cells,
    get_next_azimuth square_engine (0, 0)%R (1, 1)%R
      = Ok (az, map (coord_at square_engine) cells) /\
    NoDup cells /\ Z.of_nat (List.length cells) <= 4.
Proof.
  destruct (@get_next_azimuth_never_revisits taxicab_geod square_engine (0, 0)%R (1, 1)%R
              (0, 0) (1, 1) square_engine_ok square_geo_idx_origin square_geo_idx_far
              origin_is_not_far) as (az & cells & H1 & H2 & _ & _ & H3).
  exists az, cells. auto.
Defined.

(** ** The route after the first hop *)

Section RouteTails.
Context {geod : Geod}.
Variable self : ModuleNavigation.

Lemma route_to_single (cs a x : Z * Z) (c : R) :
  route_to self cs a [x] c -> a = cs /\ c = 0%R.
Proof.
  intros H. inversion H as [|a0 b l c0 Hr Hb Hk E]; subst; [auto|].
  destruct l as [|y l].
  - destruct (route_to_head self cs a0 [] c0 Hr) as (rest & E' & _). discriminate.
  - destruct l; discriminate.
Qed.

Lemma route_prepend (a b ct : Z * Z) (l : list (Z * Z)) (c : R) :
  route_to self b ct l c ->
  cell_in_grid (grid_dims self) b -> king_move a b ->
  exists c', route_to self a ct (a :: l) c' /\
             c' = (spec_cost (timestep self) (coord_at self a) (coord_at self b)
                             (flow_at self a) + c)%R.
Proof.
  intros Hr Hb Hk. induction Hr as [|x y l c Hr (c' & IH & Ec) Hy Hxy].
  - eexists. split.
    + apply (route_hop self a a b [a] 0%R (route_here self a) Hb Hk).
    + ring.
  - eexists. split.
    + apply (route_hop self a x y (a :: l) c' IH Hy Hxy).
    + rewrite Ec. ring.
Qed.

Lemma route_tail (cs ct : Z * Z) (cells : list (Z * Z)) (cost : R) :
  route_to self cs ct cells cost ->
  forall c1 rest, cells = cs :: c1 :: rest ->
    exists cost1,
      route_to self c1 ct (c1 :: rest) cost1 /\
      cost = (spec_cost (timestep self) (coord_at self cs) (coord_at self c1)
                        (flow_at self cs) + cost1)%R.
Proof.
  induction 1 as [|a b l c Hr IH Hb Hk]; intros c1 rest E; [discriminate|].
  destruct (route_to_head self cs a l c Hr) as (rest0 & El & _). subst l.
  destruct rest0 as [|n0 r].
  - cbn in E. injection E as <- <-.
    destruct (route_to_single cs a cs c Hr) as (-> & ->).
    exists 0%R. split; [constructor|ring].
  - cbn [app] in E. injection E as <- <-.
    destruct (IH n0 r eq_refl) as (cost1 & Hr1 & Ec).
    eexists. split.
    + apply (route_hop self n0 a b (n0 :: r) cost1 Hr1 Hb Hk).
    + rewrite Ec. ring.
Qed.
End RouteTails.

(** On a consistent module, the part of the route of [get_next_azimuth]
    that follows its first hop is itself a cheapest route, from the
    second cell of the route to the cell of the destination. *)
Theorem get_next_azimuth_remaining_route {geod : Geod} (self : ModuleNavigation)
    (geo_pos geo_dest : R * R) (cs ct : Z * Z) :
  engine_ok self ->
  _geo_idx self geo_pos = Ok cs -> _geo_idx self geo_dest = Ok ct ->
  cs <> ct ->
  exists c1 rest cost1,
    get_next_azimuth self geo_pos geo_dest
      = Ok (theta (coord_at self cs) (coord_at self c1),
            map (coord_at self) (cs :: c1 :: rest)) /\
    king_move cs c1 /\
    route_to self c1 ct (c1 :: rest) cost1 /\
    forall cells' cost', route_to self c1 ct cells' cost' -> (cost1 <= cost')%R.
Proof.
  intros Hok Hp Hd Hne.
  destruct (get_next_azimuth_route self geo_pos geo_dest cs ct Hok Hp Hd Hne)
    as (c1 & rest & cost & Hr & Hroute & _ & Hopt).
  destruct (route_to_first_hop self cs ct _ cost Hroute c1 rest eq_refl) as (Hk & Hc1).
  destruct (route_tail self cs ct _ cost Hroute c1 rest eq_refl) as (cost1 & Hr1 & Ec).
  exists c1, rest, cost1. split; [assumption|]. split; [assumption|].
  split; [assumption|].
  intros cells' cost' Hr'.
  destruct (route_prepend self cs c1 ct cells' cost' Hr' Hc1 Hk) as (c' & Hfull & Ec').
  specialize (Hopt _ _ Hfull). lra.
Qed.

Lemma get_next_azimuth_remaining_route_witness :
  exists c1 rest cost1,
    get_next_azimuth square_engine (0, 0)%R (1, 1)%R
      = Ok (@theta taxicab_geod (coord_at square_engine (0, 0)) (coord_at square_engine c1),
            map (coord_at square_engine) ((0, 0) :: c1 :: rest)) /\
    @route_to taxicab_geod square_engine c1 (1, 1) (c1 :: rest) cost1.
Proof.
  destruct (@get_next_azimuth_remaining_route taxicab_geod square_engine (0, 0)%R (1, 1)%R
              (0, 0) (1, 1) square_engine_ok square_geo_idx_origin square_geo_idx_far
              origin_is_not_far) as (c1 & rest & cost1 & H1 & _ & H2 & _).
  exists c1, rest, cost1. split; assumption.
Defined.
